(** * ArrayStream: a shallow embedding of src/ArrayStream.js

    The engine streams items to disk as JSON arrays, one array per file,
    rotating to the next generated file name every [maxItems] items.

    Conventions of the embedding
    - JavaScript strings and file contents are byte strings ([string]); an
      item's text stands for its UTF-8 encoding.
    - The disk is a finite map from paths to contents. Disk operations
      succeed (no permission or space failures); directories are not tracked.
    - A [fs.WriteStream] is a handle: a path, the stream's own offset [pos]
      and the flags it was opened with. A stream opened with the flags [a+]
      appends: the file is opened in append mode, in which the position of a
      write is ignored and the bytes go to the end of the file (Node's
      documented behaviour on Linux).
    - The stream base class ([Writable]) is outside the sources: [_write]
      and [_final] stand for the engine's write and finalize operations.
    - Each [_write] runs to completion, stream callback included, before the
      next call starts (the stream base class serialises the calls).
    - The callbacks a call makes are returned as a list, in call order.
    - [None] stands for a call that never returns (the file-name search of
      [openOutstream] going on for ever). *)

From stdpp Require Import gmap strings pretty list fin_maps.
From Stdlib Require Import Ascii.

Local Open Scope nat_scope.

(** ** Byte strings *)

Module Text.

Fixpoint take (n : nat) (s : string) : string :=
  match n, s with
  | S n', String c s' => String c (take n' s')
  | _, _ => ""
  end.

Fixpoint drop (n : nat) (s : string) : string :=
  match n, s with
  | S n', String _ s' => drop n' s'
  | _, _ => s
  end.

Fixpoint replicate (n : nat) (c : ascii) : string :=
  match n with
  | 0 => ""
  | S n' => String c (replicate n' c)
  end.

(** [s.endsWith(suf)] *)
Definition endsWith (s suf : string) : bool :=
  bool_decide (String.length suf ≤ String.length s
               ∧ drop (String.length s - String.length suf) s = suf).

(** [s.padStart(n, c)] for a one-character filler [c]. *)
Definition padStart (s : string) (n : nat) (c : ascii) : string :=
  replicate (n - String.length s) c +:+ s.

(** [pwrite]: the bytes [data] land at offset [pos] of [content],
    replacing what was there and extending the file when they run past
    its end. *)
Definition pwrite (content : string) (pos : nat) (data : string) : string :=
  take pos content +:+ data +:+ drop (pos + String.length data) content.

(** [parts.join(sep)] *)
Fixpoint join (sep : string) (parts : list string) : string :=
  match parts with
  | [] => ""
  | [p] => p
  | p :: rest => p +:+ sep +:+ join sep rest
  end.

End Text.

Definition newline : string := String (ascii_of_nat 10) "".

(** ** Constants *)

(** Modelled from the spec: [lib/constants] is not among the sources; the
    spec names the separator: the JSON element separator, a comma. *)
Definition SEPARATOR : string := ",".

(** ** Items *)

(** What [_write] can observe of a chunk.  For a chunk that is neither a
    Buffer nor a string, [stringify] is the text [JSON.stringify(chunk)]
    contributes to [sep + chunk], or [None] when [JSON.stringify] throws
    (BigInt, cyclic object, throwing [toJSON]); [coerce] is the string
    [sep + chunk] coerces the original value to, or [None] when that coercion
    throws. *)
Inductive Chunk :=
| Buf (bytes : string)
| Str (s : string)
| Val (stringify : option string) (coerce : option string).

(** ** Configuration *)

Record FileConfig := {
  folder : string;
  keyPattern : string;
  fileType : string;
  numDigits : nat;
}.

(** The validated configuration.  [itemValidationSchema], when present, maps
    an item to [Some e] when [validate] reports or throws [e]. *)
Record Config := {
  file : FileConfig;
  maxItems : nat;
  itemValidationSchema : option (Chunk → option string);
  overwrite : bool;
  lazy : bool;
  append : bool;
}.

(** ** Engine state *)

(** The [flags] of a write stream: [w], the default, or [a+]. *)
Inductive Flags := flags_w | flags_a_plus.

Record WriteStream := {
  path : string;
  pos : nat;
  flags : Flags;
}.

Record ArrayStream := {
  config : Config;
  sep : string;
  count : nat;
  fileCount : nat;
  files : list string;
  key : string;
  destroyed : bool;
  outstream : option WriteStream;
}.

(** The engine together with the disk it writes to.  [ledger] is ghost
    state: no operation reads it.  It records, for each entry of [files] and
    in the same order, the data of the item writes the engine has made on
    the stream it opened for that entry ([sep + chunk] of each write, in the
    order of the writes). *)
Record World := {
  this : ArrayStream;
  disk : gmap string string;
  ledger : list (list string);
}.

Definition set_keyPattern (p : string) (c : Config) : Config :=
  {| file := {| folder := folder (file c); keyPattern := p;
                fileType := fileType (file c); numDigits := numDigits (file c) |};
     maxItems := maxItems c; itemValidationSchema := itemValidationSchema c;
     overwrite := overwrite c; lazy := lazy c; append := append c |}.

Definition set_sep (v : string) (a : ArrayStream) : ArrayStream :=
  {| config := config a; sep := v; count := count a; fileCount := fileCount a;
     files := files a; key := key a; destroyed := destroyed a;
     outstream := outstream a |}.

Definition set_count (v : nat) (a : ArrayStream) : ArrayStream :=
  {| config := config a; sep := sep a; count := v; fileCount := fileCount a;
     files := files a; key := key a; destroyed := destroyed a;
     outstream := outstream a |}.

Definition set_fileCount (v : nat) (a : ArrayStream) : ArrayStream :=
  {| config := config a; sep := sep a; count := count a; fileCount := v;
     files := files a; key := key a; destroyed := destroyed a;
     outstream := outstream a |}.

Definition set_files (v : list string) (a : ArrayStream) : ArrayStream :=
  {| config := config a; sep := sep a; count := count a;
     fileCount := fileCount a; files := v; key := key a;
     destroyed := destroyed a; outstream := outstream a |}.

Definition set_key (v : string) (a : ArrayStream) : ArrayStream :=
  {| config := config a; sep := sep a; count := count a;
     fileCount := fileCount a; files := files a; key := v;
     destroyed := destroyed a; outstream := outstream a |}.

Definition set_destroyed (v : bool) (a : ArrayStream) : ArrayStream :=
  {| config := config a; sep := sep a; count := count a;
     fileCount := fileCount a; files := files a; key := key a;
     destroyed := v; outstream := outstream a |}.

Definition set_outstream (v : option WriteStream) (a : ArrayStream) : ArrayStream :=
  {| config := config a; sep := sep a; count := count a;
     fileCount := fileCount a; files := files a; key := key a;
     destroyed := destroyed a; outstream := v |}.

Definition on_this (f : ArrayStream → ArrayStream) (w : World) : World :=
  {| this := f (this w); disk := disk w; ledger := ledger w |}.

Definition set_disk (d : gmap string string) (w : World) : World :=
  {| this := this w; disk := d; ledger := ledger w |}.

Definition set_ledger (l : list (list string)) (w : World) : World :=
  {| this := this w; disk := disk w; ledger := l |}.

(** ** File names *)

(** [pattern.replace(/\$\$/, r)]: the first [$$] of the pattern becomes [r]
    ([r] is a run of digits, so it holds no replacement pattern). *)
Fixpoint replaceToken (pattern r : string) : string :=
  match pattern with
  | String "$" (String "$" rest) => r +:+ rest
  | String c rest => String c (replaceToken rest r)
  | EmptyString => ""
  end.

Definition generateKey (f : FileConfig) (index : nat) : string :=
  replaceToken (keyPattern f) (Text.padStart (pretty index) (numDigits f) "0")
  +:+ "." +:+ fileType f.

(** [incrementKey].  The file counter is a JavaScript number that starts
    at 0 and grows by one; it is modelled by a natural number, which is exact
    for the counters below 2^53 (beyond, [fileCount += 1] no longer changes
    the number). *)
Definition incrementKey (a : ArrayStream) : ArrayStream :=
  set_fileCount (fileCount a + 1)
    (set_key (generateKey (file (config a)) (fileCount a)) a).

(** [path.join(folder, key)], for a normalised folder and a key without
    path separators. *)
Definition path_join (dir name : string) : string := dir +:+ "/" +:+ name.

(** [getConfig().filePath] *)
Definition filePath (a : ArrayStream) : string :=
  path_join (folder (file (config a))) (key a).

(** [incrementCount], [resetCount], [getCount], [getFilePaths] *)
Definition incrementCount (n : nat) (a : ArrayStream) : ArrayStream :=
  set_count (count a + n) a.

Definition resetCount (a : ArrayStream) : ArrayStream := set_count 0 a.

Definition getCount (a : ArrayStream) : nat := count a.

Definition getFilePaths (a : ArrayStream) : list string := files a.

(** [getTotalCount] *)
Definition getTotalCount (a : ArrayStream) : nat :=
  if bool_decide (1 < length (files a))
  then (length (files a) - 1) * maxItems (config a) + count a
  else count a.

(** ** Streams and the disk *)

(** [fs.createWriteStream(p)] (flags [w]): the file is created or
    truncated. *)
Definition createWriteStream (p : string) (w : World) : World :=
  on_this (set_outstream (Some {| path := p; pos := 0; flags := flags_w |}))
    (set_disk (<[p := ""]> (disk w)) w).

(** [fs.createWriteStream(p, {flags: 'a+', start})]: the file is left as it
    is; the stream's offset starts at [start]. *)
Definition createWriteStreamAt (p : string) (start : nat) (w : World) : World :=
  on_this
    (set_outstream (Some {| path := p; pos := start; flags := flags_a_plus |}))
    w.

(** Where the bytes of a write land: a stream with the flags [w] writes at
    its offset; a stream with the flags [a+] writes at the end of the file,
    whatever its offset. *)
Definition landing (h : WriteStream) (content data : string) : string :=
  match flags h with
  | flags_w => Text.pwrite content (pos h) data
  | flags_a_plus => content +:+ data
  end.

(** [stream.write(data)] on handle [h]; the stream's offset advances by the
    length of the data in both modes. *)
Definition stream_write (h : WriteStream) (data : string) (w : World) : World :=
  on_this
    (set_outstream (Some {| path := path h;
                            pos := pos h + String.length data;
                            flags := flags h |}))
    (set_disk
       (<[path h := landing h (default "" (disk w !! path h)) data]>
          (disk w)) w).

(** [fs.readSync(fd, buf, 0, 1, offset)] followed by [buf.toString()]: the
    byte at [offset], when there is one. *)
Definition readByte (content : string) (offset : nat) : option ascii :=
  String.get offset content.

(** The byte probe of [openOutstream]: does the array in the file already
    end in an element? *)
Definition useSep (content : string) : bool :=
  let size := String.length content in
  if bool_decide (3 ≤ size) then
    match readByte content (size - 3) with
    | Some c => negb (bool_decide (c = "["%char ∨ c = ","%char))
    | None => false
    end
  else false.

(** ** Opening a file *)

(** The [while (newFile)] loop of [openOutstream]: step to the next key
    for as long as a file exists at the current path.  The loop runs at most
    [fuel] times; [None] when it did not stop by then. *)
Fixpoint findFreeKey (fuel : nat) (d : gmap string string) (a : ArrayStream)
  : option ArrayStream :=
  match fuel with
  | 0 => None
  | S fuel' =>
      match d !! filePath a with
      | Some _ => findFreeKey fuel' d (incrementKey a)
      | None => Some a
      end
  end.

(** The [catch] branch of [openOutstream]: a fresh file that starts with
    the opening bracket. *)
Definition openOverwrite (p : string) (w : World) : World :=
  let w1 := createWriteStream p w in
  let w2 := match outstream (this w1) with
            | Some h => stream_write h "[" w1
            | None => w1
            end in
  on_this (set_sep "") w2.

(** [openOutstream].  With [n] files on the disk, a search that has tried
    the current name and [n + 1] generated ones without finding a free one is
    on a pattern that generates the same name again, and never ends. *)
Definition openOutstream (w : World) : option World :=
  let cfg := config (this w) in
  a ← (if negb (append cfg) && negb (overwrite cfg)
       then findFreeKey (size (disk w) + 2) (disk w) (this w)
       else Some (this w));
  let p := filePath a in
  (* ensureFolder: directories are not tracked *)
  let w1 := {| this := set_files (files a ++ [p]) a; disk := disk w;
               ledger := ledger w ++ [[]] |} in
  Some
    (if overwrite cfg then openOverwrite p w1
     else
       match disk w !! p with
       | None => openOverwrite p w1              (* statSync throws *)
       | Some content =>
           let size := String.length content in
           if bool_decide (size < 2)
           then openOverwrite p w1               (* start = size - 2 < 0 throws *)
           else
             on_this (set_sep (if useSep content then SEPARATOR else ""))
               (createWriteStreamAt p (size - 2) w1)
       end).

(** ** Constructor *)

(** The key pattern with a redundant trailing [.fileType] removed (for a
    file type made of literal characters, [json] being the supported one). *)
Definition trimKeyPattern (f : FileConfig) : string :=
  if Text.endsWith (keyPattern f) ("." +:+ fileType f)
  then Text.take (String.length (keyPattern f) - String.length ("." +:+ fileType f))
         (keyPattern f)
  else keyPattern f.

Inductive Construction :=
| Built (w : World)
| ConfigError
| Hangs.

(** [new ArrayStream(args)] over disk [d], from the point where the
    arguments have passed [configValidator.validate] (line 22; the schema of
    lib/ConfigValidator.js is evaluated by joi, outside the sources): [args]
    is the validated value.  The model covers the arguments whose item
    schema, when given, has a [validate] method (a [Config] holds the schema
    as its validator), for which the check of lines 38-43 passes. *)
Definition new_ArrayStream (args : Config) (d : gmap string string)
  : Construction :=
  if append args && overwrite args then ConfigError
  else
    let cfg := set_keyPattern (trimKeyPattern (file args)) args in
    let a0 := {| config := cfg; sep := ""; count := 0; fileCount := 0;
                 files := []; key := ""; destroyed := false;
                 outstream := None |} in
    let w := {| this := incrementKey a0; disk := d; ledger := [] |} in
    if lazy cfg then Built w
    else match openOutstream w with
         | Some w' => Built w'
         | None => Hangs
         end.

(** ** Closing and rotating *)

Definition TERMINATOR : string := "]" +:+ newline.

(** [resetOutstream(final)] *)
Definition resetOutstream (final : bool) (w : World) : option World :=
  let w1 := match outstream (this w) with
            | Some h => stream_write h TERMINATOR w  (* end(']\n'), destroy *)
            | None => w
            end in
  if negb final
  then openOutstream (on_this (λ a, incrementKey (resetCount a)) w1)
  else Some (on_this (set_outstream None) w1).

(** [flushOutstream(final)] *)
Definition flushOutstream (final : bool) (w : World) : option World :=
  if destroyed (this w) then Some w
  else resetOutstream final
         (if final then on_this (set_destroyed true) w else w).

(** [_final] *)
Definition _final (w : World) : option World := flushOutstream true w.

(** ** Writing an item *)

Inductive Cause := StringifyThrew | NoOutstream | CoercionThrew.

Inductive Error :=
| ValidationError (e : string)
| WrappedError (c : Cause).

(** One call of the callback [cb]. *)
Inductive Callback :=
| CbOk
| CbErr (e : Error).

(** [validateChunk]: a Buffer is validated as its string. *)
Definition validateChunk (schema : Chunk → option string) (chunk : Chunk)
  : option string :=
  schema (match chunk with Buf b => Str b | c => c end).

(** The conversion step of [_write]: the text that [sep + chunk] will
    append after the separator ([None] when the coercion throws) and the
    callback made when [JSON.stringify] throws. *)
Definition convert (chunk : Chunk) : option string * list Callback :=
  match chunk with
  | Buf b => (Some b, [])
  | Str s => (Some s, [])
  | Val (Some text) _ => (Some text, [])
  | Val None coerced => (coerced, [CbErr (WrappedError StringifyThrew)])
  end.

(** The ledger after one more item write on the stream opened last. *)
Definition log_item (data : string) (l : list (list string))
  : list (list string) :=
  match reverse l with
  | log :: r => reverse ((log ++ [data]) :: r)
  | [] => []
  end.

(** [this.outstream.write(this.sep + chunk, () => {...})] with its
    callback: the separator is set and the count goes up. *)
Definition writeItem (h : WriteStream) (text : string) (w : World) : World :=
  let w1 := stream_write h (sep (this w) +:+ text) w in
  let w2 := if bool_decide (sep (this w1) = "")
            then on_this (set_sep SEPARATOR) w1 else w1 in
  set_ledger (log_item (sep (this w) +:+ text) (ledger w2))
    (on_this (incrementCount 1) w2).

(** [_write(chunk, encoding, cb)] *)
Definition _write (chunk : Chunk) (w : World) : option (World * list Callback) :=
  let cfg := config (this w) in
  let cb0 := if destroyed (this w) then [CbOk] else [] in
  w1 ← (if lazy cfg && negb (bool_decide (is_Some (outstream (this w))))
        then openOutstream w else Some w);
  match itemValidationSchema cfg ≫= (λ schema, validateChunk schema chunk) with
  | Some e => Some (w1, cb0 ++ [CbErr (ValidationError e)])
  | None =>
      let '(text, cb1) := convert chunk in
      if bool_decide (maxItems cfg ≤ count (this w1)) then
        w2 ← resetOutstream false w1;
        match outstream (this w2), text with
        | Some h, Some t => Some (writeItem h t w2, cb0 ++ cb1 ++ [CbOk])
        | _, _ => Some (w2, cb0 ++ cb1)     (* rejection, no callback *)
        end
      else
        match outstream (this w1), text with
        | Some h, Some t => Some (writeItem h t w1, cb0 ++ cb1 ++ [CbOk])
        | None, _ => Some (w1, cb0 ++ cb1 ++ [CbErr (WrappedError NoOutstream)])
        | Some _, None =>
            Some (w1, cb0 ++ cb1 ++ [CbErr (WrappedError CoercionThrew)])
        end
  end.

(** Writing a list of chunks in order; the callbacks of each call. *)
Fixpoint writeAll (chunks : list Chunk) (w : World)
  : option (World * list (list Callback)) :=
  match chunks with
  | [] => Some (w, [])
  | c :: rest =>
      '(w1, cbs) ← _write c w;
      '(w2, cbss) ← writeAll rest w1;
      Some (w2, cbs :: cbss)
  end.

(** ** Reading the files back *)

(** The reader's side of the file format: the element texts of a JSON
    array text.  The scan follows the bracket nesting and the string
    literals of the text, and cuts it at the commas of nesting depth 0; it
    does not check the grammar of the scalars between them. *)
Inductive Mode := Plain | InString | Escaped.

#[global] Instance Mode_eq_dec : EqDecision Mode.
Proof. solve_decision. Defined.

Inductive Step :=
| Continue (depth : nat) (m : Mode)
| Comma
| Close.

Definition is_opener (c : ascii) : bool :=
  bool_decide (c = "["%char ∨ c = "{"%char).

Definition is_closer (c : ascii) : bool :=
  bool_decide (c = "]"%char ∨ c = "}"%char).

Definition is_quote (c : ascii) : bool := bool_decide (c = ascii_of_nat 34).

Definition is_backslash (c : ascii) : bool := bool_decide (c = ascii_of_nat 92).

Definition is_space (c : ascii) : bool :=
  bool_decide (c = " "%char ∨ c = ascii_of_nat 10
               ∨ c = ascii_of_nat 13 ∨ c = ascii_of_nat 9).

Definition step (depth : nat) (m : Mode) (c : ascii) : Step :=
  match m with
  | Escaped => Continue depth InString
  | InString =>
      if is_quote c then Continue depth Plain
      else if is_backslash c then Continue depth Escaped
      else Continue depth InString
  | Plain =>
      if is_quote c then Continue depth InString
      else if is_opener c then Continue (S depth) Plain
      else if is_closer c then
        match depth with 0 => Close | S d => Continue d Plain end
      else if bool_decide (c = ","%char) then
        match depth with 0 => Comma | S _ => Continue depth Plain end
      else Continue depth Plain
  end.

Fixpoint all_space (s : string) : bool :=
  match s with
  | EmptyString => true
  | String c s' => is_space c && all_space s'
  end.

(** The elements after the opening bracket; [acc] is the element being
    read, [first] tells whether it is the first one. *)
Fixpoint elements (depth : nat) (m : Mode) (first : bool) (acc s : string)
  : option (list string) :=
  match s with
  | EmptyString => None
  | String c s' =>
      match step depth m c with
      | Continue d' m' => elements d' m' first (acc +:+ String c "") s'
      | Comma =>
          if bool_decide (acc = "") then None
          else cons acc <$> elements 0 Plain false "" s'
      | Close =>
          if bool_decide (c = "]"%char) && all_space s' then
            if bool_decide (acc = "")
            then (if first then Some [] else None)
            else Some [acc]
          else None
      end
  end.

Definition decodeArray (s : string) : option (list string) :=
  match s with
  | String "[" body => elements 0 Plain true "" body
  | _ => None
  end.

(** Where the scan of [s] from [(depth, m)] ends, when it meets neither a
    comma nor a closing bracket of depth 0. *)
Fixpoint scan (depth : nat) (m : Mode) (s : string) : option (nat * Mode) :=
  match s with
  | EmptyString => Some (depth, m)
  | String c s' =>
      match step depth m c with
      | Continue d' m' => scan d' m' s'
      | _ => None
      end
  end.

(** A text that reads back as one array element. *)
Definition isElement (s : string) : bool :=
  bool_decide (s ≠ "" ∧ scan 0 Plain s = Some (0, Plain)).

(** The text of a JSON array with the given element texts, as the engine
    lays it out. *)
Definition arrayText (es : list string) : string :=
  "[" +:+ Text.join SEPARATOR es +:+ TERMINATOR.

(** Every file the engine has opened, decoded, in the order of opening. *)
Definition decodeFiles (w : World) : option (list (list string)) :=
  mapM (λ p, disk w !! p ≫= decodeArray) (getFilePaths (this w)).

(** The elements of all the files, concatenated in file order. *)
Definition readBack (w : World) : option (list string) :=
  match decodeFiles w with
  | Some groups => Some (concat groups)
  | None => None
  end.

(** ** Items as the claims speak of them *)

(** Does the configured validator, if any, let the chunk through? *)
Definition passes (cfg : Config) (chunk : Chunk) : bool :=
  match itemValidationSchema cfg with
  | Some schema => bool_decide (validateChunk schema chunk = None)
  | None => true
  end.

(** The on-disk text of a chunk: Buffers and strings as they are, other
    values by [JSON.stringify]; [None] when that throws. *)
Definition encode (chunk : Chunk) : option string :=
  match chunk with
  | Buf b => Some b
  | Str s => Some s
  | Val j _ => j
  end.

(** The texts of the chunks that pass validation and encoding, in order. *)
Definition accepted (cfg : Config) (chunks : list Chunk) : list string :=
  omap (λ c, if passes cfg c then encode c else None) chunks.

(** A valid item: it passes validation, it encodes, and its text is one
    JSON array element. *)
Definition validItem (cfg : Config) (chunk : Chunk) : Prop :=
  passes cfg chunk = true ∧ ∃ t, encode chunk = Some t ∧ isElement t = true.

(** The configuration is one the constructor admits and whose key pattern,
    after trimming, still holds the [$$] token. *)
Fixpoint hasToken (pattern : string) : bool :=
  match pattern with
  | String "$" (String "$" _) => true
  | String _ rest => hasToken rest
  | EmptyString => false
  end.

Definition wellFormed (args : Config) : Prop :=
  1 ≤ maxItems args
  ∧ ¬ (append args = true ∧ overwrite args = true)
  ∧ hasToken (trimKeyPattern (file args)) = true.

(** The path of the file with index [i]. *)
Definition pathOf (f : FileConfig) (i : nat) : string :=
  path_join (folder f) (generateKey f i).

(** ** Reachable states *)

(** The states of an engine's life: construction from a configuration that
    the validator admits ([maxItems >= 1]), writes while the engine is live,
    finalization.  Finalization ends the life: no write step follows it. *)
Inductive reachable : World → Prop :=
| reach_new args d w :
    1 ≤ maxItems args →
    new_ArrayStream args d = Built w →
    reachable w
| reach_write w chunk w' cbs :
    reachable w →
    destroyed (this w) = false →
    _write chunk w = Some (w', cbs) →
    reachable w'
| reach_final w w' :
    reachable w →
    _final w = Some w' →
    reachable w'.

(** * Definitions used to state and prove the properties *)

(** Reading a run of decimal digits back as a number. *)
Fixpoint parseDec (acc : nat) (s : string) : nat :=
  match s with
  | EmptyString => acc
  | String c s' => parseDec (10 * acc + (nat_of_ascii c - 48)) s'
  end.

(** The engine after the name search, before the stream is opened. *)
Definition searched (w : World) (a : ArrayStream) : Prop :=
  if negb (append (config (this w))) && negb (overwrite (config (this w)))
  then ∃ k, a = Nat.iter k incrementKey (this w)
            ∧ disk w !! filePath a = None
            ∧ ∀ j, j < k →
                is_Some (disk w !! filePath (Nat.iter j incrementKey (this w)))
  else a = this w.

(** The number of item writes on each stream the engine has opened. *)
Definition tally (w : World) : list nat := length <$> ledger w.

Definition bump_last (l : list nat) : list nat :=
  match reverse l with
  | n :: r => reverse (S n :: r)
  | [] => []
  end.

(** The ledger is empty before the first open; afterwards the last stream
    has had as many item writes as the current count says, and every earlier
    one [maxItems]. *)
Definition ledgerOK (w : World) : Prop :=
  (tally w = [] ∧ files (this w) = [] ∧ count (this w) = 0
   ∧ outstream (this w) = None)
  ∨ ∃ pre, tally w = pre ++ [count (this w)]
           ∧ Forall (λ n, n = maxItems (config (this w))) pre
           ∧ length (files (this w)) = S (length pre).

(** The open stream points into its file. *)
Definition streamOK (w : World) : Prop :=
  ∀ h, outstream (this w) = Some h →
       ∃ content, disk w !! path h = Some content
                  ∧ pos h ≤ String.length content.

Record inv (w : World) : Prop := Inv {
  inv_max : 1 ≤ maxItems (config (this w));
  inv_count : count (this w) ≤ maxItems (config (this w));
  inv_ledger : ledgerOK w;
  inv_stream : streamOK w;
  inv_unopened :
    destroyed (this w) = false → outstream (this w) = None →
    tally w = [] ∧ files (this w) = [] ∧ count (this w) = 0
    ∧ lazy (config (this w)) = true;
}.

(** The file of the open stream holds, after what it held when the stream
    was opened, the data of the item writes made on the stream, in order; a
    file the engine created holds the opening bracket before them, and the
    stream stands at its end. *)
Definition currentOK (w : World) : Prop :=
  ∀ h, outstream (this w) = Some h →
    ∃ base log,
      last (ledger w) = Some log
      ∧ disk w !! path h = Some (base +:+ Text.join "" log)
      ∧ (flags h = flags_w →
         base = "[" ∧ pos h = String.length (base +:+ Text.join "" log)).

(** Every file the engine has closed holds, after what it held when its
    stream was opened, the data of the item writes made on that stream and
    then the closing bracket and newline.  The closed files are all the
    listed ones but the last, and the last one too once the engine holds no
    stream. *)
Definition closedOK (w : World) : Prop :=
  ∀ i p log,
    files (this w) !! i = Some p → ledger w !! i = Some log →
    i + 1 < length (files (this w)) ∨ outstream (this w) = None →
    ∃ base, disk w !! p = Some (base +:+ Text.join "" log +:+ TERMINATOR).

(** A configuration and a run used to exercise the statements below:
    files [out/data_0000.json], [out/data_0001.json], ..., two items per
    file, no validator. *)
Definition demoConfig : Config :=
  {| file := {| folder := "out"; keyPattern := "data_$$"; fileType := "json";
                numDigits := 4 |};
     maxItems := 2; itemValidationSchema := None;
     overwrite := false; lazy := true; append := false |}.

Definition num (text : string) : Chunk := Val (Some text) (Some text).

(** The engine of [cfg] over the directory [d] after the writes of [cs]. *)
Definition demoRun (cfg : Config) (d : gmap string string) (cs : list Chunk)
  : option World :=
  match new_ArrayStream cfg d with
  | Built w => fst <$> writeAll cs w
  | _ => None
  end.

Definition demoWorld3 : World :=
  default {| this := {| config := demoConfig; sep := ""; count := 0;
                        fileCount := 0; files := []; key := "";
                        destroyed := false; outstream := None |};
             disk := ∅; ledger := [] |}
    (demoRun demoConfig ∅ [num "1"; num "2"; num "3"]).

Definition resumeWorld (content : string) : World :=
  {| this := incrementKey
               {| config := {| file := file demoConfig; maxItems := 2;
                               itemValidationSchema := None;
                               overwrite := false; lazy := true;
                               append := true |};
                  sep := ""; count := 0; fileCount := 0; files := [];
                  key := ""; destroyed := false; outstream := None |};
     disk := {[ "out/data_0000.json" := content ]};
     ledger := [] |}.

(** The configuration the constructor stores. *)
Definition trimmed (args : Config) : Config :=
  set_keyPattern (trimKeyPattern (file args)) args.

Definition twoFiles : gmap string string :=
  {[ "out/data_0000.json" := "[7]"; "out/data_0001.json" := "[8]" ]}.

(** An item that [JSON.stringify] rejects: an object that refers to
    itself.  String concatenation turns it into [[object Object]]. *)
Definition cyclic : Chunk := Val None (Some "[object Object]").

(** The engine of [demoConfig] over an empty directory, one item written. *)
Definition demoWorld1 : World :=
  default {| this := {| config := demoConfig; sep := ""; count := 0;
                        fileCount := 0; files := []; key := "";
                        destroyed := false; outstream := None |};
             disk := ∅; ledger := [] |}
    (demoRun demoConfig ∅ [num "1"]).

(** The validator of the reference usage: items must be objects. *)
Definition objectSchema : Chunk → option string :=
  λ c, match c with
       | Val _ _ => None
       | _ => Some "value must be of type object"
       end.

Definition validatedConfig : Config :=
  {| file := file demoConfig; maxItems := 2;
     itemValidationSchema := Some objectSchema;
     overwrite := false; lazy := true; append := false |}.

Definition validatedWorld1 : World :=
  default demoWorld1 (demoRun validatedConfig ∅ [num "1"]).

(** C10 as the claim states it: the first write of a lazy engine leaves a
    file that holds the opening bracket and nothing else. *)
Definition first_write_leaves_bracket
  (args : Config) (d : gmap string string) (bad : Chunk) : Prop :=
  ∃ w0 w1 cbs p,
    new_ArrayStream args d = Built w0
    ∧ _write bad w0 = Some (w1, cbs)
    ∧ getFilePaths (this w1) = [p]
    ∧ disk w1 !! p = Some "[".

(** A lazy engine with the validator and the append policy, and a
    directory that holds the one-element array [[1]] at index 0. *)
Definition appendConfig : Config :=
  {| file := file demoConfig; maxItems := 2;
     itemValidationSchema := Some objectSchema;
     overwrite := false; lazy := true; append := true |}.

Definition oneArray : gmap string string :=
  {[ "out/data_0000.json" := "[1]" +:+ newline ]}.

(** The engine has not opened a file yet, and the directory is empty. *)
Definition unopened (cfg : Config) (w : World) : Prop :=
  config (this w) = cfg ∧ destroyed (this w) = false
  ∧ files (this w) = [] ∧ fileCount (this w) = 1
  ∧ key (this w) = generateKey (file cfg) 0
  ∧ count (this w) = 0 ∧ outstream (this w) = None
  ∧ disk w = ∅.

(** The engine has filled the files of indices [0 .. length full - 1] with
    the lists of [full], [maxItems] texts each, and has written the texts of
    [cur] to the open file of index [length full]. *)
Definition laidOut (cfg : Config) (w : World) (full : list (list string))
  (cur : list string) : Prop :=
  config (this w) = cfg ∧ destroyed (this w) = false
  ∧ Forall (λ l, length l = maxItems cfg) full
  ∧ length cur ≤ maxItems cfg
  ∧ (full = [] ∨ cur ≠ [])
  ∧ files (this w) = pathOf (file cfg) <$> seq 0 (S (length full))
  ∧ fileCount (this w) = S (length full)
  ∧ key (this w) = generateKey (file cfg) (length full)
  ∧ count (this w) = length cur
  ∧ sep (this w) = (if cur is [] then "" else SEPARATOR)
  ∧ outstream (this w)
    = Some {| path := pathOf (file cfg) (length full);
              pos := String.length ("[" +:+ Text.join SEPARATOR cur);
              flags := flags_w |}
  ∧ (∀ i l, full !! i = Some l →
            disk w !! pathOf (file cfg) i = Some (arrayText l))
  ∧ disk w !! pathOf (file cfg) (length full)
    = Some ("[" +:+ Text.join SEPARATOR cur)
  ∧ (∀ p, is_Some (disk w !! p) →
          ∃ i, i ≤ length full ∧ p = pathOf (file cfg) i).

(** How far a run has come: [xs] are the texts written so far. *)
Definition progress (cfg : Config) (w : World) (xs : list string) : Prop :=
  (unopened cfg w ∧ lazy cfg = true ∧ xs = [])
  ∨ ∃ full cur, laidOut cfg w full cur ∧ concat full ++ cur = xs.

(** C1 as the claim states it, for any items. *)
Definition round_trip (args : Config) (cs : list Chunk) : Prop :=
  ∃ w0 w1 cbss w2,
    new_ArrayStream args ∅ = Built w0
    ∧ writeAll cs w0 = Some (w1, cbss)
    ∧ _final w1 = Some w2
    ∧ readBack w2 = Some (accepted (trimmed args) cs).

(** The run of the repository's test: ten items per file, 25 objects
    [{"index": i}], one string that the schema rejects, 25 more objects. *)
Definition quote : string := String (ascii_of_nat 34) "".

Definition indexText (i : nat) : string :=
  "{" +:+ quote +:+ "index" +:+ quote +:+ ":" +:+ pretty i +:+ "}".

Definition indexItem (i : nat) : Chunk :=
  Val (Some (indexText i)) (Some "[object Object]").

Definition referenceConfig : Config :=
  {| file := {| folder := "output"; keyPattern := "testFile_$$";
                fileType := "json"; numDigits := 4 |};
     maxItems := 10; itemValidationSchema := Some objectSchema;
     overwrite := false; lazy := true; append := false |}.

Definition referenceItems : list Chunk :=
  (indexItem <$> seq 0 25) ++ [Str "I will not pass validation!"]
  ++ (indexItem <$> seq 25 25).

Definition referenceRun : option (World * list (list Callback)) :=
  match new_ArrayStream referenceConfig ∅ with
  | Built w0 =>
      match writeAll referenceItems w0 with
      | Some (w1, cbss) =>
          match _final w1 with Some w2 => Some (w2, cbss) | None => None end
      | None => None
      end
  | _ => None
  end.

(** ** The rest of the engine's interface *)

(** [closeArrayStream]: nothing to do on a finalized engine; otherwise
    [this.end()], on which the stream base class runs [_final]. *)
Definition closeArrayStream (w : World) : option World :=
  if destroyed (this w) then Some w else _final w.

(** The character [$] does not occur in the text. *)
Fixpoint noDollar (s : string) : bool :=
  match s with
  | EmptyString => true
  | String c s' => negb (bool_decide (c = "$"%char)) && noDollar s'
  end.

(** No file of the directory [d] has been touched: each still holds what it
    held, is not among the files the engine has opened, and is not the file
    of the open stream. *)
Definition untouched (d : gmap string string) (w : World) : Prop :=
  ∀ p, is_Some (d !! p) →
       (disk w !! p = d !! p)
       ∧ (p ∉ files (this w))
       ∧ (∀ h, outstream (this w) = Some h → path h ≠ p).

(** A finalized engine holds no stream, and an open stream is the stream of
    the file opened last. *)
Definition handleOK (w : World) : Prop :=
  (destroyed (this w) = true → outstream (this w) = None)
  ∧ ∀ h, outstream (this w) = Some h → last (files (this w)) = Some (path h).

(** The configuration of the examples with a file opened at construction,
    and with the overwrite policy. *)
Definition eagerConfig : Config :=
  {| file := file demoConfig; maxItems := 2; itemValidationSchema := None;
     overwrite := false; lazy := false; append := false |}.

Definition overwriteConfig : Config :=
  {| file := file demoConfig; maxItems := 2; itemValidationSchema := None;
     overwrite := true; lazy := true; append := false |}.

(** The same configuration, engine and state with another [lazy] flag. *)
Definition with_lazy (b : bool) (c : Config) : Config :=
  {| file := file c; maxItems := maxItems c;
     itemValidationSchema := itemValidationSchema c;
     overwrite := overwrite c; lazy := b; append := append c |}.

Definition relazy_engine (b : bool) (a : ArrayStream) : ArrayStream :=
  {| config := with_lazy b (config a); sep := sep a; count := count a;
     fileCount := fileCount a; files := files a; key := key a;
     destroyed := destroyed a; outstream := outstream a |}.

Definition relazy (b : bool) (w : World) : World := on_this (relazy_engine b) w.

(** The names the engine has used: the current key is the name of index
    [fileCount - 1], and the opened files are those of a strictly increasing
    list of indices below [fileCount]. *)
Definition namesOK (w : World) : Prop :=
  1 ≤ fileCount (this w)
  ∧ key (this w)
    = generateKey (file (config (this w))) (fileCount (this w) - 1)
  ∧ ∃ idxs, files (this w) = pathOf (file (config (this w))) <$> idxs
            ∧ (∀ i j m n, idxs !! i = Some m → idxs !! j = Some n →
                          i < j → m < n)
            ∧ Forall (λ i, i < fileCount (this w)) idxs.

(** * Byte-string facts *)

Section text_facts.
Implicit Types s t u : string.

Lemma append_nil_l s : "" +:+ s = s.
Proof. reflexivity. Qed.

Lemma append_cons c s t : String c s +:+ t = String c (s +:+ t).
Proof. reflexivity. Qed.

Lemma append_nil_r s : s +:+ "" = s.
Proof. induction s as [|c s IH]; rewrite ?append_cons, ?append_nil_l; congruence. Qed.

Lemma append_assoc s t u : (s +:+ t) +:+ u = s +:+ (t +:+ u).
Proof. induction s as [|c s IH]; rewrite ?append_cons, ?append_nil_l; congruence. Qed.

Lemma length_append s t :
  String.length (s +:+ t) = String.length s + String.length t.
Proof.
  induction s as [|c s IH]; rewrite ?append_cons, ?append_nil_l; simpl;
    congruence.
Qed.

Lemma append_snoc s c t : (s +:+ String c "") +:+ t = s +:+ String c t.
Proof. by rewrite append_assoc. Qed.

Lemma take_append s t : Text.take (String.length s) (s +:+ t) = s.
Proof.
  induction s as [|c s IH]; rewrite ?append_cons, ?append_nil_l; simpl;
    [by destruct t | congruence].
Qed.

Lemma take_all s : Text.take (String.length s) s = s.
Proof. by rewrite <-(append_nil_r s) at 2; rewrite take_append. Qed.

Lemma drop_append s t n :
  Text.drop (String.length s + n) (s +:+ t) = Text.drop n t.
Proof.
  induction s as [|c s IH]; rewrite ?append_cons, ?append_nil_l; simpl; auto.
Qed.

Lemma drop_beyond s n : String.length s ≤ n → Text.drop n s = "".
Proof.
  revert n; induction s as [|c s IH]; intros [|n] Hn; simpl in *;
    try done; try lia.
  apply IH; lia.
Qed.

Lemma pwrite_at_end s t :
  Text.pwrite s (String.length s) t = s +:+ t.
Proof.
  unfold Text.pwrite. rewrite take_all, drop_beyond by lia.
  by rewrite append_nil_r.
Qed.

Lemma pwrite_over s tail t :
  Text.pwrite (s +:+ tail) (String.length s) t
  = s +:+ t +:+ Text.drop (String.length t) tail.
Proof. unfold Text.pwrite. by rewrite take_append, drop_append. Qed.

Lemma append_inv_tail s t u : s +:+ u = t +:+ u → s = t.
Proof.
  revert t; induction s as [|c s IH]; intros [|c' t] H;
    rewrite ?append_cons, ?append_nil_l in H.
  - done.
  - apply (f_equal String.length) in H. simpl in H.
    rewrite length_append in H. lia.
  - apply (f_equal String.length) in H. simpl in H.
    rewrite length_append in H. lia.
  - injection H as -> H. f_equal. by apply IH.
Qed.

Lemma append_inv_head s t u : s +:+ t = s +:+ u → t = u.
Proof.
  induction s as [|c s IH]; rewrite ?append_cons, ?append_nil_l; [done|].
  intros [= H]. auto.
Qed.

Lemma get_append_r s t n :
  String.get (String.length s + n) (s +:+ t) = String.get n t.
Proof.
  induction s as [|c s IH]; rewrite ?append_cons, ?append_nil_l; simpl; auto.
Qed.

Lemma join_snoc sp (l : list string) t :
  Text.join sp (l ++ [t])
  = match l with [] => t | _ => Text.join sp l +:+ sp +:+ t end.
Proof.
  induction l as [|a l IH]; [done|].
  destruct l as [|b l]; [done|].
  change (Text.join sp ((a :: b :: l) ++ [t]))
    with (a +:+ sp +:+ Text.join sp ((b :: l) ++ [t])).
  rewrite IH.
  change (Text.join sp (a :: b :: l)) with (a +:+ sp +:+ Text.join sp (b :: l)).
  by rewrite !append_assoc.
Qed.

End text_facts.

(** * Decoding what the engine lays out *)

Lemma TERMINATOR_unfold : TERMINATOR = String "]" newline.
Proof. reflexivity. Qed.

Lemma elements_scan e : ∀ d m d' m' first acc rest,
  scan d m e = Some (d', m') →
  elements d m first acc (e +:+ rest) = elements d' m' first (acc +:+ e) rest.
Proof.
  induction e as [|c e IH]; intros d m d' m' first acc rest Hscan.
  - injection Hscan as <- <-. by rewrite append_nil_l, append_nil_r.
  - rewrite append_cons. simpl in Hscan |- *.
    destruct (step d m c) as [d1 m1| |]; try done.
    rewrite (IH _ _ _ _ first (acc +:+ String c "") rest Hscan).
    by rewrite append_snoc.
Qed.

Lemma isElement_spec e :
  isElement e = true ↔ e ≠ "" ∧ scan 0 Plain e = Some (0, Plain).
Proof. unfold isElement. by rewrite bool_decide_eq_true. Qed.

Lemma elements_closing first e :
  e ≠ "" →
  elements 0 Plain first e TERMINATOR = Some [e].
Proof.
  intros He. rewrite TERMINATOR_unfold. simpl.
  by rewrite bool_decide_eq_false_2.
Qed.

Lemma elements_join es : ∀ first,
  es ≠ [] →
  Forall (λ e, isElement e = true) es →
  elements 0 Plain first "" (Text.join SEPARATOR es +:+ TERMINATOR) = Some es.
Proof.
  induction es as [|e es IH]; intros first Hne Hall; [done|].
  apply Forall_cons in Hall as [[He Hscan]%isElement_spec Hall].
  destruct es as [|e' es].
  - simpl. rewrite (elements_scan e _ _ _ _ _ _ _ Hscan), append_nil_l.
    by apply elements_closing.
  - change (Text.join SEPARATOR (e :: e' :: es))
      with (e +:+ SEPARATOR +:+ Text.join SEPARATOR (e' :: es)).
    rewrite append_assoc.
    rewrite (elements_scan e _ _ _ _ _ _ _ Hscan), append_nil_l.
    rewrite append_assoc. unfold SEPARATOR at 1.
    rewrite append_cons, append_nil_l.
    change (elements 0 Plain first e (String "," ?s))
      with (if bool_decide (e = "") then None
            else cons e <$> elements 0 Plain false "" s).
    rewrite bool_decide_eq_false_2 by done.
    by rewrite IH.
Qed.

Lemma decodeArray_arrayText es :
  Forall (λ e, isElement e = true) es →
  decodeArray (arrayText es) = Some es.
Proof.
  intros Hall. unfold arrayText. rewrite append_cons, append_nil_l.
  unfold decodeArray. destruct es as [|e es].
  - reflexivity.
  - by apply elements_join.
Qed.

(** * File names are distinct *)

Lemma digit_value (x : N) :
  (x < 10)%N → nat_of_ascii (pretty_N_char x) - 48 = N.to_nat x.
Proof.
  intros Hx.
  assert (x = 0 ∨ x = 1 ∨ x = 2 ∨ x = 3 ∨ x = 4 ∨ x = 5 ∨ x = 6 ∨ x = 7
          ∨ x = 8 ∨ x = 9)%N as Hcases by lia.
  repeat (destruct Hcases as [->|Hcases]; [reflexivity|]).
  by subst.
Qed.

Lemma parseDec_pretty_N_go (x : N) : ∀ s,
  parseDec 0 (pretty_N_go x s) = parseDec (N.to_nat x) s.
Proof.
  induction (N.lt_wf_0 x) as [x _ IH]; intros s.
  destruct (decide (x = 0)%N) as [->|Hx]; [done|].
  rewrite pretty_N_go_step by lia.
  rewrite IH by (apply N.div_lt; lia).
  simpl parseDec at 1. f_equal.
  rewrite digit_value by (apply N.mod_lt; lia).
  pose proof (N.div_mod x 10). lia.
Qed.

Lemma parseDec_pretty (n : nat) : parseDec 0 (pretty n) = n.
Proof.
  unfold pretty, pretty_nat, pretty, pretty_N.
  case_decide as Hn.
  - simpl. lia.
  - rewrite parseDec_pretty_N_go. simpl. lia.
Qed.

Lemma parseDec_zeros k s :
  parseDec 0 (Text.replicate k "0" +:+ s) = parseDec 0 s.
Proof.
  induction k as [|k IH]; [done|].
  simpl Text.replicate. by rewrite append_cons.
Qed.

Lemma padStart_inj w (i j : nat) :
  Text.padStart (pretty i) w "0" = Text.padStart (pretty j) w "0" → i = j.
Proof.
  intros H. apply (f_equal (parseDec 0)) in H. unfold Text.padStart in H.
  by rewrite !parseDec_zeros, !parseDec_pretty in H.
Qed.

Lemma replaceToken_split p :
  hasToken p = true →
  ∃ pre post, ∀ r, replaceToken p r = pre +:+ r +:+ post.
Proof.
  induction p as [|c p IH]; [done|]. intros H.
  destruct (decide (c = "$"%char)) as [->|Hc].
  - destruct p as [|c' p].
    + done.
    + destruct (decide (c' = "$"%char)) as [->|Hc'].
      * exists "", p. intros r. reflexivity.
      * assert (hasToken (String c' p) = true) as H'.
        { revert H. simpl. destruct c' as [[] [] [] [] [] [] [] []]; try done. }
        destruct (IH H') as (pre & post & Hsplit).
        exists (String "$" pre), post. intros r.
        rewrite append_cons, <-Hsplit.
        revert Hc'. destruct c' as [[] [] [] [] [] [] [] []]; try done.
  - assert (hasToken p = true) as H'.
    { revert H Hc. simpl. destruct c as [[] [] [] [] [] [] [] []]; try done;
        destruct p; done. }
    destruct (IH H') as (pre & post & Hsplit).
    exists (String c pre), post. intros r.
    rewrite append_cons, <-Hsplit.
    revert Hc. destruct c as [[] [] [] [] [] [] [] []]; try done;
      destruct p; done.
Qed.

Lemma generateKey_inj f (i j : nat) :
  hasToken (keyPattern f) = true →
  generateKey f i = generateKey f j → i = j.
Proof.
  intros Htok H. unfold generateKey in H.
  destruct (replaceToken_split _ Htok) as (pre & post & Hsplit).
  rewrite !Hsplit, !append_assoc in H.
  apply append_inv_head, append_inv_tail in H.
  by apply padStart_inj in H.
Qed.

Lemma pathOf_inj f (i j : nat) :
  hasToken (keyPattern f) = true →
  pathOf f i = pathOf f j → i = j.
Proof.
  intros Htok H. unfold pathOf, path_join in H.
  apply append_inv_head, append_inv_head in H.
  by apply generateKey_inj in H.
Qed.

(** * The search for a free name *)

Lemma incrementKey_config a : config (incrementKey a) = config a.
Proof. reflexivity. Qed.

Lemma iter_incrementKey_config k a :
  config (Nat.iter k incrementKey a) = config a.
Proof. induction k as [|k IH]; [done|]. simpl. exact IH. Qed.

Lemma iter_incrementKey_fileCount k a :
  fileCount (Nat.iter k incrementKey a) = fileCount a + k.
Proof. induction k as [|k IH]; simpl; [lia|]. rewrite IH. lia. Qed.

Lemma iter_incrementKey_filePath k a :
  filePath (Nat.iter (S k) incrementKey a)
  = pathOf (file (config a)) (fileCount a + k).
Proof.
  simpl. unfold filePath, pathOf. simpl.
  by rewrite iter_incrementKey_config, iter_incrementKey_fileCount.
Qed.

Lemma findFreeKey_Some fuel d : ∀ a a',
  findFreeKey fuel d a = Some a' →
  ∃ k, a' = Nat.iter k incrementKey a
       ∧ d !! filePath a' = None
       ∧ ∀ j, j < k → is_Some (d !! filePath (Nat.iter j incrementKey a)).
Proof.
  induction fuel as [|fuel IH]; intros a a' H; [done|]. simpl in H.
  destruct (d !! filePath a) as [c|] eqn:Hlook.
  - destruct (IH _ _ H) as (k & -> & Hfree & Hbusy).
    exists (S k). rewrite Nat.iter_succ_r. split_and!; [done|done|].
    intros [|j] Hj; [by simpl; rewrite Hlook|].
    rewrite Nat.iter_succ_r. apply Hbusy. lia.
  - injection H as <-. exists 0. split_and!; [done|done|]. intros j Hj. lia.
Qed.

Lemma findFreeKey_None fuel d : ∀ a,
  findFreeKey fuel d a = None →
  ∀ j, j < fuel → is_Some (d !! filePath (Nat.iter j incrementKey a)).
Proof.
  induction fuel as [|fuel IH]; intros a H j Hj; [lia|]. simpl in H.
  destruct (d !! filePath a) as [c|] eqn:Hlook; [|done].
  destruct j as [|j]; [by simpl; rewrite Hlook|].
  rewrite Nat.iter_succ_r. apply IH; [done|lia].
Qed.

Lemma findFreeKey_free fuel d a :
  0 < fuel → d !! filePath a = None → findFreeKey fuel d a = Some a.
Proof. destruct fuel; [lia|]. intros _ H. simpl. by rewrite H. Qed.

(** With the [$$] token in the pattern the search ends: the generated names
    are pairwise distinct, and the disk holds finitely many files. *)
Lemma findFreeKey_total (d : gmap string string) a :
  hasToken (keyPattern (file (config a))) = true →
  is_Some (findFreeKey (size d + 2) d a).
Proof.
  intros Htok.
  destruct (findFreeKey (size d + 2) d a) as [a'|] eqn:H; [by eexists|].
  exfalso.
  pose proof (findFreeKey_None _ _ _ H) as Hbusy.
  set (l := (λ i, pathOf (file (config a)) (fileCount a + i)) <$> seq 0 (S (size d))).
  assert (NoDup l) as Hnd.
  { apply NoDup_fmap_2; [|apply NoDup_seq].
    intros i j Hij. apply pathOf_inj in Hij; [lia|done]. }
  assert (list_to_set l ⊆ dom d) as Hsub.
  { intros p [i [-> Hi%elem_of_seq]]%elem_of_list_to_set%list_elem_of_fmap.
    apply elem_of_dom. rewrite <-iter_incrementKey_filePath.
    apply Hbusy. lia. }
  apply subseteq_size in Hsub.
  rewrite size_list_to_set, size_dom in Hsub by done.
  unfold l in Hsub. rewrite length_fmap, length_seq in Hsub. lia.
Qed.

(** * Opening a file: what changes and what does not *)

Lemma openOverwrite_eq p w :
  openOverwrite p w
  = {| this := set_sep "" (set_outstream (Some {| path := p; pos := 1; flags := flags_w |}) (this w));
       disk := <[p := "["]> (disk w);
       ledger := ledger w |}.
Proof.
  unfold openOverwrite, createWriteStream, stream_write, on_this, set_disk.
  simpl. rewrite lookup_insert_eq, insert_insert_eq. reflexivity.
Qed.

Lemma searched_frame w a :
  searched w a →
  config a = config (this w) ∧ count a = count (this w)
  ∧ destroyed a = destroyed (this w) ∧ files a = files (this w)
  ∧ sep a = sep (this w) ∧ outstream a = outstream (this w).
Proof.
  unfold searched. destruct (_ && _).
  - intros (k & -> & _). clear. induction k as [|k IH]; [done|].
    simpl. exact IH.
  - by intros ->.
Qed.

Lemma tally_snoc (l : list (list string)) :
  length <$> (l ++ [[]]) = (length <$> l) ++ [0].
Proof. by rewrite fmap_app. Qed.

Lemma openOutstream_inv w w' :
  openOutstream w = Some w' →
  ∃ a, searched w a
    ∧ files (this w') = files (this w) ++ [filePath a]
    ∧ tally w' = tally w ++ [0]
    ∧ config (this w') = config (this w)
    ∧ count (this w') = count (this w)
    ∧ destroyed (this w') = destroyed (this w)
    ∧ fileCount (this w') = fileCount a
    ∧ key (this w') = key a
    ∧ ∃ h content,
        outstream (this w') = Some h ∧ path h = filePath a
        ∧ disk w' !! path h = Some content ∧ pos h ≤ String.length content.
Proof.
  unfold openOutstream. intros H.
  destruct (if negb (append (config (this w))) && negb (overwrite (config (this w)))
            then findFreeKey (size (disk w) + 2) (disk w) (this w)
            else Some (this w)) as [a|] eqn:Ha; [|done].
  simpl in H. injection H as <-.
  assert (searched w a) as Hs.
  { unfold searched. destruct (_ && _).
    - by apply findFreeKey_Some in Ha.
    - by injection Ha as <-. }
  exists a. split; [done|].
  destruct (searched_frame _ _ Hs) as (Hc & Hn & Hd & Hf & _).
  rewrite <-Hc, <-Hn, <-Hd, <-Hf. unfold tally.
  assert (∀ w1 : World,
    this w1 = set_files (files a ++ [filePath a]) a →
    ledger w1 = ledger w ++ [[]] →
    let w2 := openOverwrite (filePath a) w1 in
    files (this w2) = files a ++ [filePath a]
    ∧ length <$> ledger w2 = (length <$> ledger w) ++ [0]
    ∧ config (this w2) = config a ∧ count (this w2) = count a
    ∧ destroyed (this w2) = destroyed a ∧ fileCount (this w2) = fileCount a
    ∧ key (this w2) = key a
    ∧ ∃ h content,
        outstream (this w2) = Some h ∧ path h = filePath a
        ∧ disk w2 !! path h = Some content ∧ pos h ≤ String.length content)
    as Hover.
  { intros w1 Hthis Hledger. rewrite openOverwrite_eq. cbn [this disk ledger].
    rewrite Hthis, Hledger, tally_snoc.
    simpl. split_and!; try done.
    exists {| path := filePath a; pos := 1; flags := flags_w |}, "[". simpl.
    by rewrite lookup_insert_eq. }
  destruct (overwrite (config a)); [by apply Hover|].
  destruct (disk w !! filePath a) as [content|] eqn:Hlook; [|by apply Hover].
  case_bool_decide; [by apply Hover|].
  cbn [createWriteStreamAt on_this this disk ledger]. rewrite tally_snoc.
  simpl. split_and!; try done.
  eexists _, content. simpl. split_and!; try done. simpl. lia.
Qed.

Lemma openOutstream_total w :
  hasToken (keyPattern (file (config (this w)))) = true →
  is_Some (openOutstream w).
Proof.
  intros Htok. unfold openOutstream.
  destruct (negb _ && negb _).
  - destruct (findFreeKey_total (disk w) (this w) Htok) as [a ->]. by eexists.
  - by eexists.
Qed.

(** Opening at a path where the disk holds nothing: a new file that starts
    with the bracket, whatever the policy. *)
Lemma openOutstream_fresh w :
  disk w !! filePath (this w) = None →
  openOutstream w
  = Some {| this := set_sep ""
              (set_outstream (Some {| path := filePath (this w); pos := 1; flags := flags_w |})
                 (set_files (files (this w) ++ [filePath (this w)]) (this w)));
            disk := <[filePath (this w) := "["]> (disk w);
            ledger := ledger w ++ [[]] |}.
Proof.
  intros Hfree. unfold openOutstream.
  rewrite findFreeKey_free by (done || lia).
  assert ((if negb (append (config (this w))) && negb (overwrite (config (this w)))
           then Some (this w) else Some (this w)) = Some (this w)) as ->
    by (by destruct (_ && _)).
  simpl. rewrite Hfree. f_equal.
  destruct (overwrite _); by rewrite openOverwrite_eq.
Qed.

(** * The counting invariant *)

Lemma length_text_take s n : n ≤ String.length s → String.length (Text.take n s) = n.
Proof.
  revert n; induction s as [|c s IH]; intros [|n] Hn; simpl in *; try lia.
  rewrite IH; lia.
Qed.

Lemma length_pwrite content p data :
  p ≤ String.length content →
  p + String.length data ≤ String.length (Text.pwrite content p data).
Proof.
  intros Hp. unfold Text.pwrite.
  rewrite !length_append, length_text_take by done. lia.
Qed.

Lemma length_landing h content data :
  pos h ≤ String.length content →
  pos h + String.length data ≤ String.length (landing h content data).
Proof.
  intros Hp. unfold landing. destruct (flags h).
  - by apply length_pwrite.
  - rewrite length_append. lia.
Qed.

Lemma log_item_snoc pre log data :
  log_item data (pre ++ [log]) = pre ++ [log ++ [data]].
Proof.
  unfold log_item. rewrite reverse_snoc, reverse_cons.
  by rewrite reverse_involutive.
Qed.

Lemma bump_last_snoc pre n : bump_last (pre ++ [n]) = pre ++ [S n].
Proof.
  unfold bump_last. rewrite reverse_snoc, reverse_cons.
  by rewrite reverse_involutive.
Qed.

Lemma tally_log_item data l :
  length <$> log_item data l = bump_last (length <$> l).
Proof.
  destruct l as [|log l _] using rev_ind; [done|].
  rewrite log_item_snoc, !fmap_app. simpl.
  rewrite bump_last_snoc, length_app. simpl. do 2 f_equal. lia.
Qed.

Lemma streamOK_write w h data :
  streamOK w → outstream (this w) = Some h →
  streamOK (stream_write h data w).
Proof.
  intros Hs Hh h' Hh'. simpl in Hh'. injection Hh' as <-. simpl.
  destruct (Hs h Hh) as (content & Hlook & Hpos).
  rewrite lookup_insert_eq, Hlook. simpl.
  eexists. split; [done|]. by apply length_landing.
Qed.

Lemma inv_open w w' :
  1 ≤ maxItems (config (this w)) →
  count (this w) = 0 →
  (tally w = [] ∧ files (this w) = []
   ∨ ∃ pre, tally w = pre ++ [maxItems (config (this w))]
            ∧ Forall (λ n, n = maxItems (config (this w))) pre
            ∧ length (files (this w)) = S (length pre)) →
  openOutstream w = Some w' →
  inv w' ∧ count (this w') = 0 ∧ is_Some (outstream (this w'))
  ∧ config (this w') = config (this w)
  ∧ destroyed (this w') = destroyed (this w).
Proof.
  intros Hmax Hcount Hledger Hopen.
  destruct (openOutstream_inv _ _ Hopen)
    as (a & _ & Hf & Hl & Hc & Hn & Hd & _ & _ & h & content & Hh & _ & Hlook & Hpos).
  split_and!; [|congruence|by rewrite Hh|done|done].
  split.
  - by rewrite Hc.
  - rewrite Hn, Hc. lia.
  - right. rewrite Hc, Hn, Hcount, Hl, Hf, length_app. simpl.
    destruct Hledger as [[-> ->]|(pre & -> & Hall & Hlen)].
    + exists []. split_and!; by try constructor.
    + exists (pre ++ [maxItems (config (this w))]). split_and!; [done| |].
      * apply Forall_app. split; [done|]. by constructor.
      * rewrite Hlen, length_app. simpl. lia.
  - intros h' Hh'. rewrite Hh in Hh'. injection Hh' as <-. eauto.
  - intros _ Hnone. by rewrite Hh in Hnone.
Qed.

Lemma ledgerOK_open w h :
  ledgerOK w → outstream (this w) = Some h →
  ∃ pre, tally w = pre ++ [count (this w)]
         ∧ Forall (λ n, n = maxItems (config (this w))) pre
         ∧ length (files (this w)) = S (length pre).
Proof. intros [(_ & _ & _ & Hnone)|H] Hh; [congruence|done]. Qed.

Lemma writeItem_frame w h t :
  config (this (writeItem h t w)) = config (this w)
  ∧ count (this (writeItem h t w)) = count (this w) + 1
  ∧ files (this (writeItem h t w)) = files (this w)
  ∧ destroyed (this (writeItem h t w)) = destroyed (this w)
  ∧ tally (writeItem h t w) = bump_last (tally w)
  ∧ outstream (this (writeItem h t w))
    = Some {| path := path h;
              pos := pos h + String.length (sep (this w) +:+ t);
              flags := flags h |}
  ∧ disk (writeItem h t w)
    = <[path h := landing h (default "" (disk w !! path h))
                    (sep (this w) +:+ t)]> (disk w).
Proof.
  unfold writeItem, tally. case_bool_decide; cbn [ledger set_ledger];
    rewrite tally_log_item; simpl; done.
Qed.

Lemma writeItem_ledger w h t :
  ledger (writeItem h t w) = log_item (sep (this w) +:+ t) (ledger w).
Proof. unfold writeItem. by case_bool_decide. Qed.

Lemma inv_writeItem w h t :
  inv w → outstream (this w) = Some h →
  count (this w) < maxItems (config (this w)) →
  inv (writeItem h t w).
Proof.
  intros [Hmax Hcount Hledger Hstream Hunop] Hh Hlt.
  destruct (writeItem_frame w h t) as (Hc & Hn & Hf & Hd & Hl & Ho & Hdisk).
  destruct (ledgerOK_open _ _ Hledger Hh) as (pre & Hpre & Hall & Hlen).
  split.
  - by rewrite Hc.
  - rewrite Hc, Hn. lia.
  - right. exists pre. rewrite Hc, Hn, Hf, Hl, Hpre, bump_last_snoc.
    split_and!; [|done|done]. do 2 f_equal. lia.
  - intros h' Hh'. rewrite Ho in Hh'. injection Hh' as <-.
    rewrite Hdisk. simpl. rewrite lookup_insert_eq.
    destruct (Hstream h Hh) as (content & -> & Hpos). simpl.
    eexists. split; [done|]. by apply length_landing.
  - intros _. by rewrite Ho.
Qed.

(** The state in which the rotation of [_write] reopens. *)
Lemma inv_rotate w h w' :
  inv w → outstream (this w) = Some h →
  maxItems (config (this w)) ≤ count (this w) →
  resetOutstream false w = Some w' →
  inv w' ∧ count (this w') = 0 ∧ is_Some (outstream (this w'))
  ∧ config (this w') = config (this w)
  ∧ destroyed (this w') = destroyed (this w).
Proof.
  intros [Hmax Hcount Hledger Hstream Hunop] Hh Hge Hreset.
  unfold resetOutstream in Hreset. rewrite Hh in Hreset. simpl in Hreset.
  destruct (ledgerOK_open _ _ Hledger Hh) as (pre & Hpre & Hall & Hlen).
  apply inv_open in Hreset; simpl; [done|done|done|].
  right. exists pre. split_and!; [|done|done].
  change (tally w = pre ++ [maxItems (config (this w))]).
  rewrite Hpre. do 2 f_equal. lia.
Qed.

(** The first step of [_write]: after it a live engine has a stream. *)
Lemma lazy_open w w1 :
  inv w → destroyed (this w) = false →
  (if lazy (config (this w)) && negb (bool_decide (is_Some (outstream (this w))))
   then openOutstream w else Some w) = Some w1 →
  inv w1 ∧ destroyed (this w1) = false
  ∧ config (this w1) = config (this w)
  ∧ is_Some (outstream (this w1))
  ∧ count (this w1) = count (this w).
Proof.
  intros Hinv Hlive H.
  destruct (outstream (this w)) as [h|] eqn:Hh.
  - rewrite bool_decide_eq_true_2, andb_false_r in H by eauto.
    injection H as <-. rewrite Hh. eauto 10.
  - destruct (inv_unopened _ Hinv Hlive Hh) as (Hl & Hf & Hn & Hlazy).
    rewrite Hlazy, bool_decide_eq_false_2 in H by (by intros [??]).
    simpl in H. apply inv_open in H; [|by apply inv_max|done|by left].
    destruct H as (? & ? & ? & ? & ?). split_and!; congruence.
Qed.

Lemma _write_live w chunk w' cbs :
  inv w → destroyed (this w) = false →
  _write chunk w = Some (w', cbs) →
  inv w' ∧ destroyed (this w') = false ∧ config (this w') = config (this w).
Proof.
  intros Hinv Hlive H. unfold _write in H.
  destruct (if lazy _ && _ then _ else _) as [w1|] eqn:Hopen; [|done].
  simpl in H.
  destruct (lazy_open _ _ Hinv Hlive Hopen) as (Hinv1 & Hlive1 & Hc1 & [h Hh] & _).
  destruct (itemValidationSchema _ ≫= _) as [e|].
  { injection H as <- <-. done. }
  destruct (convert chunk) as [text cb1].
  case_bool_decide as Hrot.
  - destruct (resetOutstream false w1) as [w2|] eqn:Hreset; [|done].
    simpl in H. rewrite <-Hc1 in Hrot.
    destruct (inv_rotate _ _ _ Hinv1 Hh Hrot Hreset)
      as (Hinv2 & Hn2 & [h2 Hh2] & Hc2 & Hd2).
    rewrite Hh2 in H. destruct text as [t|]; injection H as <- <-.
    + destruct (writeItem_frame w2 h2 t) as (Hc & _ & _ & Hd & _).
      split_and!; [|congruence|congruence].
      apply inv_writeItem; [done|done|]. rewrite Hn2.
      pose proof (inv_max _ Hinv2). lia.
    + split_and!; congruence.
  - rewrite Hh in H. rewrite <-Hc1 in Hrot.
    destruct text as [t|]; injection H as <- <-; [|done].
    destruct (writeItem_frame w1 h t) as (Hc & _ & _ & Hd & _).
    split_and!; [|congruence|congruence].
    apply inv_writeItem; [done|done|lia].
Qed.

Lemma inv_new args d w :
  1 ≤ maxItems args → new_ArrayStream args d = Built w →
  inv w ∧ destroyed (this w) = false.
Proof.
  intros Hmax H. unfold new_ArrayStream in H.
  destruct (append args && overwrite args); [done|]. simpl in H.
  destruct (lazy args) eqn:Hlazy.
  - injection H as <-. split; [|done].
    split; simpl; try done; try lia. by left.
  - destruct (openOutstream _) as [w'|] eqn:Hopen; [|done].
    injection H as <-.
    apply inv_open in Hopen; simpl; [|done|done|by left].
    by destruct Hopen as (? & ? & ? & ? & ?).
Qed.

Lemma inv_final w w' :
  inv w → _final w = Some w' →
  inv w' ∧ destroyed (this w') = true.
Proof.
  intros Hinv H. unfold _final, flushOutstream in H.
  destruct (destroyed (this w)) eqn:Hd.
  { injection H as <-. done. }
  unfold resetOutstream in H. simpl in H. injection H as <-.
  destruct Hinv as [Hmax Hcount Hledger Hstream Hunop].
  destruct (outstream (this w)) as [h|] eqn:Hh; simpl.
  - split; [|done]. split; simpl; try done.
    destruct (ledgerOK_open _ _ Hledger Hh) as (pre & Hpre & Hall & Hlen).
    right. by exists pre.
  - destruct (Hunop Hd eq_refl) as (Hl & Hf & Hn & _).
    split; [|done]. split; simpl; try done.
    by left.
Qed.

Lemma reachable_inv w : reachable w → inv w.
Proof.
  induction 1 as [args d w Hmax Hnew|w chunk w' cbs _ IH Hlive Hwrite
                 |w w' _ IH Hfinal].
  - by apply inv_new in Hnew as [? _].
  - by apply _write_live in Hwrite as (? & _).
  - by apply inv_final in Hfinal as [? _].
Qed.

Lemma sum_list_full (m : nat) (pre : list nat) :
  Forall (λ n, n = m) pre → sum_list pre = length pre * m.
Proof. induction 1 as [|n pre -> _ IH]; simpl; [done|]. rewrite IH. lia. Qed.

Lemma reachable_live_writeAll cs : ∀ w w' cbss,
  reachable w → destroyed (this w) = false →
  writeAll cs w = Some (w', cbss) →
  reachable w' ∧ destroyed (this w') = false.
Proof.
  induction cs as [|c cs IH]; intros w w' cbss Hr Hlive H; simpl in H.
  - by injection H as <- <-.
  - destruct (_write c w) as [[w1 cbs]|] eqn:Hw; [|done]. simpl in H.
    destruct (writeAll cs w1) as [[w2 cbss']|] eqn:Hrest; [|done].
    injection H as <- <-.
    pose proof (reach_write _ _ _ _ Hr Hlive Hw) as Hr1.
    destruct (_write_live _ _ _ _ (reachable_inv _ Hr) Hlive Hw) as (_ & Hlive1 & _).
    by apply (IH w1 w2 cbss').
Qed.

Lemma demoRun_reachable cfg d cs w :
  1 ≤ maxItems cfg → demoRun cfg d cs = Some w →
  reachable w ∧ destroyed (this w) = false.
Proof.
  intros Hmax H. unfold demoRun in H.
  destruct (new_ArrayStream cfg d) as [w0| |] eqn:Hnew; try done.
  destruct (writeAll cs w0) as [[w1 cbss]|] eqn:Hw; [|done].
  injection H as <-.
  destruct (inv_new _ _ _ Hmax Hnew) as [_ Hlive].
  eapply reachable_live_writeAll; [|done|done].
  by eapply reach_new.
Qed.

(** The reported total is the sum of the ledger. *)
Lemma total_is_ledger_sum w :
  reachable w →
  length (tally w) = length (files (this w))
  ∧ getTotalCount (this w) = sum_list (tally w).
Proof.
  intros [_ _ Hledger _ _]%reachable_inv. unfold getTotalCount.
  destruct Hledger as [(Hl & Hf & Hn & _)|(pre & Hl & Hall & Hlen)].
  - by rewrite Hl, Hf, Hn.
  - rewrite Hl, Hlen, length_app, sum_list_with_app, (sum_list_full _ _ Hall).
    simpl. split; [lia|]. case_bool_decide; lia.
Qed.

(** ** C4 *)

Lemma get_is_Some s n : n < String.length s → is_Some (String.get n s).
Proof.
  revert n; induction s as [|c s IH]; intros n Hn; simpl in *; [lia|].
  destruct n as [|n]; [by eexists|]. apply IH. lia.
Qed.

(** C4. Resuming an existing file under the append policy: a file shorter
    than 3 bytes needs no separator; otherwise the separator is decided by
    the one byte the file holds at offset [size - 3], and a separator is
    needed exactly when that byte is neither the opening bracket nor a
    comma. *)
Theorem C4_resume_separator (w : World) (content : string)
  (Happend : append (config (this w)) = true)
  (Hoverwrite : overwrite (config (this w)) = false)
  (Hexists : disk w !! filePath (this w) = Some content) :
  ∃ w', openOutstream w = Some w'
    ∧ (String.length content < 3 → sep (this w') = "")
    ∧ (3 ≤ String.length content →
       ∃ b, String.get (String.length content - 3) content = Some b
            ∧ (sep (this w') = SEPARATOR ↔ b ≠ "["%char ∧ b ≠ ","%char)
            ∧ (sep (this w') = "" ↔ b = "["%char ∨ b = ","%char)
            ∧ disk w' = disk w
            ∧ outstream (this w')
              = Some {| path := filePath (this w);
                        pos := String.length content - 2;
                        flags := flags_a_plus |}).
Proof.
  unfold openOutstream. rewrite Happend, Hoverwrite. simpl.
  rewrite Hexists. eexists. split; [done|]. split.
  - intros Hsmall. case_bool_decide; [by rewrite openOverwrite_eq|].
    simpl. unfold useSep. by rewrite bool_decide_eq_false_2 by lia.
  - intros Hbig. rewrite bool_decide_eq_false_2 by lia. simpl.
    unfold useSep. rewrite bool_decide_eq_true_2 by done.
    destruct (get_is_Some content (String.length content - 3)) as [b Hb]; [lia|].
    unfold readByte. rewrite Hb. exists b. split; [done|].
    case_bool_decide as Hcase; simpl; split_and!; try done.
    all: unfold SEPARATOR; split; try done.
    + intros [??]. destruct Hcase; congruence.
    + intros _. split; intros ->; apply Hcase; auto.
Qed.

(** C4 at four files: [[1,2]] ends in an element, so a separator is needed;
    [[]] and [[1,]] have the bracket and a comma at [size - 3], and the
    two-byte file is too short: no separator. *)
Lemma C4_resume_separator_witness :
  (∃ w', openOutstream (resumeWorld ("[1,2]" +:+ newline)) = Some w'
         ∧ sep (this w') = SEPARATOR)
  ∧ (∃ w', openOutstream (resumeWorld ("[]" +:+ newline)) = Some w'
           ∧ sep (this w') = "")
  ∧ (∃ w', openOutstream (resumeWorld ("[1,]" +:+ newline)) = Some w'
           ∧ sep (this w') = "")
  ∧ (∃ w', openOutstream (resumeWorld "[]") = Some w'
           ∧ sep (this w') = "").
Proof.
  split_and!.
  - destruct (C4_resume_separator (resumeWorld ("[1,2]" +:+ newline))
                ("[1,2]" +:+ newline) eq_refl eq_refl eq_refl)
      as (w' & Hopen & _ & Hbig).
    exists w'. split; [exact Hopen|].
    destruct Hbig as (b & Hb & Hsep & _); [vm_compute; lia|].
    apply Hsep. vm_compute in Hb. injection Hb as <-. split; discriminate.
  - destruct (C4_resume_separator (resumeWorld ("[]" +:+ newline))
                ("[]" +:+ newline) eq_refl eq_refl eq_refl)
      as (w' & Hopen & _ & Hbig).
    exists w'. split; [exact Hopen|].
    destruct Hbig as (b & Hb & _ & Hnone & _); [vm_compute; lia|].
    apply Hnone. vm_compute in Hb. injection Hb as <-. by left.
  - destruct (C4_resume_separator (resumeWorld ("[1,]" +:+ newline))
                ("[1,]" +:+ newline) eq_refl eq_refl eq_refl)
      as (w' & Hopen & _ & Hbig).
    exists w'. split; [exact Hopen|].
    destruct Hbig as (b & Hb & _ & Hnone & _); [vm_compute; lia|].
    apply Hnone. vm_compute in Hb. injection Hb as <-. by right.
  - destruct (C4_resume_separator (resumeWorld "[]") "[]"
                eq_refl eq_refl eq_refl)
      as (w' & Hopen & Hsmall & _).
    exists w'. split; [exact Hopen|]. apply Hsmall. vm_compute. lia.
Defined.

(** ** C9 *)

(** Under the default policy the file is opened at the first free
    candidate, and it is a new file. *)
Lemma openOutstream_default w :
  append (config (this w)) = false →
  overwrite (config (this w)) = false →
  hasToken (keyPattern (file (config (this w)))) = true →
  ∃ w' k,
    openOutstream w = Some w'
    ∧ getFilePaths (this w')
      = getFilePaths (this w) ++ [filePath (Nat.iter k incrementKey (this w))]
    ∧ disk w !! filePath (Nat.iter k incrementKey (this w)) = None
    ∧ (∀ j, j < k →
         is_Some (disk w !! filePath (Nat.iter j incrementKey (this w))))
    ∧ disk w' = <[filePath (Nat.iter k incrementKey (this w)) := "["]> (disk w)
    ∧ count (this w') = count (this w).
Proof.
  intros Happend Hoverwrite Htok.
  destruct (findFreeKey_total (disk w) (this w) Htok) as [a Ha].
  destruct (findFreeKey_Some _ _ _ _ Ha) as (k & -> & Hfree & Hbusy).
  unfold openOutstream. rewrite Happend, Hoverwrite, Ha. simpl.
  rewrite Hfree, openOverwrite_eq. simpl.
  eexists _, k. split; [done|]. unfold getFilePaths. simpl.
  assert (files (Nat.iter k incrementKey (this w)) = files (this w)
          ∧ count (Nat.iter k incrementKey (this w)) = count (this w))
    as [-> ->]; [|done].
  clear. induction k as [|k IH]; [done|]. simpl. exact IH.
Qed.

(** A write that does not rotate leaves the list of files as the first step
    of [_write] made it. *)
Lemma _write_no_rotation chunk w w1 :
  (if lazy (config (this w)) && negb (bool_decide (is_Some (outstream (this w))))
   then openOutstream w else Some w) = Some w1 →
  count (this w1) < maxItems (config (this w)) →
  ∃ w' cbs, _write chunk w = Some (w', cbs)
            ∧ getFilePaths (this w') = getFilePaths (this w1).
Proof.
  intros Hopen Hlt. unfold _write. rewrite Hopen. simpl.
  destruct (itemValidationSchema _ ≫= _) as [e|]; [by eexists _, _|].
  destruct (convert chunk) as [text cb1].
  rewrite bool_decide_eq_false_2 by lia.
  destruct (outstream (this w1)) as [h|]; [|by eexists _, _].
  destruct text as [t|]; [|by eexists _, _].
  eexists _, _. split; [done|]. unfold getFilePaths.
  by destruct (writeItem_frame w1 h t) as (_ & _ & -> & _).
Qed.

(** C9. Under the default policy the engine opens a file only at a name
    where no file exists: it steps to the next generated index for as long as
    a file exists at the candidate name.  With files at indices 0 and 1 (and
    none at index 2), the first file opened is the one of index 2. *)
Theorem C9_collision_avoidance (args : Config) (d : gmap string string)
  (Hwf : wellFormed args)
  (Happend : append args = false) (Hoverwrite : overwrite args = false) :
  (∀ w, config (this w) = trimmed args →
     ∃ w' k,
       openOutstream w = Some w'
       ∧ getFilePaths (this w')
         = getFilePaths (this w) ++ [filePath (Nat.iter k incrementKey (this w))]
       ∧ disk w !! filePath (Nat.iter k incrementKey (this w)) = None
       ∧ (∀ j, j < k →
            is_Some (disk w !! filePath (Nat.iter j incrementKey (this w))))
       ∧ disk w' = <[filePath (Nat.iter k incrementKey (this w)) := "["]> (disk w))
  ∧ (is_Some (d !! pathOf (file (trimmed args)) 0) →
     is_Some (d !! pathOf (file (trimmed args)) 1) →
     d !! pathOf (file (trimmed args)) 2 = None →
     ∃ w0, new_ArrayStream args d = Built w0
       ∧ if lazy args
         then getFilePaths (this w0) = [] ∧ disk w0 = d
              ∧ ∀ chunk, ∃ w1 cbs,
                  _write chunk w0 = Some (w1, cbs)
                  ∧ getFilePaths (this w1) = [pathOf (file (trimmed args)) 2]
         else getFilePaths (this w0) = [pathOf (file (trimmed args)) 2]).
Proof.
  destruct Hwf as (Hmax & _ & Htok).
  assert (∀ w, config (this w) = trimmed args →
     ∃ w' k,
       openOutstream w = Some w'
       ∧ getFilePaths (this w')
         = getFilePaths (this w) ++ [filePath (Nat.iter k incrementKey (this w))]
       ∧ disk w !! filePath (Nat.iter k incrementKey (this w)) = None
       ∧ (∀ j, j < k →
            is_Some (disk w !! filePath (Nat.iter j incrementKey (this w))))
       ∧ disk w' = <[filePath (Nat.iter k incrementKey (this w)) := "["]> (disk w)
       ∧ count (this w') = count (this w)) as Hopen.
  { intros w Hcfg. apply openOutstream_default; by rewrite Hcfg. }
  split.
  { intros w Hcfg. destruct (Hopen w Hcfg) as (w' & k & ? & ? & ? & ? & ? & _).
    by exists w', k. }
  intros H0 H1 H2.
  set (w := {| this := incrementKey
                 {| config := trimmed args; sep := ""; count := 0;
                    fileCount := 0; files := []; key := "";
                    destroyed := false; outstream := None |};
               disk := d; ledger := [] |}).
  destruct (Hopen w eq_refl) as (w' & k & Hw' & Hfiles & Hfree & Hbusy & _ & Hcount).
  assert (filePath (Nat.iter k incrementKey (this w))
          = pathOf (file (trimmed args)) 2) as Hk.
  { destruct k as [|[|[|k]]].
    - change (d !! pathOf (file (trimmed args)) 0 = None) in Hfree.
      destruct H0 as [? H0]. congruence.
    - rewrite iter_incrementKey_filePath in Hfree.
      change (d !! pathOf (file (trimmed args)) 1 = None) in Hfree.
      destruct H1 as [? H1]. congruence.
    - by rewrite iter_incrementKey_filePath.
    - destruct (Hbusy 2) as [? Hb]; [lia|].
      rewrite iter_incrementKey_filePath in Hb.
      change (d !! pathOf (file (trimmed args)) 2 = Some x) in Hb.
      congruence. }
  rewrite Hk in Hfiles. simpl in Hfiles.
  unfold new_ArrayStream. rewrite Happend. simpl.
  change (set_keyPattern _ args) with (trimmed args).
  change (lazy (trimmed args)) with (lazy args).
  destruct (lazy args) eqn:Hlazy.
  - eexists. split; [done|]. simpl. split_and!; try done.
    intros chunk.
    destruct (_write_no_rotation chunk w w') as (w1 & cbs & Hwrite & Hf).
    + simpl. by rewrite Hlazy.
    + rewrite Hcount. simpl. lia.
    + exists w1, cbs. split; [done|]. by rewrite Hf.
  - fold w. rewrite Hw'. by eexists.
Qed.

Lemma demoConfig_wellFormed : wellFormed demoConfig.
Proof.
  split_and!; [simpl; lia|intros [? _]; discriminate|reflexivity].
Qed.

(** C9 at a directory that holds the files of indices 0 and 1: the first
    write of a lazy engine opens index 2. *)
Lemma C9_collision_avoidance_witness :
  ∃ w0 w1 cbs,
    new_ArrayStream demoConfig twoFiles = Built w0
    ∧ _write (num "1") w0 = Some (w1, cbs)
    ∧ getFilePaths (this w1) = ["out/data_0002.json"].
Proof.
  destruct (C9_collision_avoidance demoConfig twoFiles demoConfig_wellFormed
              eq_refl eq_refl) as [_ Hfirst].
  destruct Hfirst as (w0 & Hnew & _ & _ & Hwrite).
  - vm_compute. by eexists.
  - vm_compute. by eexists.
  - vm_compute. reflexivity.
  - destruct (Hwrite (num "1")) as (w1 & cbs & Hw & Hfiles).
    exists w0, w1, cbs. split_and!; [exact Hnew|exact Hw|exact Hfiles].
Defined.

(** ** C7 *)

(** C7 (what the code does). The encoding error is reported, and then the
    write goes on: the coerced text is written to the open file, the count
    goes up, and the callback is called a second time. *)
Lemma C7_unserializable_item_is_written :
  demoRun demoConfig ∅ [num "1"] = Some demoWorld1
  ∧ getCount (this demoWorld1) = 1
  ∧ disk demoWorld1 !! "out/data_0000.json" = Some "[1"
  ∧ ∃ w', _write cyclic demoWorld1
          = Some (w', [CbErr (WrappedError StringifyThrew); CbOk])
          ∧ getCount (this w') = 2
          ∧ getTotalCount (this w') = 2
          ∧ disk w' !! "out/data_0000.json" = Some "[1,[object Object]".
Proof.
  split_and!; [vm_compute; reflexivity..|].
  eexists. split_and!.
  - vm_compute. reflexivity.
  - vm_compute. reflexivity.
  - vm_compute. reflexivity.
  - vm_compute. reflexivity.
Qed.

(** * Accepted and rejected writes *)

Lemma passes_spec cfg chunk :
  passes cfg chunk = true →
  itemValidationSchema cfg ≫= (λ schema, validateChunk schema chunk) = None.
Proof.
  unfold passes. destruct (itemValidationSchema cfg) as [schema|]; [|done].
  simpl. by intros ?%bool_decide_eq_true.
Qed.

Lemma encode_convert chunk t : encode chunk = Some t → convert chunk = (Some t, []).
Proof. destruct chunk as [b|s|[j|] c]; simpl; congruence. Qed.

(** * The file of the open stream *)

Lemma join_empty_snoc log data :
  Text.join "" (log ++ [data]) = Text.join "" log +:+ data.
Proof. rewrite join_snoc. by destruct log. Qed.

(** In both modes a write lands at the end of the file, when a stream
    with the flags [w] stands at the end of its file. *)
Lemma landing_at_end h content data :
  (flags h = flags_w → pos h = String.length content) →
  landing h content data = content +:+ data.
Proof.
  intros Hpos. unfold landing. destruct (flags h); [|done].
  rewrite Hpos by done. apply pwrite_at_end.
Qed.

Lemma currentOK_open w w' : openOutstream w = Some w' → currentOK w'.
Proof.
  unfold openOutstream. intros H.
  destruct (if negb (append (config (this w))) && negb (overwrite (config (this w)))
            then findFreeKey (size (disk w) + 2) (disk w) (this w)
            else Some (this w)) as [a|]; [|done].
  simpl in H. injection H as <-.
  assert (∀ w1 : World, ledger w1 = ledger w ++ [[]] →
                        currentOK (openOverwrite (filePath a) w1)) as Hover.
  { intros w1 Hledger h Hh. rewrite openOverwrite_eq in Hh |- *.
    simpl in Hh. injection Hh as <-. exists "[", [].
    cbn [ledger disk path flags pos].
    rewrite Hledger, last_snoc, lookup_insert_eq.
    split_and!; [reflexivity|reflexivity|intros _; split; reflexivity]. }
  destruct (overwrite (config (this w))); [by apply Hover|].
  destruct (disk w !! filePath a) as [content|] eqn:Hlook; [|by apply Hover].
  case_bool_decide; [by apply Hover|].
  intros h Hh. simpl in Hh. injection Hh as <-. exists content, [].
  cbn [createWriteStreamAt on_this ledger disk path flags].
  rewrite last_snoc, Hlook. change (Text.join "" []) with "".
  by rewrite append_nil_r.
Qed.

Lemma currentOK_writeItem w h t :
  currentOK w → outstream (this w) = Some h → currentOK (writeItem h t w).
Proof.
  intros Hcur Hh h' Hh'.
  destruct (Hcur h Hh) as (base & log & Hlast & Hlook & Hw).
  destruct (writeItem_frame w h t) as (_ & _ & _ & _ & _ & Ho & Hdisk).
  rewrite Ho in Hh'. injection Hh' as <-.
  apply last_Some in Hlast as [pre Hpre].
  exists base, (log ++ [sep (this w) +:+ t]).
  rewrite writeItem_ledger, Hpre, log_item_snoc, last_snoc, Hdisk.
  cbn [path flags pos]. rewrite lookup_insert_eq, Hlook.
  cbn [default from_option id].
  rewrite landing_at_end by (by intros ?; apply Hw).
  rewrite join_empty_snoc, (append_assoc base). split_and!; [done|done|].
  intros Hflags. destruct (Hw Hflags) as [-> Hpos]. split; [done|].
  rewrite <-(append_assoc "["), (length_append ("[" +:+ _)), Hpos. done.
Qed.

Lemma currentOK_reset w w' : resetOutstream false w = Some w' → currentOK w'.
Proof. unfold resetOutstream. simpl. apply currentOK_open. Qed.

Lemma currentOK_lazy_open w w1 :
  currentOK w →
  (if lazy (config (this w)) && negb (bool_decide (is_Some (outstream (this w))))
   then openOutstream w else Some w) = Some w1 →
  currentOK w1.
Proof.
  intros Hcur H. destruct (lazy _ && _).
  - by apply currentOK_open in H.
  - by injection H as <-.
Qed.

Lemma currentOK_write w chunk w' cbs :
  currentOK w → _write chunk w = Some (w', cbs) → currentOK w'.
Proof.
  intros Hcur H. unfold _write in H.
  destruct (if lazy _ && _ then _ else _) as [w1|] eqn:Hopen; [|done].
  simpl in H. pose proof (currentOK_lazy_open _ _ Hcur Hopen) as Hcur1.
  destruct (itemValidationSchema _ ≫= _) as [e|].
  { by injection H as <- <-. }
  destruct (convert chunk) as [text cb1].
  case_bool_decide.
  - destruct (resetOutstream false w1) as [w2|] eqn:Hreset; [|done].
    simpl in H. pose proof (currentOK_reset _ _ Hreset) as Hcur2.
    destruct (outstream (this w2)) as [h2|] eqn:Hh2;
      [|by injection H as <- <-].
    destruct text as [t|]; injection H as <- <-; [|done].
    by apply currentOK_writeItem.
  - destruct (outstream (this w1)) as [h1|] eqn:Hh1;
      [|by injection H as <- <-].
    destruct text as [t|]; injection H as <- <-; [|done].
    by apply currentOK_writeItem.
Qed.

Lemma reachable_currentOK w : reachable w → currentOK w.
Proof.
  induction 1 as [args d w Hmax Hnew|w chunk w' cbs Hr IH Hlive Hwrite
                 |w w' Hr IH Hfinal].
  - unfold new_ArrayStream in Hnew.
    destruct (append args && overwrite args); [done|].
    destruct (lazy _).
    + injection Hnew as <-. by intros h Hh.
    + destruct (openOutstream _) as [w'|] eqn:Hopen; [|done].
      injection Hnew as <-. by apply currentOK_open in Hopen.
  - by eapply currentOK_write.
  - unfold _final, flushOutstream, resetOutstream in Hfinal.
    destruct (destroyed (this w)); [by injection Hfinal as <-|].
    simpl in Hfinal. injection Hfinal as <-. intros h Hh.
    by destruct (outstream (this w)).
Qed.

(** An accepted write on a live engine: the item passes validation, one
    success callback, one more item on the ledger, and the item's text at
    the end of the file of the stream. *)
Lemma _write_accepts w v t :
  inv w → currentOK w → destroyed (this w) = false →
  hasToken (keyPattern (file (config (this w)))) = true →
  passes (config (this w)) v = true →
  encode v = Some t →
  ∃ w' h before,
    _write v w = Some (w', [CbOk])
    ∧ sum_list (tally w') = S (sum_list (tally w))
    ∧ outstream (this w') = Some h
    ∧ disk w' !! path h = Some (before +:+ t).
Proof.
  intros Hinv Hcur Hlive Htok Hpass Henc.
  assert (∀ w1 h1, inv w1 → currentOK w1 → outstream (this w1) = Some h1 →
    ∃ h before,
      sum_list (tally (writeItem h1 t w1)) = S (sum_list (tally w1))
      ∧ outstream (this (writeItem h1 t w1)) = Some h
      ∧ disk (writeItem h1 t w1) !! path h = Some (before +:+ t)) as Hitem.
  { intros w1 h1 Hinv1 Hcur1 Hh1.
    destruct (writeItem_frame w1 h1 t) as (_ & _ & _ & _ & Hl & Ho & Hdisk).
    destruct (ledgerOK_open _ _ (inv_ledger _ Hinv1) Hh1) as (pre & Hpre & _).
    destruct (Hcur1 h1 Hh1) as (base & log & _ & Hlook & Hw).
    eexists _, _. split_and!; [|exact Ho|].
    - rewrite Hl, Hpre, bump_last_snoc, !sum_list_with_app. simpl. lia.
    - rewrite Hdisk. cbn [path]. rewrite lookup_insert_eq, Hlook.
      cbn [default from_option id].
      rewrite landing_at_end by (by intros ?; apply Hw).
      by rewrite <-append_assoc. }
  unfold _write. rewrite Hlive.
  destruct (if lazy _ && _ then _ else _) as [w1|] eqn:Hopen.
  2:{ destruct (lazy _ && _); [|done].
      by destruct (openOutstream_total w Htok) as [? ?]; congruence. }
  simpl.
  pose proof (currentOK_lazy_open _ _ Hcur Hopen) as Hcur1.
  destruct (lazy_open _ _ Hinv Hlive Hopen) as (Hinv1 & Hlive1 & Hc1 & [h Hh] & Hn1).
  assert (sum_list (tally w1) = sum_list (tally w)) as Hsum1.
  { destruct (lazy _ && _); [|by injection Hopen as <-].
    apply openOutstream_inv in Hopen as (_ & _ & _ & -> & _).
    rewrite sum_list_with_app. simpl. lia. }
  rewrite (passes_spec _ _ Hpass), (encode_convert _ _ Henc).
  destruct (decide (maxItems (config (this w)) ≤ count (this w1))) as [Hrot|Hrot];
    [rewrite bool_decide_eq_true_2 by done|rewrite bool_decide_eq_false_2 by done].
  - destruct (resetOutstream false w1) as [w2|] eqn:Hreset.
    2:{ unfold resetOutstream in Hreset. rewrite Hh in Hreset. simpl in Hreset.
        destruct (openOutstream_total
                    (on_this (λ a, incrementKey (resetCount a))
                       (stream_write h TERMINATOR w1))) as [? ?];
          [simpl; by rewrite Hc1|congruence]. }
    simpl. rewrite <-Hc1 in Hrot.
    pose proof (currentOK_reset _ _ Hreset) as Hcur2.
    destruct (inv_rotate _ _ _ Hinv1 Hh Hrot Hreset)
      as (Hinv2 & Hn2 & [h2 Hh2] & Hc2 & Hd2).
    rewrite Hh2.
    destruct (Hitem w2 h2 Hinv2 Hcur2 Hh2) as (h' & before & Hs & ? & ?).
    exists (writeItem h2 t w2), h', before. split_and!; try done.
    rewrite Hs. f_equal. rewrite <-Hsum1.
    unfold resetOutstream in Hreset. rewrite Hh in Hreset. simpl in Hreset.
    apply openOutstream_inv in Hreset as (_ & _ & _ & -> & _).
    rewrite sum_list_with_app. unfold tally. simpl. lia.
  - rewrite Hh.
    destruct (Hitem w1 h Hinv1 Hcur1 Hh) as (h' & before & Hs & ? & ?).
    exists (writeItem h t w1), h', before. split_and!; try done.
    by rewrite Hs, Hsum1.
Qed.

(** [_write] returns whenever the name search ends. *)
Lemma resetOutstream_total final w :
  hasToken (keyPattern (file (config (this w)))) = true →
  is_Some (resetOutstream final w).
Proof.
  intros Htok. unfold resetOutstream.
  destruct final; simpl; [by eexists|].
  apply openOutstream_total. by destruct (outstream (this w)).
Qed.

Lemma lazy_open_total w :
  hasToken (keyPattern (file (config (this w)))) = true →
  ∃ w1, (if lazy (config (this w))
            && negb (bool_decide (is_Some (outstream (this w))))
         then openOutstream w else Some w) = Some w1
        ∧ config (this w1) = config (this w).
Proof.
  intros Htok. destruct (lazy _ && _); [|by eexists].
  destruct (openOutstream_total w Htok) as [w1 Hopen].
  exists w1. split; [done|].
  by apply openOutstream_inv in Hopen as (_ & _ & _ & _ & ? & _).
Qed.

Lemma _write_rejects w w1 chunk schema e :
  destroyed (this w) = false →
  (if lazy (config (this w)) && negb (bool_decide (is_Some (outstream (this w))))
   then openOutstream w else Some w) = Some w1 →
  itemValidationSchema (config (this w)) = Some schema →
  validateChunk schema chunk = Some e →
  _write chunk w = Some (w1, [CbErr (ValidationError e)]).
Proof.
  intros Hlive Hopen Hschema Hinvalid.
  unfold _write. rewrite Hlive, Hopen, Hschema. simpl. by rewrite Hinvalid.
Qed.

(** ** C6 *)

(** C6. On a live engine with a validator, an item that fails validation
    gets one error callback; the counts stay; an open file is neither closed
    nor written to (the whole state stays as it was); and later writes behave
    as if the failed one had not happened: a valid item is then accepted
    and counted, and its text is the last thing in the file of the stream. *)
Theorem C6_validation_failure (w : World) (chunk : Chunk)
  (schema : Chunk → option string) (e : string)
  (Hreach : reachable w)
  (Hlive : destroyed (this w) = false)
  (Htok : hasToken (keyPattern (file (config (this w)))) = true)
  (Hschema : itemValidationSchema (config (this w)) = Some schema)
  (Hinvalid : validateChunk schema chunk = Some e) :
  ∃ w', _write chunk w = Some (w', [CbErr (ValidationError e)])
    ∧ getCount (this w') = getCount (this w)
    ∧ getTotalCount (this w') = getTotalCount (this w)
    ∧ sum_list (tally w') = sum_list (tally w)
    ∧ destroyed (this w') = false
    ∧ (is_Some (outstream (this w)) → w' = w)
    ∧ (∀ c, _write c w' = _write c w)
    ∧ (∀ v t, passes (config (this w)) v = true → encode v = Some t →
         ∃ w'' h before,
           _write v w' = Some (w'', [CbOk])
           ∧ getTotalCount (this w'') = S (getTotalCount (this w))
           ∧ outstream (this w'') = Some h
           ∧ disk w'' !! path h = Some (before +:+ t)).
Proof.
  pose proof (reachable_inv _ Hreach) as Hinv.
  destruct (lazy_open_total w Htok) as (w1 & Hopen & Hc1).
  pose proof (_write_rejects _ _ _ _ _ Hlive Hopen Hschema Hinvalid) as Hwrite.
  destruct (lazy_open _ _ Hinv Hlive Hopen) as (Hinv1 & Hlive1 & _ & [h1 Hh1] & Hn1).
  pose proof (reach_write _ _ _ _ Hreach Hlive Hwrite) as Hreach1.
  assert (sum_list (tally w1) = sum_list (tally w)) as Hsum.
  { destruct (lazy _ && _); [|by injection Hopen as <-].
    apply openOutstream_inv in Hopen as (_ & _ & _ & -> & _).
    rewrite sum_list_with_app. simpl. lia. }
  assert (getTotalCount (this w1) = getTotalCount (this w)) as Htotal.
  { destruct (total_is_ledger_sum _ Hreach) as [_ ->].
    destruct (total_is_ledger_sum _ Hreach1) as [_ ->]. done. }
  assert (∀ c, _write c w1 = _write c w) as Hsame.
  { intros c. destruct (outstream (this w)) as [h|] eqn:Hh.
    - rewrite bool_decide_eq_true_2, andb_false_r in Hopen by eauto.
      by injection Hopen as <-.
    - unfold _write at 2. rewrite Hh, Hopen. unfold _write.
      rewrite Hlive, Hlive1, Hc1, Hh1.
      by rewrite bool_decide_eq_true_2, andb_false_r by eauto. }
  exists w1. split_and!; try done.
  - intros [h Hh]. rewrite Hh in Hopen.
    rewrite bool_decide_eq_true_2, andb_false_r in Hopen by eauto.
    by injection Hopen as <-.
  - intros v t Hpass Henc.
    rewrite <-Hc1 in Htok, Hpass.
    destruct (_write_accepts w1 v t Hinv1 (reachable_currentOK _ Hreach1)
                Hlive1 Htok Hpass Henc) as
      (w2 & h & before & Hw2 & Hs2 & ? & ?).
    exists w2, h, before. split_and!; try done.
    pose proof (reach_write _ _ _ _ Hreach1 Hlive1 Hw2) as Hreach2.
    destruct (total_is_ledger_sum _ Hreach2) as [_ ->].
    destruct (total_is_ledger_sum _ Hreach) as [_ ->].
    by rewrite Hs2, Hsum.
Qed.

(** C6 at the reference usage: a string item is rejected by the object
    schema and the engine stays as it was. *)
Lemma C6_validation_failure_witness :
  ∃ w', _write (Str "I will not pass validation!") validatedWorld1
        = Some (w', [CbErr (ValidationError "value must be of type object")])
        ∧ w' = validatedWorld1.
Proof.
  assert (reachable validatedWorld1) as Hreach.
  { apply (demoRun_reachable validatedConfig ∅ [num "1"]).
    - simpl. lia.
    - vm_compute. reflexivity. }
  destruct (C6_validation_failure validatedWorld1
              (Str "I will not pass validation!") objectSchema
              "value must be of type object" Hreach
              eq_refl eq_refl eq_refl eq_refl)
    as (w' & Hwrite & _ & _ & _ & _ & Hsame & _).
  exists w'. split; [exact Hwrite|]. apply Hsame. vm_compute. by eexists.
Defined.

(** ** C10 *)

(** Opening anywhere but on an existing file of two bytes or more that the
    append policy resumes: the file is new or emptied, and holds the
    bracket. *)
Lemma openOutstream_new_file w w' :
  openOutstream w = Some w' →
  (append (config (this w)) = true → overwrite (config (this w)) = false →
   ∀ content, disk w !! filePath (this w) = Some content →
              String.length content < 2) →
  ∃ p, files (this w') = files (this w) ++ [p]
       ∧ disk w' = <[p := "["]> (disk w)
       ∧ outstream (this w') = Some {| path := p; pos := 1; flags := flags_w |}
       ∧ sep (this w') = "".
Proof.
  intros Hopen Hsmall.
  destruct (openOutstream_inv _ _ Hopen) as (a & Hs & _).
  destruct (searched_frame _ _ Hs) as (_ & _ & _ & Hf & _).
  unfold openOutstream in Hopen. unfold searched in Hs.
  destruct (append (config (this w))) eqn:Happend,
           (overwrite (config (this w))) eqn:Hoverwrite; simpl in Hopen, Hs.
  - subst a. injection Hopen as <-. rewrite openOverwrite_eq. simpl. eauto.
  - subst a. injection Hopen as <-.
    destruct (disk w !! filePath (this w)) as [content|] eqn:Hlook.
    + rewrite bool_decide_eq_true_2 by eauto.
      rewrite openOverwrite_eq. simpl. eauto.
    + rewrite openOverwrite_eq. simpl. eauto.
  - subst a. injection Hopen as <-. rewrite openOverwrite_eq. simpl. eauto.
  - destruct Hs as (k & -> & Hfree & _).
    destruct (findFreeKey _ _ _) as [a'|] eqn:Hfind; [|done]. simpl in Hopen.
    injection Hopen as <-.
    apply findFreeKey_Some in Hfind as (k' & -> & Hfree' & _).
    rewrite Hfree', openOverwrite_eq. simpl.
    assert (files (Nat.iter k' incrementKey (this w)) = files (this w)) as ->.
    { clear. induction k' as [|k' IH]; [done|]. simpl. exact IH. }
    eauto.
Qed.

(** Once the stream is open, items that fail validation leave the engine
    and the disk as they are. *)
Lemma writeAll_rejected cs : ∀ w,
  destroyed (this w) = false →
  is_Some (outstream (this w)) →
  Forall (λ c, passes (config (this w)) c = false) cs →
  ∃ cbss, writeAll cs w = Some (w, cbss)
          ∧ Forall (λ cbs, ∃ e, cbs = [CbErr (ValidationError e)]) cbss.
Proof.
  induction cs as [|c cs IH]; intros w Hlive Hopen Hall; simpl.
  - exists []. by split.
  - apply Forall_cons in Hall as [Hc Hall].
    assert (∃ e, _write c w = Some (w, [CbErr (ValidationError e)])) as [e ->].
    { unfold _write. rewrite Hlive.
      rewrite bool_decide_eq_true_2, andb_false_r by done. simpl.
      unfold passes in Hc.
      destruct (itemValidationSchema _) as [schema|]; [|done]. simpl.
      destruct (validateChunk schema c) as [e|]; [by exists e|].
      by rewrite bool_decide_eq_true_2 in Hc. }
    simpl. destruct (IH w Hlive Hopen Hall) as (cbss & -> & Hcbss). simpl.
    eexists. split; [done|]. constructor; eauto.
Qed.

(** C10 (amended). A lazy engine opens its file on the first write, before
    it validates the item: the path joins [files] even when that item fails
    validation.  Unless the append policy resumes an existing file of two
    bytes or more at that path, the file then holds the opening bracket and
    nothing else; an engine that receives only invalid items leaves exactly
    that file behind, [getFilePaths] has one entry, and the counts are 0. *)
Theorem C10_lazy_open_before_validation
  (args : Config) (d : gmap string string) (bad : Chunk) (bads : list Chunk)
  (Hwf : wellFormed args)
  (Hlazy : lazy args = true)
  (Hbad : Forall (λ c, passes (trimmed args) c = false) (bad :: bads))
  (Hnoresume : append args = true →
     ∀ content, d !! pathOf (file (trimmed args)) 0 = Some content →
                String.length content < 2) :
  ∃ w0 w1 p e cbss,
    new_ArrayStream args d = Built w0
    ∧ getFilePaths (this w0) = [] ∧ disk w0 = d
    ∧ _write bad w0 = Some (w1, [CbErr (ValidationError e)])
    ∧ getFilePaths (this w1) = [p]
    ∧ disk w1 = <[p := "["]> d
    ∧ getCount (this w1) = 0 ∧ getTotalCount (this w1) = 0
    ∧ writeAll bads w1 = Some (w1, cbss).
Proof.
  destruct Hwf as (Hmax & Hpolicy & Htok).
  apply Forall_cons in Hbad as [Hbad Hbads].
  set (w0 := {| this := incrementKey
                  {| config := trimmed args; sep := ""; count := 0;
                     fileCount := 0; files := []; key := "";
                     destroyed := false; outstream := None |};
                disk := d; ledger := [] |}).
  assert (new_ArrayStream args d = Built w0) as Hnew.
  { unfold new_ArrayStream.
    destruct (append args) eqn:Ha, (overwrite args) eqn:Ho;
      try (by destruct Hpolicy); simpl;
      change (lazy (set_keyPattern _ args)) with (lazy args);
      by rewrite Hlazy. }
  destruct (openOutstream_total w0 Htok) as [w1 Hopen].
  destruct (openOutstream_new_file _ _ Hopen) as (p & Hfiles & Hdisk & Hstream & _).
  { intros Ha _ content. by apply Hnoresume. }
  destruct (openOutstream_inv _ _ Hopen)
    as (_ & _ & _ & _ & Hc & Hn & Hd & _).
  unfold passes in Hbad. change (config (this w0)) with (trimmed args) in Hc.
  destruct (itemValidationSchema (trimmed args)) as [schema|] eqn:Hschema;
    [|done].
  destruct (validateChunk schema bad) as [e|] eqn:Hinvalid;
    [|by rewrite bool_decide_eq_true_2 in Hbad].
  destruct (writeAll_rejected bads w1) as (cbss & Hrest & _).
  { by rewrite Hd. }
  { by rewrite Hstream. }
  { by rewrite Hc. }
  exists w0, w1, p, e, cbss. split_and!; try done.
  - apply _write_rejects with schema; try done.
    change (lazy (config (this w0))) with (lazy args). by rewrite Hlazy.
  - unfold getTotalCount. rewrite Hfiles. simpl. by rewrite Hn.
Qed.

Lemma validatedConfig_wellFormed : wellFormed validatedConfig.
Proof.
  split_and!; [simpl; lia|intros [? _]; discriminate|reflexivity].
Qed.

(** C10 (amended) at a lazy engine over an empty directory that receives
    two strings the object schema rejects. *)
Lemma C10_lazy_open_before_validation_witness :
  ∃ w0 w1 p e cbss,
    new_ArrayStream validatedConfig ∅ = Built w0
    ∧ getFilePaths (this w0) = [] ∧ disk w0 = ∅
    ∧ _write (Str "oops") w0 = Some (w1, [CbErr (ValidationError e)])
    ∧ getFilePaths (this w1) = [p]
    ∧ disk w1 = <[p := "["]> ∅
    ∧ getCount (this w1) = 0 ∧ getTotalCount (this w1) = 0
    ∧ writeAll [Str "again"] w1 = Some (w1, cbss).
Proof.
  apply (C10_lazy_open_before_validation validatedConfig ∅ (Str "oops")
           [Str "again"] validatedConfig_wellFormed).
  - reflexivity.
  - repeat constructor.
  - intros Happend. discriminate Happend.
Defined.

(** C10 as stated fails under the append policy: the first, invalid, write
    reopens the existing file [[1]] and writes nothing to it. *)
Lemma C10_counterexample :
  lazy appendConfig = true
  ∧ passes (trimmed appendConfig) (Str "oops") = false
  ∧ (∃ w0 w1 e,
       new_ArrayStream appendConfig oneArray = Built w0
       ∧ _write (Str "oops") w0 = Some (w1, [CbErr (ValidationError e)])
       ∧ getFilePaths (this w1) = ["out/data_0000.json"]
       ∧ disk w1 = oneArray)
  ∧ ¬ first_write_leaves_bracket appendConfig oneArray (Str "oops").
Proof.
  split_and!.
  - reflexivity.
  - vm_compute. reflexivity.
  - eexists _, _, _. split_and!.
    + vm_compute. reflexivity.
    + vm_compute. reflexivity.
    + vm_compute. reflexivity.
    + vm_compute. reflexivity.
  - intros (w0 & w1 & cbs & p & Hnew & Hwrite & Hfiles & Hdisk).
    vm_compute in Hnew. injection Hnew as <-.
    vm_compute in Hwrite. injection Hwrite as <- <-.
    vm_compute in Hfiles. injection Hfiles as <-.
    vm_compute in Hdisk. discriminate.
Qed.

(** * A run over an empty directory *)

Lemma _write_direct w chunk h t :
  destroyed (this w) = false →
  outstream (this w) = Some h →
  passes (config (this w)) chunk = true →
  encode chunk = Some t →
  count (this w) < maxItems (config (this w)) →
  _write chunk w = Some (writeItem h t w, [CbOk]).
Proof.
  intros Hlive Hh Hpass Henc Hlt. unfold _write.
  rewrite Hlive, Hh, bool_decide_eq_true_2, andb_false_r by eauto. simpl.
  rewrite (passes_spec _ _ Hpass), (encode_convert _ _ Henc).
  rewrite bool_decide_eq_false_2 by lia. by rewrite Hh.
Qed.

Lemma _write_rotating w chunk h t w2 h2 :
  destroyed (this w) = false →
  outstream (this w) = Some h →
  passes (config (this w)) chunk = true →
  encode chunk = Some t →
  maxItems (config (this w)) ≤ count (this w) →
  resetOutstream false w = Some w2 →
  outstream (this w2) = Some h2 →
  _write chunk w = Some (writeItem h2 t w2, [CbOk]).
Proof.
  intros Hlive Hh Hpass Henc Hge Hreset Hh2. unfold _write.
  rewrite Hlive, Hh, bool_decide_eq_true_2, andb_false_r by eauto. simpl.
  rewrite (passes_spec _ _ Hpass), (encode_convert _ _ Henc).
  rewrite bool_decide_eq_true_2 by done.
  rewrite Hreset. simpl. by rewrite Hh2.
Qed.

Lemma writeItem_sep w h t :
  sep (this (writeItem h t w))
  = (if bool_decide (sep (this w) = "") then SEPARATOR else sep (this w))
  ∧ key (this (writeItem h t w)) = key (this w)
  ∧ fileCount (this (writeItem h t w)) = fileCount (this w).
Proof. unfold writeItem. simpl. case_bool_decide; done. Qed.

Lemma open_text_snoc cur t :
  "[" +:+ Text.join SEPARATOR (cur ++ [t])
  = ("[" +:+ Text.join SEPARATOR cur)
    +:+ (if cur is [] then "" else SEPARATOR) +:+ t.
Proof.
  rewrite join_snoc. destruct cur as [|a cur].
  - reflexivity.
  - by rewrite !append_assoc.
Qed.

Lemma open_text_close cur :
  ("[" +:+ Text.join SEPARATOR cur) +:+ TERMINATOR = arrayText cur.
Proof. unfold arrayText. by rewrite append_assoc. Qed.

Lemma open_text_one t : "[" +:+ Text.join SEPARATOR [t] = "[" +:+ t.
Proof. reflexivity. Qed.

Lemma _write_after_open w w1 chunk :
  destroyed (this w) = false →
  lazy (config (this w)) = true →
  outstream (this w) = None →
  openOutstream w = Some w1 →
  _write chunk w = _write chunk w1.
Proof.
  intros Hlive Hlazy Hnone Hopen.
  destruct (openOutstream_inv _ _ Hopen)
    as (_ & _ & _ & _ & Hc & _ & Hd & _ & _ & h & _ & Hh & _).
  unfold _write. rewrite Hnone, Hlazy, Hopen, Hc, Hd, Hlive, Hh, Hlazy.
  by rewrite bool_decide_eq_false_2, bool_decide_eq_true_2 by (eauto || by intros [??]).
Qed.

#[local] Arguments generateKey : simpl never.
#[local] Arguments filePath : simpl never.
#[local] Arguments pathOf : simpl never.
#[local] Arguments arrayText : simpl never.
#[local] Arguments Text.join : simpl never.

Section fresh_run.
Variable cfg : Config.
Hypothesis Hmax : 1 ≤ maxItems cfg.
Hypothesis Htok : hasToken (keyPattern (file cfg)) = true.

Lemma unopened_open w :
  unopened cfg w → ∃ w', openOutstream w = Some w' ∧ laidOut cfg w' [] [].
Proof.
  intros (Hc & Hd & Hf & Hfc & Hk & Hn & Ho & Hdisk).
  rewrite openOutstream_fresh by (by rewrite Hdisk).
  eexists. split; [done|].
  assert (filePath (this w) = pathOf (file cfg) 0) as Hp.
  { unfold filePath, pathOf. by rewrite Hc, Hk. }
  unfold laidOut. simpl. rewrite Hp, Hf, Hdisk.
  split_and!; try done.
  - lia.
  - by left.
  - by rewrite lookup_insert_eq.
  - intros p [x Hx]. exists 0. split; [done|].
    destruct (decide (p = pathOf (file cfg) 0)) as [->|Hne]; [done|].
    by rewrite lookup_insert_ne in Hx.
Qed.

Lemma laidOut_reject w full cur chunk :
  laidOut cfg w full cur → passes cfg chunk = false →
  ∃ e, _write chunk w = Some (w, [CbErr (ValidationError e)]).
Proof.
  intros (Hc & Hd & _ & _ & _ & _ & _ & _ & _ & _ & Ho & _) Hpass.
  unfold passes in Hpass.
  destruct (itemValidationSchema cfg) as [schema|] eqn:Hschema; [|done].
  destruct (validateChunk schema chunk) as [e|] eqn:Hinvalid;
    [|by rewrite bool_decide_eq_true_2 in Hpass].
  exists e. apply _write_rejects with schema; try done; [|by rewrite Hc].
  by rewrite Ho, bool_decide_eq_true_2, andb_false_r by eauto.
Qed.

Lemma laidOut_accept_direct w full cur chunk t :
  laidOut cfg w full cur → passes cfg chunk = true → encode chunk = Some t →
  length cur < maxItems cfg →
  ∃ w', _write chunk w = Some (w', [CbOk]) ∧ laidOut cfg w' full (cur ++ [t]).
Proof.
  intros (Hc & Hd & Hfull & Hcur & Hne & Hf & Hfc & Hk & Hn & Hs & Ho & Hdone
          & Hopen & Hdom) Hpass Henc Hlt.
  set (h := {| path := pathOf (file cfg) (length full);
               pos := String.length ("[" +:+ Text.join SEPARATOR cur);
               flags := flags_w |}) in *.
  exists (writeItem h t w). split.
  { apply _write_direct; rewrite ?Hc, ?Hn; done. }
  destruct (writeItem_frame w h t) as (Hc' & Hn' & Hf' & Hd' & _ & Ho' & Hdisk').
  destruct (writeItem_sep w h t) as (Hs' & Hk' & Hfc').
  unfold laidOut.
  rewrite Hc', Hn', Hf', Hd', Ho', Hdisk', Hs', Hk', Hfc'.
  rewrite Hc, Hn, Hf, Hd, Hs, Hk, Hfc. subst h. unfold landing.
  cbn [path pos flags].
  rewrite Hopen. cbn [from_option id].
  rewrite pwrite_at_end, <-!open_text_snoc, length_app. cbn [length].
  split_and!; try done.
  - lia.
  - right. by destruct cur.
  - by destruct cur.
  - by rewrite open_text_snoc, <-length_append.
  - intros i l Hi. rewrite lookup_insert_ne; [by apply Hdone|].
    intros Heq%pathOf_inj; [|done].
    apply lookup_lt_Some in Hi. lia.
  - by rewrite lookup_insert_eq.
  - intros p Hp. destruct (decide (p = pathOf (file cfg) (length full))) as [->|Hne'].
    + by exists (length full).
    + rewrite lookup_insert_ne in Hp by done. by apply Hdom.
Qed.

Lemma laidOut_accept_rotating w full cur chunk t :
  laidOut cfg w full cur → passes cfg chunk = true → encode chunk = Some t →
  maxItems cfg ≤ length cur →
  ∃ w', _write chunk w = Some (w', [CbOk]) ∧ laidOut cfg w' (full ++ [cur]) [t].
Proof.
  intros (Hc & Hd & Hfull & Hcur & Hne & Hf & Hfc & Hk & Hn & Hs & Ho & Hdone
          & Hopen & Hdom) Hpass Henc Hge.
  set (h := {| path := pathOf (file cfg) (length full);
               pos := String.length ("[" +:+ Text.join SEPARATOR cur);
               flags := flags_w |}) in *.
  set (wr := on_this (λ a, incrementKey (resetCount a))
               (stream_write h TERMINATOR w)).
  assert (filePath (this wr) = pathOf (file cfg) (S (length full))) as Hp.
  { unfold filePath, pathOf, wr. cbn. by rewrite Hc, Hfc. }
  assert (disk wr = <[pathOf (file cfg) (length full) := arrayText cur]> (disk w))
    as Hdiskr.
  { unfold wr, on_this, stream_write, set_disk, landing, h.
    cbn [disk path pos flags].
    rewrite Hopen. cbn [from_option id].
    by rewrite pwrite_at_end, open_text_close. }
  assert (disk wr !! pathOf (file cfg) (S (length full)) = None) as Hfree.
  { rewrite Hdiskr, lookup_insert_ne.
    - destruct (disk w !! pathOf (file cfg) (S (length full))) eqn:Hlook; [|done].
      destruct (Hdom _ (mk_is_Some _ _ Hlook)) as (i & Hi & Heq).
      apply pathOf_inj in Heq; [lia|done].
    - intros Heq%pathOf_inj; [lia|done]. }
  assert (resetOutstream false w = openOutstream wr) as Hreset.
  { unfold resetOutstream. by rewrite Ho. }
  rewrite openOutstream_fresh in Hreset by (by rewrite Hp).
  assert (config (this wr) = cfg ∧ destroyed (this wr) = false
          ∧ files (this wr) = pathOf (file cfg) <$> seq 0 (S (length full))
          ∧ fileCount (this wr) = S (S (length full))
          ∧ key (this wr) = generateKey (file cfg) (S (length full))
          ∧ count (this wr) = 0) as (Hcr & Hdr & Hfr & Hfcr & Hkr & Hnr).
  { unfold wr. cbn. rewrite Hc, Hd, Hf, Hfc. split_and!; try done. lia. }
  clearbody wr.
  set (h2 := {| path := filePath (this wr); pos := 1; flags := flags_w |}) in *.
  match type of Hreset with _ = Some ?x => set (w2 := x) in * end.
  exists (writeItem h2 t w2). split.
  { eapply _write_rotating; rewrite ?Hc, ?Hn; done. }
  destruct (writeItem_frame w2 h2 t) as (Hc' & Hn' & Hf' & Hd' & _ & Ho' & Hdisk').
  destruct (writeItem_sep w2 h2 t) as (Hs' & Hk' & Hfc').
  unfold laidOut.
  rewrite Hc', Hn', Hf', Hd', Ho', Hdisk', Hs', Hk', Hfc'.
  unfold w2, h2, landing.
  cbn [this disk config count files destroyed sep key fileCount outstream
       set_sep set_outstream set_files path pos flags].
  rewrite Hp, Hdiskr, Hcr, Hdr, Hfr, Hfcr, Hkr, Hnr, length_app.
  rewrite lookup_insert_eq. cbn [from_option id length].
  replace (length full + 1) with (S (length full)) by lia.
  assert (Text.pwrite "[" 1 ("" +:+ t) = "[" +:+ t) as ->.
  { rewrite append_nil_l. apply (pwrite_at_end "[" t). }
  rewrite insert_insert_eq, open_text_one.
  split_and!; try done.
  - apply Forall_app. split; [done|]. constructor; [lia|done].
  - by right.
  - by rewrite (seq_S (S (length full))), fmap_app.
  - intros i l Hi.
    destruct (decide (i = length full)) as [->|Hi'].
    + rewrite list_lookup_middle in Hi by done. injection Hi as <-.
      rewrite lookup_insert_ne, lookup_insert_eq; [done|].
      intros Heq%pathOf_inj; [lia|done].
    + rewrite !lookup_insert_ne.
      * rewrite lookup_app_l in Hi; [by apply Hdone|].
        apply lookup_lt_Some in Hi. rewrite length_app in Hi. simpl in Hi. lia.
      * intros Heq%pathOf_inj; [lia|done].
      * intros Heq%pathOf_inj; [|done].
        apply lookup_lt_Some in Hi. rewrite length_app in Hi. simpl in Hi. lia.
  - by rewrite lookup_insert_eq.
  - intros p Hlook.
    destruct (decide (p = pathOf (file cfg) (S (length full)))) as [->|Hne1].
    { by exists (S (length full)). }
    rewrite lookup_insert_ne in Hlook by done.
    destruct (decide (p = pathOf (file cfg) (length full))) as [->|Hne2].
    { exists (length full). split; [lia|done]. }
    rewrite lookup_insert_ne in Hlook by done.
    destruct (Hdom _ Hlook) as (i & Hi & ->). exists i. split; [lia|done].
Qed.

Lemma laidOut_final w full cur :
  laidOut cfg w full cur →
  ∃ w', _final w = Some w'
    ∧ getFilePaths (this w') = pathOf (file cfg) <$> seq 0 (S (length full))
    ∧ (∀ i l, (full ++ [cur]) !! i = Some l →
              disk w' !! pathOf (file cfg) i = Some (arrayText l))
    ∧ (∀ p, is_Some (disk w' !! p) →
            ∃ i, i ≤ length full ∧ p = pathOf (file cfg) i).
Proof.
  intros (Hc & Hd & Hfull & Hcur & Hne & Hf & Hfc & Hk & Hn & Hs & Ho & Hdone
          & Hopen & Hdom).
  unfold _final, flushOutstream, resetOutstream. rewrite Hd.
  cbn [negb this on_this outstream set_destroyed]. rewrite Ho.
  eexists. split; [done|].
  unfold getFilePaths, stream_write, on_this, set_disk, landing.
  cbn [this disk files set_outstream set_destroyed path pos flags].
  rewrite Hopen. cbn [from_option id].
  rewrite pwrite_at_end, open_text_close.
  split_and!; [done| |].
  - intros i l Hi. destruct (decide (i = length full)) as [->|Hi'].
    + rewrite list_lookup_middle in Hi by done. injection Hi as <-.
      by rewrite lookup_insert_eq.
    + rewrite lookup_insert_ne.
      * rewrite lookup_app_l in Hi; [by apply Hdone|].
        apply lookup_lt_Some in Hi. rewrite length_app in Hi. simpl in Hi. lia.
      * intros Heq%pathOf_inj; [lia|done].
  - intros p Hlook.
    destruct (decide (p = pathOf (file cfg) (length full))) as [->|Hne2].
    { by exists (length full). }
    rewrite lookup_insert_ne in Hlook by done. by apply Hdom.
Qed.

Lemma unopened_final w :
  unopened cfg w →
  ∃ w', _final w = Some w' ∧ getFilePaths (this w') = [] ∧ disk w' = ∅.
Proof.
  intros (Hc & Hd & Hf & Hfc & Hk & Hn & Ho & Hdisk).
  unfold _final, flushOutstream, resetOutstream. rewrite Hd.
  cbn [negb this on_this outstream set_destroyed]. rewrite Ho.
  eexists. split; [done|]. by split.
Qed.

Lemma accepted_cons c cs :
  accepted cfg (c :: cs) = accepted cfg [c] ++ accepted cfg cs.
Proof.
  unfold accepted. simpl.
  by destruct (if passes cfg c then encode c else None).
Qed.

Lemma progress_step w xs chunk :
  progress cfg w xs →
  (passes cfg chunk = true → is_Some (encode chunk)) →
  ∃ w' cbs full cur,
    _write chunk w = Some (w', cbs)
    ∧ laidOut cfg w' full cur
    ∧ concat full ++ cur = xs ++ accepted cfg [chunk].
Proof.
  intros Hprog Henc.
  assert (∀ w1 full cur, laidOut cfg w1 full cur →
    ∃ w' cbs full' cur',
      _write chunk w1 = Some (w', cbs)
      ∧ laidOut cfg w' full' cur'
      ∧ concat full' ++ cur' = (concat full ++ cur) ++ accepted cfg [chunk])
    as Hopened.
  { intros w1 full cur Hlaid. unfold accepted. simpl.
    destruct (passes cfg chunk) eqn:Hpass.
    - destruct (Henc eq_refl) as [t Ht]. rewrite Ht.
      destruct (decide (length cur < maxItems cfg)) as [Hlt|Hge].
      + destruct (laidOut_accept_direct _ _ _ _ _ Hlaid Hpass Ht Hlt)
          as (w' & Hw & Hlaid').
        exists w', [CbOk], full, (cur ++ [t]). split_and!; try done.
        by rewrite !app_assoc.
      + destruct (laidOut_accept_rotating _ _ _ _ _ Hlaid Hpass Ht)
          as (w' & Hw & Hlaid'); [lia|].
        exists w', [CbOk], (full ++ [cur]), [t]. split_and!; try done.
        rewrite concat_app. simpl. by rewrite app_nil_r.
    - destruct (laidOut_reject _ _ _ _ Hlaid Hpass) as [e He].
      exists w1, [CbErr (ValidationError e)], full, cur.
      split_and!; try done. by rewrite app_nil_r. }
  destruct Hprog as [(Hun & Hlazy & ->)|(full & cur & Hlaid & <-)].
  - destruct (unopened_open _ Hun) as (w1 & Hopen & Hlaid).
    destruct Hun as (Hc & Hd & _ & _ & _ & _ & Ho & _).
    rewrite (_write_after_open w w1) by (rewrite ?Hc; done).
    by apply (Hopened w1 [] []).
  - by apply Hopened.
Qed.

Lemma progress_run cs : ∀ w xs,
  progress cfg w xs →
  Forall (λ c, passes cfg c = true → is_Some (encode c)) cs →
  ∃ w' cbss,
    writeAll cs w = Some (w', cbss)
    ∧ progress cfg w' (xs ++ accepted cfg cs)
    ∧ (cs ≠ [] → ∃ full cur,
         laidOut cfg w' full cur ∧ concat full ++ cur = xs ++ accepted cfg cs).
Proof.
  induction cs as [|c cs IH]; intros w xs Hprog Hall.
  - exists w, []. simpl. rewrite app_nil_r. by split_and!.
  - apply Forall_cons in Hall as [Hc Hall].
    destruct (progress_step _ _ _ Hprog Hc) as (w1 & cbs & full & cur & Hw & Hlaid & Hxs).
    destruct (IH w1 (xs ++ accepted cfg [c])) as (w' & cbss & Hrun & Hprog' & Hlaid');
      [right; eauto|done|].
    exists w', (cbs :: cbss). rewrite accepted_cons, app_assoc.
    split_and!; [by simpl; rewrite Hw; simpl; rewrite Hrun|done|].
    intros _. destruct cs as [|c' cs'].
    + simpl in Hrun. injection Hrun as <- <-.
      exists full, cur. split; [done|].
      unfold accepted at 2. simpl. by rewrite app_nil_r.
    + by apply Hlaid'.
Qed.

Lemma length_concat_full (full : list (list string)) :
  Forall (λ l, length l = maxItems cfg) full →
  length (concat full) = length full * maxItems cfg.
Proof.
  induction 1 as [|l full Hl _ IH]; [done|].
  simpl. rewrite length_app, IH, Hl. lia.
Qed.

Lemma laidOut_decode w full cur :
  laidOut cfg w full cur →
  Forall (λ e, isElement e = true) (concat full ++ cur) →
  ∃ w', _final w = Some w'
    ∧ length (getFilePaths (this w')) = S (length full)
    ∧ decodeFiles w' = Some (full ++ [cur])
    ∧ size (disk w') = S (length full).
Proof.
  intros Hlaid Helems.
  destruct (laidOut_final _ _ _ Hlaid) as (w' & Hfinal & Hfiles & Hdisk & Hdom).
  exists w'. split_and!; [done|..].
  - by rewrite Hfiles, length_fmap, length_seq.
  - unfold decodeFiles. rewrite Hfiles. apply mapM_Some.
    apply Forall2_fmap_l, Forall2_same_length_lookup_2.
    { rewrite length_seq, length_app. simpl. lia. }
    intros i x l Hx Hl. apply lookup_seq in Hx as [-> _]. simpl.
    rewrite (Hdisk _ _ Hl). simpl. apply decodeArray_arrayText.
    apply list_elem_of_lookup_2 in Hl.
    apply Forall_forall. intros e He.
    rewrite Forall_forall in Helems. apply Helems.
    apply elem_of_app in Hl as [Hl|Hl%list_elem_of_singleton].
    + apply elem_of_app. left. apply list_elem_of_In, in_concat.
      exists l. split; by apply list_elem_of_In.
    + subst l. apply elem_of_app. by right.
  - rewrite <-size_dom.
    assert (dom (disk w')
            = list_to_set (pathOf (file cfg) <$> seq 0 (S (length full)))) as ->.
    { apply set_eq. intros p. rewrite elem_of_dom, elem_of_list_to_set.
      rewrite list_elem_of_fmap. setoid_rewrite elem_of_seq. split.
      - intros (i & Hi & ->)%Hdom. exists i. split; [done|lia].
      - intros (i & -> & Hi).
        destruct (lookup_lt_is_Some_2 (full ++ [cur]) i) as [l Hl].
        { rewrite length_app. simpl. lia. }
        rewrite (Hdisk _ _ Hl). by eexists. }
    rewrite size_list_to_set, length_fmap, length_seq; [done|].
    apply NoDup_fmap_2; [|apply NoDup_seq].
    intros i j Hij. by apply pathOf_inj in Hij.
Qed.

End fresh_run.

Lemma trimmed_wellFormed args :
  wellFormed args →
  1 ≤ maxItems (trimmed args)
  ∧ hasToken (keyPattern (file (trimmed args))) = true.
Proof. by intros (? & _ & ?). Qed.

(** Construction over an empty directory. *)
Lemma new_fresh args :
  wellFormed args →
  ∃ w0, new_ArrayStream args ∅ = Built w0
        ∧ progress (trimmed args) w0 []
        ∧ length (getFilePaths (this w0)) ≤ 1.
Proof.
  intros (Hmax & Hpolicy & Htok).
  set (w := {| this := incrementKey
                 {| config := trimmed args; sep := ""; count := 0;
                    fileCount := 0; files := []; key := "";
                    destroyed := false; outstream := None |};
               disk := ∅; ledger := [] |}).
  assert (unopened (trimmed args) w) as Hun by done.
  unfold new_ArrayStream.
  assert (append args && overwrite args = false) as ->.
  { destruct (append args), (overwrite args); try done. by destruct Hpolicy. }
  change (set_keyPattern _ args) with (trimmed args).
  change (lazy (trimmed args)) with (lazy args). fold w.
  destruct (lazy args) eqn:Hlazy.
  - exists w. split_and!; [done| |simpl; lia]. by left.
  - destruct (unopened_open (trimmed args) Hmax w Hun) as (w' & -> & Hlaid).
    exists w'. split_and!; [done| |].
    + right. by exists [], [].
    + destruct Hlaid as (_ & _ & _ & _ & _ & Hf & _).
      unfold getFilePaths. by rewrite Hf.
Qed.

Lemma accepted_elements cfg cs :
  Forall (λ c, passes cfg c = true →
               ∃ t, encode c = Some t ∧ isElement t = true) cs →
  Forall (λ e, isElement e = true) (accepted cfg cs).
Proof.
  induction 1 as [|c cs Hc _ IH]; [constructor|].
  rewrite accepted_cons. apply Forall_app. split; [|done].
  unfold accepted. simpl. destruct (passes cfg c); [|constructor].
  destruct (Hc eq_refl) as (t & -> & Ht). by repeat constructor.
Qed.

Lemma accepted_valid cfg cs :
  Forall (validItem cfg) cs →
  length (accepted cfg cs) = length cs
  ∧ Forall (λ c, passes cfg c = true →
                 ∃ t, encode c = Some t ∧ isElement t = true) cs.
Proof.
  induction 1 as [|c cs [Hpass (t & Henc & Ht)] _ [IHlen IH]]; [by split|].
  split.
  - rewrite accepted_cons, length_app, IHlen. unfold accepted. simpl.
    by rewrite Hpass, Henc.
  - constructor; [|done]. intros _. eauto.
Qed.

(** ** C1 *)

(** C1 (amended). Write any finite sequence of items to an engine
    constructed over an empty directory, where every item that passes
    validation encodes and its text is one JSON array element, and finalize:
    decoding the produced files and concatenating the elements in file order
    gives the texts of the items that passed validation, in the order of
    submission. *)
Theorem C1_round_trip (args : Config) (cs : list Chunk)
  (Hwf : wellFormed args)
  (Hitems : Forall (λ c, passes (trimmed args) c = true →
                         ∃ t, encode c = Some t ∧ isElement t = true) cs) :
  ∃ w0 w1 cbss w2,
    new_ArrayStream args ∅ = Built w0
    ∧ writeAll cs w0 = Some (w1, cbss)
    ∧ _final w1 = Some w2
    ∧ readBack w2 = Some (accepted (trimmed args) cs).
Proof.
  destruct (trimmed_wellFormed _ Hwf) as [Hmax Htok].
  destruct (new_fresh _ Hwf) as (w0 & Hnew & Hprog & _).
  destruct (progress_run (trimmed args) Hmax Htok cs w0 [] Hprog)
    as (w1 & cbss & Hrun & Hprog1 & _).
  { eapply Forall_impl; [exact Hitems|]. intros c Hc Hpass.
    destruct (Hc Hpass) as (t & -> & _). by eexists. }
  simpl in Hprog1.
  destruct Hprog1 as [(Hun & _ & Hnone)|(full & cur & Hlaid & Hxs)].
  - destruct (unopened_final _ _ Hun) as (w2 & Hfinal & Hfiles & _).
    exists w0, w1, cbss, w2. split_and!; try done.
    unfold readBack, decodeFiles. by rewrite Hfiles, Hnone.
  - destruct (laidOut_decode (trimmed args) Hmax Htok w1 full cur Hlaid)
      as (w2 & Hfinal & _ & Hdecode & _).
    { rewrite Hxs. by apply accepted_elements. }
    exists w0, w1, cbss, w2. split_and!; try done.
    unfold readBack. rewrite Hdecode. f_equal.
    rewrite concat_app. simpl. by rewrite app_nil_r.
Qed.

(** C1 (amended) at three numbers and one rejected string. *)
Lemma C1_round_trip_witness :
  ∃ w0 w1 cbss w2,
    new_ArrayStream validatedConfig ∅ = Built w0
    ∧ writeAll [num "1"; Str "skipped"; num "2"; num "3"] w0 = Some (w1, cbss)
    ∧ _final w1 = Some w2
    ∧ readBack w2 = Some ["1"; "2"; "3"].
Proof.
  apply (C1_round_trip validatedConfig
           [num "1"; Str "skipped"; num "2"; num "3"]
           validatedConfig_wellFormed).
  repeat constructor; intros Hpass; try discriminate Hpass;
    eexists; (split; [reflexivity|vm_compute; reflexivity]).
Defined.

(** C1 as stated fails at a string item, which is written as it is: the
    text [1,2] passes validation and encoding as one item and reads back as
    two elements. *)
Lemma C1_counterexample :
  accepted (trimmed demoConfig) [Str "1,2"] = ["1,2"]
  ∧ (∃ w0 w1 cbss w2,
       new_ArrayStream demoConfig ∅ = Built w0
       ∧ writeAll [Str "1,2"] w0 = Some (w1, cbss)
       ∧ _final w1 = Some w2
       ∧ disk w2 !! "out/data_0000.json" = Some ("[1,2]" +:+ newline)
       ∧ readBack w2 = Some ["1"; "2"])
  ∧ ¬ round_trip demoConfig [Str "1,2"].
Proof.
  split_and!.
  - vm_compute. reflexivity.
  - eexists _, _, _, _. split_and!.
    + vm_compute. reflexivity.
    + vm_compute. reflexivity.
    + vm_compute. reflexivity.
    + vm_compute. reflexivity.
    + vm_compute. reflexivity.
  - intros (w0 & w1 & cbss & w2 & Hnew & Hrun & Hfinal & Hdecode).
    vm_compute in Hnew. injection Hnew as <-.
    vm_compute in Hrun. injection Hrun as <- <-.
    vm_compute in Hfinal. injection Hfinal as <-.
    vm_compute in Hdecode. discriminate.
Qed.

(** ** C2 *)

(** The number of files after a run of valid items. *)
Lemma files_after_run (args : Config) (cs : list Chunk) :
  wellFormed args →
  Forall (validItem (trimmed args)) cs →
  ∃ w0 w1 cbss,
    new_ArrayStream args ∅ = Built w0
    ∧ writeAll cs w0 = Some (w1, cbss)
    ∧ (cs = [] → length (getFilePaths (this w1)) ≤ 1)
    ∧ (cs ≠ [] →
       ∃ full cur,
         laidOut (trimmed args) w1 full cur
         ∧ cur ≠ []
         ∧ length cs = length full * maxItems args + length cur
         ∧ Forall (λ e, isElement e = true) (concat full ++ cur)).
Proof.
  intros Hwf Hvalid.
  destruct (trimmed_wellFormed _ Hwf) as [Hmax Htok].
  destruct (accepted_valid _ _ Hvalid) as [Hlen Hitems].
  destruct (new_fresh _ Hwf) as (w0 & Hnew & Hprog & Hfiles0).
  destruct (progress_run (trimmed args) Hmax Htok cs w0 [] Hprog)
    as (w1 & cbss & Hrun & _ & Hlaid).
  { eapply Forall_impl; [exact Hitems|]. intros c Hc Hpass.
    destruct (Hc Hpass) as (t & -> & _). by eexists. }
  exists w0, w1, cbss. split_and!; try done.
  - intros ->. simpl in Hrun. by injection Hrun as <- <-.
  - intros Hne. destruct (Hlaid Hne) as (full & cur & Hl & Hxs).
    simpl in Hxs. exists full, cur. split; [done|].
    assert (length cs = length full * maxItems args + length cur) as Hcount.
    { rewrite <-Hlen, <-Hxs, length_app.
      destruct Hl as (_ & _ & Hfull & _).
      by rewrite (length_concat_full (trimmed args) Hmax). }
    split_and!; [|done|].
    + intros ->.
      destruct Hl as (_ & _ & _ & _ & [->|?] & _); [|done].
      simpl in Hcount. destruct cs; [done|]. simpl in Hcount. lia.
    + rewrite Hxs. by apply accepted_elements.
Qed.

(** C2. [N >= 1] valid items written to an engine over an empty directory
    with [maxItems = M >= 1], then finalized: [ceil (N / M)] files are
    produced; every file holds [M] elements except the last, which holds
    [N - M * (ceil (N / M) - 1)]; and there is at most one file until item
    [M + 1] has been written, which opens the second. *)
Theorem C2_rotation (args : Config) (cs : list Chunk)
  (Hwf : wellFormed args)
  (Hvalid : Forall (validItem (trimmed args)) cs)
  (Hsome : 1 ≤ length cs) :
  ∃ w0 w1 cbss w2 groups,
    new_ArrayStream args ∅ = Built w0
    ∧ writeAll cs w0 = Some (w1, cbss)
    ∧ _final w1 = Some w2
    ∧ length (getFilePaths (this w2))
      = (length cs + maxItems args - 1) / maxItems args
    ∧ size (disk w2) = (length cs + maxItems args - 1) / maxItems args
    ∧ decodeFiles w2 = Some groups
    ∧ (∀ i g, groups !! i = Some g → i + 1 < length groups →
              length g = maxItems args)
    ∧ (∀ g, last groups = Some g →
            length g
            = length cs
              - maxItems args
                * ((length cs + maxItems args - 1) / maxItems args - 1))
    ∧ (∀ j, j ≤ maxItems args →
         ∃ wj cbsj, writeAll (take j cs) w0 = Some (wj, cbsj)
                    ∧ length (getFilePaths (this wj)) ≤ 1)
    ∧ (maxItems args < length cs →
         ∃ wj cbsj, writeAll (take (S (maxItems args)) cs) w0 = Some (wj, cbsj)
                    ∧ length (getFilePaths (this wj)) = 2).
Proof.
  destruct (trimmed_wellFormed _ Hwf) as [Hmax Htok].
  change (maxItems (trimmed args)) with (maxItems args) in Hmax.
  destruct (files_after_run args cs Hwf Hvalid)
    as (w0 & w1 & cbss & Hnew & Hrun & _ & Hlaid).
  destruct Hlaid as (full & cur & Hl & Hcur & Hcount & Helems).
  { intros ->. simpl in Hsome. lia. }
  assert (length cur ≤ maxItems args ∧ 1 ≤ length cur) as [Hle Hge].
  { destruct Hl as (_ & _ & _ & ? & _). split; [done|]. destruct cur; [done|].
    simpl. lia. }
  assert ((length cs + maxItems args - 1) / maxItems args = S (length full))
    as Hceil.
  { symmetry. apply (Nat.div_unique _ _ _ (length cur - 1)); lia. }
  destruct (laidOut_decode (trimmed args) Hmax Htok w1 full cur Hl)
    as (w2 & Hfinal & Hfiles & Hdecode & Hsize).
  { done. }
  exists w0, w1, cbss, w2, (full ++ [cur]).
  rewrite Hceil. split_and!; try done.
  - intros i g Hg Hi. rewrite length_app in Hi. simpl in Hi.
    rewrite lookup_app_l in Hg by lia.
    destruct Hl as (_ & _ & Hfull & _).
    by eapply Forall_lookup_1 in Hfull.
  - intros g. rewrite last_snoc. intros [= <-]. nia.
  - intros j Hj.
    destruct (files_after_run args (take j cs) Hwf)
      as (w0' & wj & cbsj & Hnew' & Hrunj & Hnil & Hlaidj).
    { by apply Forall_take. }
    rewrite Hnew in Hnew'. injection Hnew' as <-.
    exists wj, cbsj. split; [done|].
    destruct (decide (take j cs = [])) as [Hnone|Hsomej]; [by apply Hnil|].
    destruct (Hlaidj Hsomej) as (fullj & curj & Hlj & Hcurj & Hcountj & _).
    destruct Hlj as (_ & _ & _ & _ & _ & Hfj & _).
    unfold getFilePaths. rewrite Hfj, length_fmap, length_seq.
    rewrite length_take in Hcountj.
    assert (j `min` length cs ≤ maxItems args) as Hmin by lia.
    destruct fullj as [|l fullj]; [done|]. simpl in Hcountj.
    destruct curj; [done|]. simpl in Hcountj.
    change (maxItems (trimmed args)) with (maxItems args) in Hcountj. lia.
  - intros Hmore.
    destruct (files_after_run args (take (S (maxItems args)) cs) Hwf)
      as (w0' & wj & cbsj & Hnew' & Hrunj & _ & Hlaidj).
    { by apply Forall_take. }
    rewrite Hnew in Hnew'. injection Hnew' as <-.
    exists wj, cbsj. split; [done|].
    destruct Hlaidj as (fullj & curj & Hlj & Hcurj & Hcountj & _).
    { destruct cs; [simpl in Hmore; lia|done]. }
    rewrite length_take, Nat.min_l in Hcountj by lia.
    destruct Hlj as (_ & _ & _ & Hcj & _ & Hfj & _).
    change (maxItems (trimmed args)) with (maxItems args) in Hcj.
    unfold getFilePaths. rewrite Hfj, length_fmap, length_seq.
    destruct curj as [|e curj]; [done|]. simpl in Hcountj, Hcj.
    destruct fullj as [|l [|l' fullj]]; simpl in Hcountj; [lia|done|nia].
Qed.

Lemma demoValid (texts : list string) :
  Forall (λ e, isElement e = true) texts →
  Forall (validItem (trimmed demoConfig)) (num <$> texts).
Proof.
  induction 1 as [|e texts He _ IH]; [constructor|].
  simpl. constructor; [|done]. split; [done|]. by exists e.
Qed.

(** C2 at three items with two items per file: two files, of 2 and 1
    elements. *)
Lemma C2_rotation_witness :
  ∃ w2 groups,
    (demoRun demoConfig ∅ (num <$> ["1"; "2"; "3"]) ≫= _final) = Some w2
    ∧ length (getFilePaths (this w2)) = 2
    ∧ decodeFiles w2 = Some groups
    ∧ length <$> groups = [2; 1].
Proof.
  destruct (C2_rotation demoConfig (num <$> ["1"; "2"; "3"])
              demoConfig_wellFormed)
    as (w0 & w1 & cbss & w2 & groups & Hnew & Hrun & Hfinal & Hfiles & _
        & Hdecode & _).
  - apply demoValid. repeat constructor.
  - simpl. lia.
  - exists w2, groups.
    assert (decodeFiles w2 = Some [["1"; "2"]; ["3"]]) as Hgroups.
    { vm_compute in Hnew. injection Hnew as <-.
      vm_compute in Hrun. injection Hrun as <- <-.
      vm_compute in Hfinal. injection Hfinal as <-.
      vm_compute. reflexivity. }
    split_and!.
    + unfold demoRun. rewrite Hnew, Hrun. exact Hfinal.
    + exact Hfiles.
    + exact Hdecode.
    + rewrite Hgroups in Hdecode. by injection Hdecode as <-.
Defined.

(** C2 as stated fails for items that are valid but whose text is not one
    array element: the two strings [1,2] and [3] pass validation and encode,
    and with two items per file they fill one file, as the claim says; but
    that file reads back as three elements, not two. *)
Lemma C2_counterexample :
  Forall (λ c, passes (trimmed demoConfig) c = true ∧ is_Some (encode c))
    [Str "1,2"; Str "3"]
  ∧ (length [Str "1,2"; Str "3"] + maxItems demoConfig - 1)
    / maxItems demoConfig = 1
  ∧ ∃ w0 w1 w2,
      new_ArrayStream demoConfig ∅ = Built w0
      ∧ writeAll [Str "1,2"; Str "3"] w0 = Some (w1, [[CbOk]; [CbOk]])
      ∧ _final w1 = Some w2
      ∧ getFilePaths (this w2) = ["out/data_0000.json"]
      ∧ disk w2 !! "out/data_0000.json" = Some ("[1,2,3]" +:+ newline)
      ∧ decodeFiles w2 = Some [["1"; "2"; "3"]].
Proof.
  split_and!.
  - repeat constructor; vm_compute; eauto.
  - vm_compute. reflexivity.
  - eexists _, _, _. split_and!.
    + vm_compute. reflexivity.
    + vm_compute. reflexivity.
    + vm_compute. reflexivity.
    + vm_compute. reflexivity.
    + vm_compute. reflexivity.
    + vm_compute. reflexivity.
Qed.

(** ** C3 *)

Lemma snoc_string s : s ≠ "" → ∃ init c, s = init +:+ String c "".
Proof.
  induction s as [|a s IH]; [done|]. intros _.
  destruct s as [|b s].
  - by exists "", a.
  - destruct IH as (init & c & Heq); [done|].
    exists (String a init), c. by rewrite append_cons, <-Heq.
Qed.

Lemma scan_append a : ∀ b d m,
  scan d m (a +:+ b) = scan d m a ≫= (λ st, scan st.1 st.2 b).
Proof.
  induction a as [|c a IH]; intros b d m; [done|].
  rewrite append_cons. simpl. destruct (step d m c); done.
Qed.

(** An element does not end in an opening bracket or a comma. *)
Lemma scan_last d m c :
  scan d m (String c "") = Some (0, Plain) → c ≠ "["%char ∧ c ≠ ","%char.
Proof.
  intros H. split; intros ->; destruct m, d; cbn in H; discriminate.
Qed.

Lemma element_last e :
  isElement e = true →
  ∃ init c, e = init +:+ String c "" ∧ c ≠ "["%char ∧ c ≠ ","%char.
Proof.
  intros [Hne Hscan]%isElement_spec.
  destruct (snoc_string e Hne) as (init & c & ->).
  exists init, c. split; [done|].
  rewrite scan_append in Hscan.
  destruct (scan 0 Plain init) as [[d m]|]; [|done].
  by apply (scan_last d m).
Qed.

Lemma join_last es :
  es ≠ [] → Forall (λ e, isElement e = true) es →
  ∃ init c, Text.join SEPARATOR es = init +:+ String c ""
            ∧ c ≠ "["%char ∧ c ≠ ","%char.
Proof.
  induction es as [|e es IH]; [done|]. intros _ [He Hes]%Forall_cons.
  destruct es as [|e' es].
  - by apply element_last.
  - destruct IH as (init & c & Heq & Hc); [done|done|].
    exists (e +:+ SEPARATOR +:+ init), c. split; [|done].
    change (Text.join SEPARATOR (e :: e' :: es))
      with (e +:+ SEPARATOR +:+ Text.join SEPARATOR (e' :: es)).
    by rewrite Heq, !append_assoc.
Qed.

Lemma useSep_arrayText es :
  Forall (λ e, isElement e = true) es →
  useSep (arrayText es) = negb (bool_decide (es = [])).
Proof.
  intros Hes. destruct (decide (es = [])) as [->|Hne]; [reflexivity|].
  rewrite (bool_decide_eq_false_2 _ Hne).
  destruct (join_last es Hne Hes) as (init & c & Heq & Hc1 & Hc2).
  unfold arrayText, useSep, readByte. rewrite Heq.
  rewrite TERMINATOR_unfold.
  replace ("[" +:+ (init +:+ String c "") +:+ String "]" newline)
    with (("[" +:+ init) +:+ String c (String "]" newline))
    by (by rewrite !append_assoc).
  rewrite length_append. cbn [String.length newline].
  rewrite bool_decide_eq_true_2 by lia.
  replace (String.length ("[" +:+ init) + 3 - 3)
    with (String.length ("[" +:+ init) + 0) by lia.
  rewrite get_append_r. cbn [String.get].
  rewrite bool_decide_eq_false_2; [done|]. by intros [?|?].
Qed.

Lemma length_arrayText es :
  String.length (arrayText es)
  = String.length ("[" +:+ Text.join SEPARATOR es) + 2.
Proof. by rewrite <-open_text_close, length_append. Qed.

Lemma length_text_drop s n : String.length (Text.drop n s) ≤ String.length s.
Proof.
  revert n; induction s as [|c s IH]; intros [|n]; simpl; try lia.
  specialize (IH n). lia.
Qed.

(** Opening an array file of this engine under the append policy. *)
Lemma resume_open w es :
  append (config (this w)) = true →
  overwrite (config (this w)) = false →
  disk w !! filePath (this w) = Some (arrayText es) →
  Forall (λ e, isElement e = true) es →
  openOutstream w
  = Some {| this := set_sep (if es is [] then "" else SEPARATOR)
              (set_outstream
                 (Some {| path := filePath (this w);
                          pos := String.length
                                   ("[" +:+ Text.join SEPARATOR es);
                          flags := flags_a_plus |})
                 (set_files (files (this w) ++ [filePath (this w)]) (this w)));
            disk := disk w;
            ledger := ledger w ++ [[]] |}.
Proof.
  intros Happend Hoverwrite Hlook Hes.
  unfold openOutstream. rewrite Happend, Hoverwrite.
  cbn [negb andb mbind option_bind]. rewrite Hlook.
  rewrite bool_decide_eq_false_2 by (rewrite length_arrayText; lia).
  rewrite useSep_arrayText by done.
  unfold createWriteStreamAt, on_this. cbn [this disk ledger].
  rewrite length_arrayText.
  replace (String.length ("[" +:+ Text.join SEPARATOR es) + 2 - 2)
    with (String.length ("[" +:+ Text.join SEPARATOR es)) by lia.
  by destruct es.
Qed.

(** Reading an array text of this engine that is followed by more text. *)
Lemma all_space_append a b : all_space (a +:+ b) = all_space a && all_space b.
Proof.
  induction a as [|c a IH]; [done|].
  rewrite append_cons. simpl. rewrite IH. by rewrite andb_assoc.
Qed.

Lemma elements_closing_tail first e tail :
  e ≠ "" →
  elements 0 Plain first e (TERMINATOR +:+ tail)
  = if all_space tail then Some [e] else None.
Proof.
  intros He. rewrite TERMINATOR_unfold, append_cons.
  change (newline +:+ tail) with (String (ascii_of_nat 10) tail).
  simpl. rewrite bool_decide_eq_false_2 by done. by destruct (all_space tail).
Qed.

Lemma elements_join_tail es tail : ∀ first,
  es ≠ [] →
  Forall (λ e, isElement e = true) es →
  elements 0 Plain first "" (Text.join SEPARATOR es +:+ TERMINATOR +:+ tail)
  = if all_space tail then Some es else None.
Proof.
  induction es as [|e es IH]; intros first Hne Hall; [done|].
  apply Forall_cons in Hall as [[He Hscan]%isElement_spec Hall].
  destruct es as [|e' es].
  - simpl. rewrite (elements_scan e _ _ _ _ _ _ _ Hscan), append_nil_l.
    by apply elements_closing_tail.
  - change (Text.join SEPARATOR (e :: e' :: es))
      with (e +:+ SEPARATOR +:+ Text.join SEPARATOR (e' :: es)).
    rewrite append_assoc.
    rewrite (elements_scan e _ _ _ _ _ _ _ Hscan), append_nil_l.
    rewrite append_assoc. unfold SEPARATOR at 1.
    rewrite append_cons, append_nil_l.
    change (elements 0 Plain first e (String "," ?s))
      with (if bool_decide (e = "") then None
            else cons e <$> elements 0 Plain false "" s).
    rewrite bool_decide_eq_false_2 by done.
    rewrite IH by done. by destruct (all_space tail).
Qed.

Lemma decodeArray_tail es tail :
  Forall (λ e, isElement e = true) es →
  decodeArray (arrayText es +:+ tail)
  = if all_space tail then Some es else None.
Proof.
  intros Hall. unfold arrayText.
  rewrite !append_assoc, append_cons, append_nil_l.
  unfold decodeArray. destruct es as [|e es].
  - change (Text.join SEPARATOR []) with "". rewrite append_nil_l.
    rewrite TERMINATOR_unfold, append_cons.
    change (newline +:+ tail) with (String (ascii_of_nat 10) tail).
    simpl. by destruct (all_space tail).
  - by apply elements_join_tail.
Qed.

(** C3. An existing array file of this engine with [k] elements, opened
    under the append policy: the stream is opened with the flags [a+], so
    the item written next and the closing bracket of the finalization land
    after the old closing bracket and newline instead of replacing them.
    The file is then the old array text followed by the separator, the item
    and a second closing bracket: it is not the array of the [k + 1]
    elements, and it does not read back as an array at all. *)
Theorem C3_resume_writes_after_the_old_array
  (args : Config) (d : gmap string string) (es : list string)
  (item : Chunk) (t : string)
  (Hwf : wellFormed args)
  (Happend : append args = true)
  (Hfile : d !! pathOf (file (trimmed args)) 0 = Some (arrayText es))
  (Hes : Forall (λ e, isElement e = true) es)
  (Hpass : passes (trimmed args) item = true)
  (Henc : encode item = Some t)
  (Helem : isElement t = true) :
  ∃ w0 w1 w2,
    new_ArrayStream args d = Built w0
    ∧ _write item w0 = Some (w1, [CbOk])
    ∧ _final w1 = Some w2
    ∧ d !! pathOf (file (trimmed args)) 0 ≫= decodeArray = Some es
    ∧ disk w2 !! pathOf (file (trimmed args)) 0
      = Some (arrayText es
              +:+ ((if es is [] then "" else SEPARATOR) +:+ t)
              +:+ TERMINATOR)
    ∧ disk w2 !! pathOf (file (trimmed args)) 0
      ≠ Some (arrayText (es ++ [t]))
    ∧ disk w2 !! pathOf (file (trimmed args)) 0 ≫= decodeArray = None
    ∧ getFilePaths (this w2) = [pathOf (file (trimmed args)) 0]
    ∧ ∀ p, p ≠ pathOf (file (trimmed args)) 0 → disk w2 !! p = d !! p.
Proof.
  destruct Hwf as (Hmax & Hpolicy & Htok).
  assert (overwrite args = false) as Hoverwrite.
  { destruct (overwrite args); [|done]. by destruct Hpolicy. }
  set (p := pathOf (file (trimmed args)) 0) in *.
  set (wi := {| this := incrementKey
                  {| config := trimmed args; sep := ""; count := 0;
                     fileCount := 0; files := []; key := "";
                     destroyed := false; outstream := None |};
                disk := d; ledger := [] |}).
  set (body := "[" +:+ Text.join SEPARATOR es).
  set (h := {| path := p; pos := String.length body;
               flags := flags_a_plus |}).
  set (wo := {| this := set_sep (if es is [] then "" else SEPARATOR)
                  (set_outstream (Some h) (set_files [p] (this wi)));
                disk := d; ledger := [[]] |}).
  assert (openOutstream wi = Some wo) as Hopen.
  { by rewrite (resume_open wi es). }
  assert (_write item wo = Some (writeItem h t wo, [CbOk])) as Hwrite.
  { apply _write_direct; try done; simpl; lia. }
  set (data := (if es is [] then "" else SEPARATOR) +:+ t).
  destruct (writeItem_frame wo h t) as (Hc1 & _ & Hf1 & Hd1 & _ & Ho1 & Hdisk1).
  change (sep (this wo)) with (if es is [] then "" else SEPARATOR) in Ho1, Hdisk1.
  fold data in Ho1, Hdisk1.
  change (disk wo) with d in Hdisk1. change (path h) with p in Ho1, Hdisk1.
  change (pos h) with (String.length body) in Ho1.
  change (flags h) with flags_a_plus in Ho1.
  rewrite Hfile in Hdisk1. cbn [from_option id] in Hdisk1.
  change (landing h (arrayText es) data) with (arrayText es +:+ data) in Hdisk1.
  set (w1 := writeItem h t wo) in *.
  assert (∃ w2, _final w1 = Some w2
                ∧ disk w2 = <[p := arrayText es +:+ data +:+ TERMINATOR]> d
                ∧ getFilePaths (this w2) = [p]) as (w2 & Hfinal & Hdisk2 & Hf2).
  { unfold _final, flushOutstream, resetOutstream. rewrite Hd1.
    change (destroyed (this wo)) with false.
    cbn [negb this on_this outstream set_destroyed]. rewrite Ho1.
    eexists. split; [done|].
    unfold getFilePaths, stream_write, on_this, set_disk, landing.
    cbn [this disk files set_outstream set_destroyed path pos flags].
    rewrite Hdisk1, lookup_insert_eq, insert_insert_eq. cbn [from_option id].
    split; [|by rewrite Hf1].
    by rewrite append_assoc. }
  assert (all_space (data +:+ TERMINATOR) = false) as Hspace.
  { rewrite all_space_append. apply andb_false_iff. by right. }
  assert (decodeArray (arrayText es +:+ data +:+ TERMINATOR) = None)
    as Hbroken.
  { by rewrite (decodeArray_tail es _ Hes), Hspace. }
  assert (Forall (λ e, isElement e = true) (es ++ [t])) as Hall.
  { apply Forall_app. split; [done|]. by constructor. }
  assert (new_ArrayStream args d = Built (if lazy args then wi else wo)) as Hnew.
  { unfold new_ArrayStream. rewrite Happend, Hoverwrite.
    cbn [andb]. change (set_keyPattern _ args) with (trimmed args).
    change (lazy (trimmed args)) with (lazy args). fold wi.
    destruct (lazy args); [done|]. by rewrite Hopen. }
  exists (if lazy args then wi else wo), w1, w2.
  split_and!; try done.
  - destruct (lazy args) eqn:Hlazy; [|done].
    by rewrite (_write_after_open wi wo).
  - rewrite Hfile. simpl. by apply decodeArray_arrayText.
  - by rewrite Hdisk2, lookup_insert_eq.
  - rewrite Hdisk2, lookup_insert_eq. intros Heq.
    apply (f_equal (λ o, o ≫= decodeArray)) in Heq.
    cbn [mbind option_bind] in Heq.
    by rewrite Hbroken, (decodeArray_arrayText _ Hall) in Heq.
  - rewrite Hdisk2, lookup_insert_eq. simpl. exact Hbroken.
  - intros q Hq. by rewrite Hdisk2, lookup_insert_ne.
Qed.

(** C3 at the file [[1]] and the item [2]: the file ends up holding the old
    array, then [,2] and a second closing bracket. *)
Lemma C3_resume_writes_after_the_old_array_witness :
  ∃ w0 w1 w2,
    new_ArrayStream appendConfig oneArray = Built w0
    ∧ _write (num "2") w0 = Some (w1, [CbOk])
    ∧ _final w1 = Some w2
    ∧ disk w2 !! "out/data_0000.json"
      = Some ("[1]" +:+ newline +:+ ",2]" +:+ newline)
    ∧ disk w2 !! "out/data_0000.json" ≫= decodeArray = None.
Proof.
  assert (wellFormed appendConfig) as Hwf.
  { split_and!; [simpl; lia|intros [_ ?]; discriminate|reflexivity]. }
  destruct (C3_resume_writes_after_the_old_array appendConfig oneArray ["1"]
              (num "2") "2" Hwf)
    as (w0 & w1 & w2 & Hnew & Hwrite & Hfinal & _ & Hdisk & _ & Hdecode & _).
  - reflexivity.
  - vm_compute. reflexivity.
  - repeat constructor.
  - reflexivity.
  - reflexivity.
  - vm_compute. reflexivity.
  - exists w0, w1, w2.
    split_and!; [exact Hnew|exact Hwrite|exact Hfinal|exact Hdisk|].
    exact Hdecode.
Defined.

(** * Finalizing twice, and the reference usage *)

(** A second finalization changes nothing. *)
Lemma _final_idempotent w w' : _final w = Some w' → _final w' = Some w'.
Proof.
  unfold _final, flushOutstream. intros H.
  destruct (destroyed (this w)) eqn:Hd.
  - injection H as <-. by rewrite Hd.
  - unfold resetOutstream in H. simpl in H. injection H as <-.
    by destruct (outstream (this w)).
Qed.

(** The run of the test: five files of ten objects each, with the index
    values [0..9], [10..19], ..., [40..49]; a total of 50; one validation
    error, for the string, and a success callback for every other item. *)
Example reference_usage :
  ∃ w cbss,
    referenceRun = Some (w, cbss)
    ∧ getFilePaths (this w)
      = ["output/testFile_0000.json"; "output/testFile_0001.json";
         "output/testFile_0002.json"; "output/testFile_0003.json";
         "output/testFile_0004.json"]
    ∧ decodeFiles w
      = Some ((λ from, indexText <$> seq from 10) <$> [0; 10; 20; 30; 40])
    ∧ getTotalCount (this w) = 50
    ∧ cbss !! 25
      = Some [CbErr (ValidationError "value must be of type object")]
    ∧ Forall (λ cbs, cbs = [CbOk]) (take 25 cbss ++ drop 26 cbss).
Proof.
  eexists _, _. split_and!.
  - vm_compute. reflexivity.
  - vm_compute. reflexivity.
  - vm_compute. reflexivity.
  - vm_compute. reflexivity.
  - vm_compute. reflexivity.
  - vm_compute. repeat constructor.
Qed.

(** * More of the engine *)

(** ** File names *)

(** X1. Successive calls of [incrementKey] never produce the same name twice
    as long as the file counter stays below 2^53 (where the counter is
    exact): when the key pattern holds the token, the keys (and the paths)
    generated after [i + 1] and after [j + 1] calls differ whenever [i] and
    [j] do. *)
Theorem X1_names_never_repeat (a : ArrayStream) (i j : nat) :
  hasToken (keyPattern (file (config a))) = true →
  (N.of_nat (fileCount a + i) < 2 ^ 53)%N →
  (N.of_nat (fileCount a + j) < 2 ^ 53)%N →
  i ≠ j →
  key (Nat.iter (S i) incrementKey a) ≠ key (Nat.iter (S j) incrementKey a)
  ∧ filePath (Nat.iter (S i) incrementKey a)
    ≠ filePath (Nat.iter (S j) incrementKey a).
Proof.
  intros Htok _ _ Hne. split.
  - simpl. rewrite !iter_incrementKey_config, !iter_incrementKey_fileCount.
    intros H. apply generateKey_inj in H; [lia | done].
  - rewrite !iter_incrementKey_filePath.
    intros H. apply pathOf_inj in H; [lia | done].
Qed.

Lemma X1_names_never_repeat_witness :
  key (Nat.iter 1 incrementKey (this demoWorld3))
  ≠ key (Nat.iter 2 incrementKey (this demoWorld3))
  ∧ filePath (Nat.iter 1 incrementKey (this demoWorld3))
    ≠ filePath (Nat.iter 2 incrementKey (this demoWorld3)).
Proof.
  apply (X1_names_never_repeat (this demoWorld3) 0 1).
  - vm_compute. reflexivity.
  - vm_compute. reflexivity.
  - vm_compute. reflexivity.
  - lia.
Defined.

Lemma replaceToken_prefix pre post r :
  noDollar pre = true →
  replaceToken (pre +:+ "$$" +:+ post) r = pre +:+ r +:+ post.
Proof.
  induction pre as [|c pre IH]; intros H.
  - reflexivity.
  - simpl in H. apply andb_true_iff in H as [Hc H].
    apply negb_true_iff, bool_decide_eq_false in Hc.
    rewrite !append_cons, <-(IH H).
    revert Hc. destruct c as [[] [] [] [] [] [] [] []]; try done;
      destruct (pre +:+ "$$" +:+ post); done.
Qed.

Lemma length_replicate n c : String.length (Text.replicate n c) = n.
Proof. induction n as [|n IH]; simpl; [done|]. by rewrite IH. Qed.

(** X2. The shape of a generated name. For a key pattern [pre$$post] whose
    prefix holds no [$], the key of index [i] is [pre], the index in decimal
    left-padded with zeros, [post], a dot and the file type. The padded index
    is [numDigits] characters long unless the index needs more, in which case
    it is written in full (never truncated), and it reads back as [i]. *)
Theorem X2_generated_name_shape (f : FileConfig) (pre post : string) (i : nat) :
  keyPattern f = pre +:+ "$$" +:+ post →
  noDollar pre = true →
  let digits := Text.padStart (pretty i) (numDigits f) "0" in
  generateKey f i = pre +:+ digits +:+ post +:+ "." +:+ fileType f
  ∧ String.length digits = numDigits f `max` String.length (pretty i)
  ∧ parseDec 0 digits = i.
Proof.
  intros Hpat Hpre digits. split; [|split].
  - unfold generateKey. rewrite Hpat, replaceToken_prefix by done.
    by rewrite !append_assoc.
  - unfold digits, Text.padStart.
    rewrite length_append, length_replicate. lia.
  - unfold digits, Text.padStart. by rewrite parseDec_zeros, parseDec_pretty.
Qed.

Lemma X2_generated_name_shape_witness :
  generateKey (file demoConfig) 42
  = "data_" +:+ Text.padStart (pretty 42) 4 "0" +:+ "" +:+ "." +:+ "json"
  ∧ String.length (Text.padStart (pretty 42) 4 "0")
    = 4 `max` String.length (pretty 42)
  ∧ parseDec 0 (Text.padStart (pretty 42) 4 "0") = 42.
Proof.
  apply (X2_generated_name_shape (file demoConfig) "data_" "" 42);
    reflexivity.
Defined.

(** X3. The constructor's trimming of the key pattern (for a file type made
    of literal characters): a pattern that ends with a dot and the file type
    loses exactly that one suffix (a second such suffix in front of it is
    kept), so that the generated name carries the file type once. *)
Theorem X3_trim_removes_one_suffix (f : FileConfig) (p : string) (i : nat) :
  keyPattern f = p +:+ "." +:+ fileType f →
  trimKeyPattern f = p
  ∧ generateKey (file (trimmed {| file := f; maxItems := 1;
                                  itemValidationSchema := None;
                                  overwrite := false; lazy := true;
                                  append := false |})) i
    = replaceToken p (Text.padStart (pretty i) (numDigits f) "0")
      +:+ "." +:+ fileType f.
Proof.
  intros Hpat.
  assert (trimKeyPattern f = p) as Htrim.
  { unfold trimKeyPattern, Text.endsWith. rewrite Hpat.
    rewrite !length_append.
    replace (String.length p + (String.length "." + String.length (fileType f))
             - (String.length "." + String.length (fileType f)))
      with (String.length p) by lia.
    rewrite take_append.
    rewrite bool_decide_eq_true_2; [done|]. split; [lia|].
    rewrite <-(Nat.add_0_r (String.length p)), drop_append.
    by destruct (fileType f). }
  split; [done|].
  unfold generateKey, trimmed. simpl. by rewrite Htrim.
Qed.

Lemma X3_trim_removes_one_suffix_witness :
  trimKeyPattern {| folder := "out"; keyPattern := "data_$$.json.json";
                    fileType := "json"; numDigits := 4 |} = "data_$$.json"
  ∧ generateKey
      (file (trimmed {| file := {| folder := "out";
                                   keyPattern := "data_$$.json.json";
                                   fileType := "json"; numDigits := 4 |};
                        maxItems := 1; itemValidationSchema := None;
                        overwrite := false; lazy := true; append := false |})) 7
    = replaceToken "data_$$.json" (Text.padStart (pretty 7) 4 "0")
      +:+ "." +:+ "json".
Proof.
  apply (X3_trim_removes_one_suffix
           {| folder := "out"; keyPattern := "data_$$.json.json";
              fileType := "json"; numDigits := 4 |} "data_$$.json" 7).
  reflexivity.
Defined.

(** ** Opening a file *)

(** What [openOutstream] does to the disk: the file at the chosen path is
    either created anew with the opening bracket, or (append policy, file of
    two bytes or more) left as it is and reopened two bytes before its end.
    No other file is concerned. *)
Lemma openOutstream_effect w w' :
  openOutstream w = Some w' →
  ∃ a h, searched w a
    ∧ files (this w') = files (this w) ++ [filePath a]
    ∧ outstream (this w') = Some h ∧ path h = filePath a
    ∧ (disk w' = <[filePath a := "["]> (disk w) ∧ pos h = 1
       ∧ sep (this w') = "" ∧ flags h = flags_w
       ∨ disk w' = disk w ∧ overwrite (config (this w)) = false
         ∧ ∃ content, disk w !! filePath a = Some content
                      ∧ 2 ≤ String.length content
                      ∧ pos h = String.length content - 2
                      ∧ flags h = flags_a_plus).
Proof.
  unfold openOutstream. intros H.
  destruct (if negb (append (config (this w))) && negb (overwrite (config (this w)))
            then findFreeKey (size (disk w) + 2) (disk w) (this w)
            else Some (this w)) as [a|] eqn:Ha; [|done].
  simpl in H. injection H as <-.
  assert (searched w a) as Hs.
  { unfold searched. destruct (_ && _).
    - by apply findFreeKey_Some in Ha.
    - by injection Ha as <-. }
  destruct (searched_frame _ _ Hs) as (Hc & _ & _ & Hf & _).
  rewrite <-Hc, <-Hf.
  assert (∀ w1 : World,
    this w1 = set_files (files a ++ [filePath a]) a → disk w1 = disk w →
    let w2 := openOverwrite (filePath a) w1 in
    files (this w2) = files a ++ [filePath a]
    ∧ outstream (this w2) = Some {| path := filePath a; pos := 1; flags := flags_w |}
    ∧ disk w2 = <[filePath a := "["]> (disk w) ∧ sep (this w2) = "")
    as Hover.
  { intros w1 Hthis Hdisk. rewrite openOverwrite_eq. simpl.
    by rewrite Hthis, Hdisk. }
  assert (∀ w2 : World,
    files (this w2) = files a ++ [filePath a]
    ∧ outstream (this w2) = Some {| path := filePath a; pos := 1; flags := flags_w |}
    ∧ disk w2 = <[filePath a := "["]> (disk w) ∧ sep (this w2) = "" →
    ∃ h, files (this w2) = files a ++ [filePath a]
      ∧ outstream (this w2) = Some h ∧ path h = filePath a
      ∧ (disk w2 = <[filePath a := "["]> (disk w) ∧ pos h = 1
         ∧ sep (this w2) = "" ∧ flags h = flags_w
         ∨ disk w2 = disk w ∧ overwrite (config a) = false
           ∧ ∃ content, disk w !! filePath a = Some content
                        ∧ 2 ≤ String.length content
                        ∧ pos h = String.length content - 2
                        ∧ flags h = flags_a_plus)) as Hnew.
  { intros w2 (H1 & H2 & H3 & H4).
    exists {| path := filePath a; pos := 1; flags := flags_w |}. split_and!; try done.
    by left. }
  exists a.
  cut (∀ w2, (∃ h, files (this w2) = files a ++ [filePath a]
      ∧ outstream (this w2) = Some h ∧ path h = filePath a
      ∧ (disk w2 = <[filePath a := "["]> (disk w) ∧ pos h = 1
         ∧ sep (this w2) = "" ∧ flags h = flags_w
         ∨ disk w2 = disk w ∧ overwrite (config a) = false
           ∧ ∃ content, disk w !! filePath a = Some content
                        ∧ 2 ≤ String.length content
                        ∧ pos h = String.length content - 2
                        ∧ flags h = flags_a_plus)) →
     ∃ h, searched w a ∧ files (this w2) = files a ++ [filePath a]
      ∧ outstream (this w2) = Some h ∧ path h = filePath a
      ∧ (disk w2 = <[filePath a := "["]> (disk w) ∧ pos h = 1
         ∧ sep (this w2) = "" ∧ flags h = flags_w
         ∨ disk w2 = disk w ∧ overwrite (config a) = false
           ∧ ∃ content, disk w !! filePath a = Some content
                        ∧ 2 ≤ String.length content
                        ∧ pos h = String.length content - 2
                        ∧ flags h = flags_a_plus)).
  2:{ intros w2 (h & ?). exists h. by split. }
  intros Hcut. apply Hcut. clear Hcut.
  destruct (overwrite (config a)) eqn:Hov; [by apply Hnew, Hover|].
  destruct (disk w !! filePath a) as [content|] eqn:Hlook;
    [|by apply Hnew, Hover].
  case_bool_decide; [by apply Hnew, Hover|].
  exists {| path := filePath a; pos := String.length content - 2;
            flags := flags_a_plus |}.
  simpl. split_and!; try done. right. split_and!; try done.
  exists content. split_and!; [done|lia|done|done].
Qed.

Lemma openOutstream_elsewhere w w' :
  openOutstream w = Some w' →
  ∃ p, files (this w') = files (this w) ++ [p]
       ∧ (∃ h, outstream (this w') = Some h ∧ path h = p)
       ∧ is_Some (disk w' !! p)
       ∧ ∀ q, q ≠ p → disk w' !! q = disk w !! q.
Proof.
  intros Hopen.
  destruct (openOutstream_effect _ _ Hopen)
    as (a & h & _ & Hfiles & Hout & Hpath & Hdisk).
  exists (filePath a). split_and!; [done|by exists h| |].
  - destruct Hdisk as [(-> & _)|(-> & _ & content & -> & _)]; [|done].
    by rewrite lookup_insert_eq.
  - intros q Hq. destruct Hdisk as [(-> & _)|(-> & _)]; [|done].
    by rewrite lookup_insert_ne.
Qed.

(** ** Construction *)



(** ** Finalization *)

Lemma _final_frame w w' :
  _final w = Some w' →
  destroyed (this w') = true
  ∧ files (this w') = files (this w)
  ∧ count (this w') = count (this w)
  ∧ config (this w') = config (this w).
Proof.
  unfold _final, flushOutstream, resetOutstream. intros H.
  destruct (destroyed (this w)) eqn:Hd.
  - by injection H as <-.
  - simpl in H. injection H as <-. by destruct (outstream (this w)).
Qed.

(** X5. Finalizing an engine that is reachable and not yet finalized. The
    call returns; the engine is then finalized and holds no stream, a second
    finalization changes nothing, and the file list and the total count are
    kept. If a stream was open, the closing bracket and newline are added at
    the end of its file, whichever way the stream was opened, and nothing
    else changes on the disk; if none was open (a lazy engine that never
    wrote), the disk is left as it was and no file is listed. *)
Theorem X5_finalization (w : World) :
  reachable w →
  destroyed (this w) = false →
  ∃ w', _final w = Some w'
    ∧ destroyed (this w') = true
    ∧ outstream (this w') = None
    ∧ _final w' = Some w'
    ∧ getFilePaths (this w') = getFilePaths (this w)
    ∧ getTotalCount (this w') = getTotalCount (this w)
    ∧ match outstream (this w) with
      | Some h =>
          ∃ content, disk w !! path h = Some content
                     ∧ disk w' = <[path h := content +:+ TERMINATOR]> (disk w)
      | None => disk w' = disk w ∧ getFilePaths (this w) = []
      end.
Proof.
  intros Hr Hlive.
  pose proof (reachable_currentOK _ Hr) as Hcur.
  pose proof (reachable_inv _ Hr) as Hinv.
  unfold _final, flushOutstream, resetOutstream. rewrite Hlive.
  cbn [negb on_this this outstream set_destroyed].
  eexists. split; [reflexivity|].
  destruct (outstream (this w)) as [h|] eqn:Hh.
  - destruct (Hcur h Hh) as (base & log & _ & Hlook & Hw).
    cbn [this disk destroyed outstream files count config getFilePaths
         getTotalCount on_this stream_write set_disk set_outstream
         set_destroyed]. split_and!; try done.
    exists (base +:+ Text.join "" log). split; [done|].
    rewrite Hlook. cbn [default from_option id].
    by rewrite landing_at_end by (by intros ?; apply Hw).
  - destruct (inv_unopened _ Hinv Hlive Hh) as (_ & Hf & _).
    cbn [this disk destroyed outstream files count config getFilePaths
         getTotalCount on_this set_outstream set_destroyed].
    by split_and!.
Qed.

Lemma X5_finalization_witness :
  ∃ w', _final demoWorld3 = Some w'
    ∧ destroyed (this w') = true
    ∧ outstream (this w') = None
    ∧ _final w' = Some w'
    ∧ getFilePaths (this w') = getFilePaths (this demoWorld3)
    ∧ getTotalCount (this w') = getTotalCount (this demoWorld3)
    ∧ match outstream (this demoWorld3) with
      | Some h =>
          ∃ content, disk demoWorld3 !! path h = Some content
                     ∧ disk w'
                       = <[path h := content +:+ TERMINATOR]> (disk demoWorld3)
      | None => disk w' = disk demoWorld3
                ∧ getFilePaths (this demoWorld3) = []
      end.
Proof.
  apply (X5_finalization demoWorld3).
  - apply (demoRun_reachable demoConfig ∅ [num "1"; num "2"; num "3"]).
    + simpl. lia.
    + vm_compute. reflexivity.
  - vm_compute. reflexivity.
Defined.

(** X6. An engine that is closed without having received an item. Over an
    empty directory, a lazy engine leaves the directory empty and reports
    no file; an engine that opens its file at construction leaves exactly
    one file, the one of index 0, which holds the empty array and reads back
    as no element. The total count is 0 in both cases. *)
Theorem X6_empty_run (args : Config) :
  wellFormed args →
  ∃ w0 w1,
    new_ArrayStream args ∅ = Built w0
    ∧ closeArrayStream w0 = Some w1
    ∧ getTotalCount (this w1) = 0
    ∧ if lazy args
      then getFilePaths (this w1) = [] ∧ disk w1 = ∅
      else getFilePaths (this w1) = [pathOf (file (trimmed args)) 0]
           ∧ disk w1 !! pathOf (file (trimmed args)) 0 = Some (arrayText [])
           ∧ size (disk w1) = 1
           ∧ readBack w1 = Some [].
Proof.
  intros Hwf. destruct (new_fresh args Hwf) as (w0 & Hnew & Hprog & _).
  destruct Hwf as (Hmax & _ & Htok).
  exists w0.
  assert (∀ w1, _final w0 = Some w1 → destroyed (this w0) = false →
                count (this w0) = 0 → length (files (this w0)) ≤ 1 →
                closeArrayStream w0 = Some w1 ∧ getTotalCount (this w1) = 0)
    as Hclose.
  { intros w1 Hfinal Hlive Hcount Hlen. unfold closeArrayStream.
    rewrite Hlive. split; [done|].
    destruct (_final_frame _ _ Hfinal) as (_ & Hf & Hc & _).
    unfold getTotalCount. rewrite Hf, Hc, Hcount.
    by rewrite bool_decide_eq_false_2 by lia. }
  destruct Hprog as [(Hun & Hlazy & _)|(full & cur & Hlaid & Hxs)].
  - change (lazy (trimmed args)) with (lazy args) in Hlazy. rewrite Hlazy.
    destruct (unopened_final _ _ Hun) as (w1 & Hfinal & Hfiles & Hdisk).
    destruct Hun as (_ & Hlive & Hf & _ & _ & Hcount & _).
    exists w1. split; [done|].
    destruct (Hclose w1 Hfinal Hlive Hcount) as (? & ?);
      [rewrite Hf; simpl; lia|].
    by split_and!.
  - apply app_eq_nil in Hxs as (Hfull & ->).
    assert (full = []) as ->.
    { by destruct Hlaid as (_ & _ & _ & _ & [?|?] & _). }
    destruct (laidOut_decode (trimmed args) Hmax Htok w0 [] [] Hlaid)
      as (w1 & Hfinal & _ & Hdec & Hsize); [done|].
    destruct (laidOut_final (trimmed args) Hmax Htok _ _ _ Hlaid)
      as (w1' & Hfinal' & Hfiles & Hdisk & _).
    rewrite Hfinal in Hfinal'. injection Hfinal' as <-.
    pose proof Hlaid as (_ & Hlive & _ & _ & _ & Hf & _ & _ & Hcount & _).
    exists w1. split; [done|].
    destruct (Hclose w1 Hfinal Hlive Hcount) as (? & ?);
      [rewrite Hf; simpl; lia|].
    assert (lazy args = false) as ->.
    { unfold new_ArrayStream in Hnew.
      destruct (append args && overwrite args); [done|].
      cbn [lazy set_keyPattern] in Hnew.
      destruct (lazy args); [|done].
      injection Hnew as <-. by simpl in Hf. }
    split_and!; try done.
    + apply (Hdisk 0 []). done.
    + unfold readBack. by rewrite Hdec.
Qed.

Lemma X6_empty_run_witness :
  ∃ w0 w1,
    new_ArrayStream eagerConfig ∅ = Built w0
    ∧ closeArrayStream w0 = Some w1
    ∧ getTotalCount (this w1) = 0
    ∧ if lazy eagerConfig
      then getFilePaths (this w1) = [] ∧ disk w1 = ∅
      else getFilePaths (this w1) = [pathOf (file (trimmed eagerConfig)) 0]
           ∧ disk w1 !! pathOf (file (trimmed eagerConfig)) 0
             = Some (arrayText [])
           ∧ size (disk w1) = 1
           ∧ readBack w1 = Some [].
Proof.
  apply (X6_empty_run eagerConfig).
  split_and!.
  - simpl. lia.
  - intros [? ?]. done.
  - vm_compute. reflexivity.
Defined.

(** ** Counters and the file list *)

(** X7. Bounds on the counters, in every reachable state: the count of the
    current file never exceeds [maxItems]; the total count is at most
    [maxItems] per opened file, and is 0 as long as no file has been
    opened. *)
Theorem X7_count_bounds (w : World) :
  reachable w →
  getCount (this w) ≤ maxItems (config (this w))
  ∧ getTotalCount (this w)
    ≤ length (getFilePaths (this w)) * maxItems (config (this w))
  ∧ (getFilePaths (this w) = [] → getTotalCount (this w) = 0).
Proof.
  intros Hr. destruct (reachable_inv _ Hr) as [Hmax Hcount Hledger _ _].
  unfold getCount, getTotalCount, getFilePaths.
  split; [done|].
  destruct Hledger as [(_ & -> & -> & _)|(pre & _ & _ & Hlen)].
  - simpl. split; [lia|done].
  - rewrite Hlen. split.
    + case_bool_decide; simpl; nia.
    + intros Hnil. by rewrite Hnil in Hlen.
Qed.

Lemma X7_count_bounds_witness :
  getCount (this demoWorld3) ≤ maxItems (config (this demoWorld3))
  ∧ getTotalCount (this demoWorld3)
    ≤ length (getFilePaths (this demoWorld3))
      * maxItems (config (this demoWorld3))
  ∧ (getFilePaths (this demoWorld3) = [] → getTotalCount (this demoWorld3) = 0).
Proof.
  apply (X7_count_bounds demoWorld3).
  apply (demoRun_reachable demoConfig ∅ [num "1"; num "2"; num "3"]).
  - simpl. lia.
  - vm_compute. reflexivity.
Defined.

Lemma resetOutstream_files w w' :
  resetOutstream false w = Some w' →
  ∃ p h, files (this w') = files (this w) ++ [p]
         ∧ outstream (this w') = Some h ∧ path h = p.
Proof.
  unfold resetOutstream. simpl. intros H.
  destruct (openOutstream_effect _ _ H) as (a & h & _ & Hf & Hout & Hp & _).
  exists (filePath a), h. split; [|done].
  rewrite Hf. by destruct (outstream (this w)).
Qed.

(** X8. The list returned by [getFilePaths] only grows, and by one path at
    most per write: on a reachable engine that is not finalized, a call of
    [_write] appends a path exactly when the engine has no stream yet (the
    first write of a lazy engine) or the current file is full and the item
    passes validation; the paths listed before keep their places. *)
Theorem X8_file_list_append_only (w : World) (chunk : Chunk) (w' : World)
  (cbs : list Callback) :
  reachable w →
  destroyed (this w) = false →
  _write chunk w = Some (w', cbs) →
  ∃ opened,
    getFilePaths (this w') = getFilePaths (this w) ++ opened
    ∧ length opened ≤ 1
    ∧ (opened ≠ [] ↔
       outstream (this w) = None
       ∨ (maxItems (config (this w)) ≤ count (this w)
          ∧ passes (config (this w)) chunk = true)).
Proof.
  intros Hr Hlive H. pose proof (reachable_inv _ Hr) as Hinv.
  unfold getFilePaths. unfold _write in H.
  destruct (outstream (this w)) as [h|] eqn:Hout.
  - rewrite bool_decide_eq_true_2, andb_false_r in H by eauto. simpl in H.
    unfold passes.
    destruct (itemValidationSchema (config (this w))) as [schema|]; simpl in H.
    + destruct (validateChunk schema chunk) as [e|] eqn:Hval.
      { injection H as <- <-. exists []. rewrite app_nil_r.
        split_and!; [done|simpl; lia|].
        split; [done|]. intros [?|[_ ?%bool_decide_eq_true]]; done. }
      destruct (convert chunk) as [text cb1].
      case_bool_decide as Hrot.
      * destruct (resetOutstream false w) as [w2|] eqn:Hreset; [|done].
        simpl in H.
        destruct (resetOutstream_files _ _ Hreset) as (p & h2 & Hf & Hh2 & _).
        rewrite Hh2 in H. exists [p].
        assert (files (this w') = files (this w) ++ [p]) as ->.
        { destruct text as [t|]; injection H as <- <-; [|done].
          destruct (writeItem_frame w2 h2 t) as (_ & _ & -> & _). done. }
        split_and!; [done|simpl; lia|].
        split; [|done]. intros _. right. split; [done|].
        by apply bool_decide_eq_true.
      * rewrite Hout in H. exists []. rewrite app_nil_r.
        assert (files (this w') = files (this w)) as ->.
        { destruct text as [t|]; injection H as <- <-; [|done].
          destruct (writeItem_frame w h t) as (_ & _ & -> & _). done. }
        split_and!; [done|simpl; lia|].
        split; [done|]. intros [?|[? _]]; [done|lia].
    + destruct (convert chunk) as [text cb1].
      case_bool_decide as Hrot.
      * destruct (resetOutstream false w) as [w2|] eqn:Hreset; [|done].
        simpl in H.
        destruct (resetOutstream_files _ _ Hreset) as (p & h2 & Hf & Hh2 & _).
        rewrite Hh2 in H. exists [p].
        assert (files (this w') = files (this w) ++ [p]) as ->.
        { destruct text as [t|]; injection H as <- <-; [|done].
          destruct (writeItem_frame w2 h2 t) as (_ & _ & -> & _). done. }
        split_and!; [done|simpl; lia|].
        split; [|done]. intros _. by right.
      * rewrite Hout in H. exists []. rewrite app_nil_r.
        assert (files (this w') = files (this w)) as ->.
        { destruct text as [t|]; injection H as <- <-; [|done].
          destruct (writeItem_frame w h t) as (_ & _ & -> & _). done. }
        split_and!; [done|simpl; lia|].
        split; [done|]. intros [?|[? _]]; [done|lia].
  - destruct (inv_unopened _ Hinv Hlive Hout) as (_ & _ & Hcount & Hlazy).
    rewrite Hlazy, bool_decide_eq_false_2 in H by (by intros [? ?]).
    simpl in H.
    destruct (openOutstream w) as [w1|] eqn:Hopen; [|done]. simpl in H.
    destruct (openOutstream_inv _ _ Hopen)
      as (a & _ & Hf & _ & Hcfg & Hcount1 & _ & _ & _ & h & _ & Hh & _).
    exists [filePath a].
    assert (files (this w') = files (this w) ++ [filePath a]) as ->.
    { destruct (itemValidationSchema _ ≫= _) as [e|].
      { by injection H as <- <-. }
      destruct (convert chunk) as [text cb1].
      rewrite bool_decide_eq_false_2 in H
        by (rewrite Hcount1, Hcount; pose proof (inv_max _ Hinv); lia).
      rewrite Hh in H.
      destruct text as [t|]; injection H as <- <-; [|done].
      destruct (writeItem_frame w1 h t) as (_ & _ & -> & _). done. }
    split_and!; [done|simpl; lia|]. split; [|done]. intros _. by left.
Qed.

Lemma X8_file_list_append_only_witness :
  ∃ opened,
    getFilePaths
      (this (default demoWorld3 (fst <$> _write (num "4") demoWorld3)))
    = getFilePaths (this demoWorld3) ++ opened
    ∧ length opened ≤ 1
    ∧ (opened ≠ [] ↔
       outstream (this demoWorld3) = None
       ∨ (maxItems (config (this demoWorld3)) ≤ count (this demoWorld3)
          ∧ passes (config (this demoWorld3)) (num "4") = true)).
Proof.
  apply (X8_file_list_append_only demoWorld3 (num "4") _ [CbOk]).
  - apply (demoRun_reachable demoConfig ∅ [num "1"; num "2"; num "3"]).
    + simpl. lia.
    + vm_compute. reflexivity.
  - vm_compute. reflexivity.
  - vm_compute. reflexivity.
Defined.

(** ** The stream handle *)

Lemma last_files_open w w' :
  openOutstream w = Some w' →
  ∀ h, outstream (this w') = Some h → last (files (this w')) = Some (path h).
Proof.
  intros Hopen h Hh.
  destruct (openOutstream_effect _ _ Hopen) as (a & h' & _ & -> & Hout & Hp & _).
  rewrite Hout in Hh. injection Hh as <-. by rewrite last_snoc, Hp.
Qed.

Lemma last_files_writeItem w h t :
  last (files (this w)) = Some (path h) →
  ∀ h', outstream (this (writeItem h t w)) = Some h' →
        last (files (this (writeItem h t w))) = Some (path h').
Proof.
  intros Hlast h' Hh'.
  destruct (writeItem_frame w h t) as (_ & _ & -> & _ & _ & Hout & _).
  rewrite Hout in Hh'. by injection Hh' as <-.
Qed.

Lemma last_files_write w chunk w' cbs :
  (∀ h, outstream (this w) = Some h → last (files (this w)) = Some (path h)) →
  _write chunk w = Some (w', cbs) →
  ∀ h, outstream (this w') = Some h → last (files (this w')) = Some (path h).
Proof.
  intros Hw H. unfold _write in H.
  destruct (if lazy _ && _ then _ else _) as [w1|] eqn:Hopen; [|done].
  simpl in H.
  assert (∀ h, outstream (this w1) = Some h →
               last (files (this w1)) = Some (path h)) as Hw1.
  { destruct (lazy _ && _).
    - exact (last_files_open _ _ Hopen).
    - by injection Hopen as <-. }
  destruct (itemValidationSchema _ ≫= _) as [e|].
  { by injection H as <- <-. }
  destruct (convert chunk) as [text cb1].
  case_bool_decide.
  - destruct (resetOutstream false w1) as [w2|] eqn:Hreset; [|done].
    simpl in H. unfold resetOutstream in Hreset. simpl in Hreset.
    pose proof (last_files_open _ _ Hreset) as Hw2.
    destruct (outstream (this w2)) as [h2|] eqn:Hh2.
    + destruct text as [t|]; injection H as <- <-.
      * apply (last_files_writeItem w2 h2 t). by apply Hw2.
      * intros h Hh. apply Hw2. congruence.
    + injection H as <- <-. intros h Hh. congruence.
  - destruct (outstream (this w1)) as [h1|] eqn:Hh1.
    + destruct text as [t|]; injection H as <- <-.
      * apply (last_files_writeItem w1 h1 t). by apply Hw1.
      * intros h Hh. apply Hw1. congruence.
    + injection H as <- <-. intros h Hh. congruence.
Qed.

Lemma reachable_handleOK w : reachable w → handleOK w.
Proof.
  induction 1 as [args d w Hmax Hnew|w chunk w' cbs Hr IH Hlive Hwrite
                 |w w' Hr IH Hfinal].
  - destruct (inv_new _ _ _ Hmax Hnew) as [_ Hlive].
    split; [congruence|].
    unfold new_ArrayStream in Hnew.
    destruct (append args && overwrite args); [done|].
    destruct (lazy _).
    + injection Hnew as <-. done.
    + destruct (openOutstream _) as [w'|] eqn:Hopen; [|done].
      injection Hnew as <-. exact (last_files_open _ _ Hopen).
  - destruct (_write_live _ _ _ _ (reachable_inv _ Hr) Hlive Hwrite)
      as (_ & Hlive' & _).
    split; [congruence|].
    eapply last_files_write; [apply IH|done].
  - unfold _final, flushOutstream, resetOutstream in Hfinal.
    destruct (destroyed (this w)) eqn:Hd.
    + by injection Hfinal as <-.
    + simpl in Hfinal. injection Hfinal as <-.
      by destruct (outstream (this w)).
Qed.

(** X9. The stream handle in every reachable state: a finalized engine
    holds no stream; an open stream is the stream of the path listed last by
    [getFilePaths], that file exists, and the stream's position lies within
    it; an engine that is neither finalized nor holding a stream is a lazy
    one that has not opened a file yet. *)
Theorem X9_stream_handle (w : World) :
  reachable w →
  (destroyed (this w) = true → outstream (this w) = None)
  ∧ (∀ h, outstream (this w) = Some h →
          last (getFilePaths (this w)) = Some (path h)
          ∧ ∃ content, disk w !! path h = Some content
                       ∧ pos h ≤ String.length content)
  ∧ (destroyed (this w) = false → outstream (this w) = None →
     getFilePaths (this w) = [] ∧ lazy (config (this w)) = true).
Proof.
  intros Hr. destruct (reachable_handleOK _ Hr) as [Hfin Hlast].
  destruct (reachable_inv _ Hr) as [_ _ _ Hstream Hunop].
  split_and!; [done| |].
  - intros h Hh. split; [by apply Hlast|by apply Hstream].
  - intros Hlive Hnone. by destruct (Hunop Hlive Hnone) as (_ & ? & _ & ?).
Qed.

Lemma X9_stream_handle_witness :
  (destroyed (this demoWorld3) = true → outstream (this demoWorld3) = None)
  ∧ (∀ h, outstream (this demoWorld3) = Some h →
          last (getFilePaths (this demoWorld3)) = Some (path h)
          ∧ ∃ content, disk demoWorld3 !! path h = Some content
                       ∧ pos h ≤ String.length content)
  ∧ (destroyed (this demoWorld3) = false → outstream (this demoWorld3) = None →
     getFilePaths (this demoWorld3) = []
     ∧ lazy (config (this demoWorld3)) = true).
Proof.
  apply (X9_stream_handle demoWorld3).
  apply (demoRun_reachable demoConfig ∅ [num "1"; num "2"; num "3"]).
  - simpl. lia.
  - vm_compute. reflexivity.
Defined.

(** ** Every call returns *)

Lemma resetOutstream_config w w' :
  resetOutstream false w = Some w' → config (this w') = config (this w).
Proof.
  unfold resetOutstream. simpl. intros H.
  destruct (openOutstream_inv _ _ H) as (_ & _ & _ & _ & -> & _).
  by destruct (outstream (this w)).
Qed.

Lemma _write_total w chunk :
  hasToken (keyPattern (file (config (this w)))) = true →
  ∃ w' cbs, _write chunk w = Some (w', cbs)
            ∧ config (this w') = config (this w).
Proof.
  intros Htok. unfold _write.
  destruct (lazy_open_total w Htok) as (w1 & -> & Hc1). simpl.
  destruct (itemValidationSchema _ ≫= _) as [e|]; [by eauto|].
  destruct (convert chunk) as [text cb1].
  case_bool_decide.
  - destruct (resetOutstream_total false w1) as [w2 Hreset];
      [by rewrite Hc1|].
    rewrite Hreset. simpl.
    pose proof (resetOutstream_config _ _ Hreset) as Hc2.
    destruct (outstream (this w2)) as [h2|]; [|eexists _, _; split; [done|congruence]].
    destruct text as [t|]; eexists _, _; (split; [done|]); [|congruence].
    destruct (writeItem_frame w2 h2 t) as (-> & _). congruence.
  - destruct (outstream (this w1)) as [h1|]; [|by eauto].
    destruct text as [t|]; eexists _, _; (split; [done|]); [|done].
    destruct (writeItem_frame w1 h1 t) as (-> & _). done.
Qed.

Lemma writeAll_total cs : ∀ w,
  hasToken (keyPattern (file (config (this w)))) = true →
  ∃ w' cbss, writeAll cs w = Some (w', cbss)
             ∧ config (this w') = config (this w).
Proof.
  induction cs as [|c cs IH]; intros w Htok; [by eexists _, _|].
  destruct (_write_total w c Htok) as (w1 & cbs & Hw & Hc).
  destruct (IH w1) as (w' & cbss & Hrest & Hc'); [by rewrite Hc|].
  simpl. rewrite Hw. simpl. rewrite Hrest. simpl.
  eexists _, _. split; [done|congruence].
Qed.

(** ** Files that were there before *)

Lemma closeArrayStream_total w : is_Some (closeArrayStream w).
Proof.
  unfold closeArrayStream, _final, flushOutstream, resetOutstream.
  destruct (destroyed (this w)); [done|]. simpl. done.
Qed.

Lemma untouched_open d w w' :
  append (config (this w)) = false → overwrite (config (this w)) = false →
  untouched d w → openOutstream w = Some w' → untouched d w'.
Proof.
  intros Happ Hov Hun Hopen p Hp.
  destruct (Hun p Hp) as (Hdisk & Hfiles & _).
  destruct (openOutstream_effect _ _ Hopen)
    as (a & h & Hs & Hf & Hout & Hpath & Heff).
  unfold searched in Hs. rewrite Happ, Hov in Hs. simpl in Hs.
  destruct Hs as (k & _ & Hfree & _).
  assert (filePath a ≠ p) as Hne.
  { intros Heq. subst p. rewrite <-Hdisk, Hfree in Hp. by destruct Hp. }
  split_and!.
  - destruct Heff as [(-> & _)|(-> & _)]; [|done].
    by rewrite lookup_insert_ne.
  - rewrite Hf. intros [?|Hin%list_elem_of_singleton]%elem_of_app; [done|].
    by subst p.
  - intros h' Hh'. rewrite Hout in Hh'. injection Hh' as <-. by rewrite Hpath.
Qed.

Lemma untouched_stream_write d w h data :
  untouched d w → outstream (this w) = Some h →
  untouched d (stream_write h data w).
Proof.
  intros Hun Hh p Hp. destruct (Hun p Hp) as (Hdisk & Hfiles & Hstream).
  unfold stream_write. simpl. split_and!; [|done|].
  - rewrite lookup_insert_ne; [done|]. by apply Hstream.
  - intros h' [= <-]. simpl. by apply Hstream.
Qed.

Lemma untouched_writeItem d w h t :
  untouched d w → outstream (this w) = Some h →
  untouched d (writeItem h t w).
Proof.
  intros Hun Hh p Hp. destruct (Hun p Hp) as (Hdisk & Hfiles & Hstream).
  destruct (writeItem_frame w h t) as (_ & _ & -> & _ & _ & -> & ->).
  split_and!; [|done|].
  - rewrite lookup_insert_ne; [done|]. by apply Hstream.
  - intros h' [= <-]. simpl. by apply Hstream.
Qed.

Lemma untouched_reset d w w' :
  append (config (this w)) = false → overwrite (config (this w)) = false →
  untouched d w → resetOutstream false w = Some w' → untouched d w'.
Proof.
  intros Happ Hov Hun H. unfold resetOutstream in H. simpl in H.
  eapply untouched_open; [| | |exact H].
  - by destruct (outstream (this w)).
  - by destruct (outstream (this w)).
  - destruct (outstream (this w)) as [h|] eqn:Hh.
    + apply (untouched_stream_write d w h TERMINATOR) in Hun; [|done].
      intros p Hp. destruct (Hun p Hp) as (? & ? & ?). done.
    + intros p Hp. destruct (Hun p Hp) as (? & ? & ?). simpl.
      split_and!; [done|done|]. simpl. by rewrite Hh.
Qed.

Lemma untouched_write d w chunk w' cbs :
  append (config (this w)) = false → overwrite (config (this w)) = false →
  untouched d w → _write chunk w = Some (w', cbs) →
  untouched d w'.
Proof.
  intros Happ Hov Hun H. unfold _write in H.
  destruct (if lazy _ && _ then _ else _) as [w1|] eqn:Hopen; [|done].
  simpl in H.
  assert (untouched d w1 ∧ config (this w1) = config (this w)) as [Hun1 Hc1].
  { destruct (lazy _ && _).
    - split; [by eapply untouched_open|].
      by destruct (openOutstream_inv _ _ Hopen) as (_ & _ & _ & _ & ? & _).
    - by injection Hopen as <-. }
  destruct (itemValidationSchema _ ≫= _) as [e|].
  { by injection H as <- <-. }
  destruct (convert chunk) as [text cb1].
  case_bool_decide.
  - destruct (resetOutstream false w1) as [w2|] eqn:Hreset; [|done].
    simpl in H.
    assert (untouched d w2) as Hun2.
    { eapply untouched_reset; [| | |exact Hreset]; [congruence|congruence|done]. }
    destruct (outstream (this w2)) as [h2|] eqn:Hh2.
    + destruct text as [t|]; injection H as <- <-; [|done].
      by apply untouched_writeItem.
    + by injection H as <- <-.
  - destruct (outstream (this w1)) as [h1|] eqn:Hh1.
    + destruct text as [t|]; injection H as <- <-; [|done].
      by apply untouched_writeItem.
    + by injection H as <- <-.
Qed.

Lemma untouched_writeAll d cs : ∀ w w' cbss,
  append (config (this w)) = false → overwrite (config (this w)) = false →
  hasToken (keyPattern (file (config (this w)))) = true →
  untouched d w → writeAll cs w = Some (w', cbss) →
  untouched d w'.
Proof.
  induction cs as [|c cs IH]; intros w w' cbss Happ Hov Htok Hun H.
  { by injection H as <- <-. }
  simpl in H.
  destruct (_write_total w c Htok) as (w1 & cbs & Hw & Hc).
  rewrite Hw in H. simpl in H.
  destruct (writeAll cs w1) as [[w2 cbss2]|] eqn:Hrest; [|done].
  simpl in H. injection H as <- <-.
  eapply (IH w1); [congruence|congruence|congruence| |done].
  by eapply untouched_write.
Qed.

Lemma untouched_final d w w' :
  untouched d w → _final w = Some w' → untouched d w'.
Proof.
  intros Hun H. unfold _final, flushOutstream, resetOutstream in H.
  destruct (destroyed (this w)); [by injection H as <-|].
  simpl in H. injection H as <-.
  destruct (outstream (this w)) as [h|] eqn:Hh.
  - apply (untouched_stream_write d w h TERMINATOR) in Hun; [|done].
    intros p Hp. destruct (Hun p Hp) as (? & ? & ?). done.
  - intros p Hp. destruct (Hun p Hp) as (? & ? & ?). done.
Qed.

(** X10. Under the default policy (neither [append] nor [overwrite]) the
    engine never touches a file that was in the directory before it was
    constructed. For every directory and every sequence of items, the
    construction, the writes and the finalization all return, and every file
    of the directory then holds what it held and is not among the paths of
    [getFilePaths]. *)
Theorem X10_existing_files_kept (args : Config) (d : gmap string string)
  (cs : list Chunk) :
  hasToken (trimKeyPattern (file args)) = true →
  append args = false → overwrite args = false →
  ∃ w0 w1 cbss w2,
    new_ArrayStream args d = Built w0
    ∧ writeAll cs w0 = Some (w1, cbss)
    ∧ closeArrayStream w1 = Some w2
    ∧ ∀ p, is_Some (d !! p) →
           disk w2 !! p = d !! p ∧ p ∉ getFilePaths (this w2).
Proof.
  intros Htok Happ Hov.
  assert (∃ w0, new_ArrayStream args d = Built w0
                ∧ config (this w0) = trimmed args
                ∧ destroyed (this w0) = false
                ∧ untouched d w0) as (w0 & Hnew & Hc0 & Hlive0 & Hun0).
  { unfold new_ArrayStream. rewrite Happ. simpl.
    set (w := {| this := _; disk := d; ledger := [] |}).
    assert (untouched d w) as Hun.
    { intros p Hp. split_and!; [done|apply not_elem_of_nil|done]. }
    destruct (lazy args); [by exists w|].
    destruct (openOutstream_total w Htok) as [w' Hopen]. rewrite Hopen.
    destruct (openOutstream_inv _ _ Hopen)
      as (_ & _ & _ & _ & Hcfg & _ & Hlive & _).
    exists w'. split_and!; [done|done|done|].
    by apply (untouched_open d w w'). }
  destruct (writeAll_total cs w0) as (w1 & cbss & Hwrite & Hc1);
    [by rewrite Hc0|].
  destruct (closeArrayStream_total w1) as (w2 & Hclose).
  exists w0, w1, cbss, w2. split_and!; [done|done|done|].
  assert (untouched d w1) as Hun1.
  { apply (untouched_writeAll d cs w0 w1 cbss); rewrite ?Hc0; done. }
  assert (untouched d w2) as Hun2.
  { unfold closeArrayStream in Hclose.
    destruct (destroyed (this w1)); [by injection Hclose as <-|].
    by apply (untouched_final d w1). }
  intros p Hp. by destruct (Hun2 p Hp) as (? & ? & _).
Qed.

Lemma X10_existing_files_kept_witness :
  ∃ w0 w1 cbss w2,
    new_ArrayStream demoConfig twoFiles = Built w0
    ∧ writeAll [num "1"; num "2"; num "3"] w0 = Some (w1, cbss)
    ∧ closeArrayStream w1 = Some w2
    ∧ ∀ p, is_Some (twoFiles !! p) →
           disk w2 !! p = twoFiles !! p ∧ p ∉ getFilePaths (this w2).
Proof.
  apply (X10_existing_files_kept demoConfig twoFiles
           [num "1"; num "2"; num "3"]); reflexivity.
Defined.

(** ** The total count of a run *)

Lemma progress_total cfg w xs :
  1 ≤ maxItems cfg → progress cfg w xs →
  getTotalCount (this w) = length xs ∧ destroyed (this w) = false.
Proof.
  intros Hmax [(Hun & _ & ->)|(full & cur & Hlaid & <-)].
  - destruct Hun as (_ & Hlive & Hf & _ & _ & Hcount & _).
    unfold getTotalCount. by rewrite Hf, Hcount.
  - destruct Hlaid
      as (Hcfg & Hlive & Hfull & _ & _ & Hf & _ & _ & Hcount & _).
    split; [|done]. unfold getTotalCount.
    rewrite Hf, Hcfg, Hcount, length_fmap, length_seq, length_app.
    rewrite (length_concat_full cfg Hmax full Hfull).
    case_bool_decide; [lia|].
    assert (length full = 0) as -> by lia. lia.
Qed.

(** X11. Over an empty directory, [getTotalCount] counts the accepted items:
    after any sequence of writes in which every item that passes validation
    encodes, the total count is the number of items that passed validation,
    whatever the number of files they were spread over, and closing the
    engine does not change it. *)
Theorem X11_total_counts_accepted (args : Config) (cs : list Chunk) :
  wellFormed args →
  Forall (λ c, passes (trimmed args) c = true → is_Some (encode c)) cs →
  ∃ w0 w1 cbss w2,
    new_ArrayStream args ∅ = Built w0
    ∧ writeAll cs w0 = Some (w1, cbss)
    ∧ closeArrayStream w1 = Some w2
    ∧ getTotalCount (this w1) = length (accepted (trimmed args) cs)
    ∧ getTotalCount (this w2) = length (accepted (trimmed args) cs).
Proof.
  intros Hwf Hcs. destruct (new_fresh args Hwf) as (w0 & Hnew & Hprog & _).
  destruct Hwf as (Hmax & _ & Htok).
  destruct (progress_run (trimmed args) Hmax Htok cs w0 [] Hprog Hcs)
    as (w1 & cbss & Hwrite & Hprog1 & _).
  destruct (progress_total (trimmed args) w1 _ Hmax Hprog1) as [Htotal Hlive].
  simpl in Htotal.
  destruct (closeArrayStream_total w1) as [w2 Hclose].
  exists w0, w1, cbss, w2. split_and!; try done.
  unfold closeArrayStream in Hclose. rewrite Hlive in Hclose.
  destruct (_final_frame _ _ Hclose) as (_ & Hf & Hc & Hcfg).
  unfold getTotalCount in *. by rewrite Hf, Hc, Hcfg.
Qed.

Lemma X11_total_counts_accepted_witness :
  ∃ w0 w1 cbss w2,
    new_ArrayStream validatedConfig ∅ = Built w0
    ∧ writeAll [num "1"; Str "x"; num "2"; num "3"] w0 = Some (w1, cbss)
    ∧ closeArrayStream w1 = Some w2
    ∧ getTotalCount (this w1)
      = length (accepted (trimmed validatedConfig)
                  [num "1"; Str "x"; num "2"; num "3"])
    ∧ getTotalCount (this w2)
      = length (accepted (trimmed validatedConfig)
                  [num "1"; Str "x"; num "2"; num "3"]).
Proof.
  apply (X11_total_counts_accepted validatedConfig
           [num "1"; Str "x"; num "2"; num "3"]).
  - split_and!.
    + simpl. lia.
    + intros [? ?]. done.
    + vm_compute. reflexivity.
  - repeat constructor; vm_compute; eauto.
Defined.

(** ** An accepted write *)

(** X12. A write that is accepted, on any reachable engine that is not
    finalized: an item that passes validation and encodes gets exactly one
    callback, a success; the total count goes up by one; the count of the
    current file goes up by one, or restarts at 1 when the file was full and
    the item opened the next one; and the item's text is the last thing in
    the file of the stream. *)
Theorem X12_accepted_write (w : World) (chunk : Chunk) (t : string) :
  reachable w →
  destroyed (this w) = false →
  hasToken (keyPattern (file (config (this w)))) = true →
  passes (config (this w)) chunk = true →
  encode chunk = Some t →
  ∃ w' h before,
    _write chunk w = Some (w', [CbOk])
    ∧ getTotalCount (this w') = S (getTotalCount (this w))
    ∧ getCount (this w')
      = (if bool_decide (maxItems (config (this w)) ≤ getCount (this w))
         then 1 else S (getCount (this w)))
    ∧ outstream (this w') = Some h
    ∧ disk w' !! path h = Some (before +:+ t).
Proof.
  intros Hr Hlive Htok Hpass Henc.
  pose proof (reachable_inv _ Hr) as Hinv.
  destruct (_write_accepts w chunk t Hinv (reachable_currentOK _ Hr)
              Hlive Htok Hpass Henc)
    as (w' & h & before & Hwrite & Hsum & Hh & Hdisk).
  exists w', h, before. split_and!; try done.
  - pose proof (reach_write _ _ _ _ Hr Hlive Hwrite) as Hr'.
    destruct (total_is_ledger_sum _ Hr) as [_ ->].
    destruct (total_is_ledger_sum _ Hr') as [_ ->]. done.
  - unfold getCount.
    assert (∀ w1, inv w1 → destroyed (this w1) = false →
                  config (this w1) = config (this w) →
                  is_Some (outstream (this w1)) →
                  ∀ w2, _write chunk w1 = Some (w2, [CbOk]) →
                  count (this w2)
                  = (if bool_decide (maxItems (config (this w)) ≤ count (this w1))
                     then 1 else S (count (this w1)))) as Hopened.
    { intros w1 Hinv1 Hlive1 Hc1 [h1 Hh1] w2 Hw2.
      rewrite <-Hc1 in Hpass, Htok.
      destruct (decide (maxItems (config (this w)) ≤ count (this w1)))
        as [Hfull|Hroom].
      - rewrite bool_decide_eq_true_2 by done.
        destruct (resetOutstream_total false w1 Htok) as [w3 Hreset].
        rewrite <-Hc1 in Hfull.
        destruct (inv_rotate _ _ _ Hinv1 Hh1 Hfull Hreset)
          as (_ & Hcount3 & [h3 Hh3] & _).
        rewrite (_write_rotating w1 chunk h1 t w3 h3) in Hw2 by done.
        injection Hw2 as <-.
        destruct (writeItem_frame w3 h3 t) as (_ & -> & _). lia.
      - rewrite bool_decide_eq_false_2 by done.
        rewrite (_write_direct w1 chunk h1 t) in Hw2
          by (try done; rewrite Hc1; lia).
        injection Hw2 as <-.
        destruct (writeItem_frame w1 h1 t) as (_ & -> & _). lia. }
    destruct (outstream (this w)) as [h0|] eqn:Hh0.
    + apply (Hopened w); eauto.
    + destruct (inv_unopened _ Hinv Hlive Hh0) as (Hl & Hf & Hcount & Hlazy).
      destruct (openOutstream_total w Htok) as [w1 Hopen].
      rewrite (_write_after_open w w1 chunk) in Hwrite by done.
      destruct (inv_open w w1) as (Hinv1 & Hcount1 & Hsome1 & Hc1 & Hlive1);
        [by apply (inv_max _ Hinv)|done|by left|done|].
      rewrite (Hopened w1 Hinv1) with (w2 := w'); try done; [|congruence].
      by rewrite Hcount1, Hcount.
Qed.

Lemma X12_accepted_write_witness :
  ∃ w' h before,
    _write (num "4") demoWorld3 = Some (w', [CbOk])
    ∧ getTotalCount (this w') = S (getTotalCount (this demoWorld3))
    ∧ getCount (this w')
      = (if bool_decide (maxItems (config (this demoWorld3))
                         ≤ getCount (this demoWorld3))
         then 1 else S (getCount (this demoWorld3)))
    ∧ outstream (this w') = Some h
    ∧ disk w' !! path h = Some (before +:+ "4").
Proof.
  apply (X12_accepted_write demoWorld3 (num "4") "4").
  - apply (demoRun_reachable demoConfig ∅ [num "1"; num "2"; num "3"]).
    + simpl. lia.
    + vm_compute. reflexivity.
  - vm_compute. reflexivity.
  - vm_compute. reflexivity.
  - vm_compute. reflexivity.
  - reflexivity.
Defined.

(** ** Flushing *)

(** X13. [flushOutstream()] with its default argument, on an engine that is
    not finalized: the call returns; the engine stays open on a new file,
    whose path is appended to the file list, with a count of 0. Under the
    default policy, a stream that stood at the end of its file has left that
    file closed by the bracket and newline. [getTotalCount] then reports
    [maxItems] for every file opened before the call, however many items
    these files hold. *)
Theorem X13_flush_starts_next_file (w : World) :
  destroyed (this w) = false →
  hasToken (keyPattern (file (config (this w)))) = true →
  ∃ w' p h',
    flushOutstream false w = Some w'
    ∧ destroyed (this w') = false
    ∧ getCount (this w') = 0
    ∧ getFilePaths (this w') = getFilePaths (this w) ++ [p]
    ∧ outstream (this w') = Some h' ∧ path h' = p
    ∧ getTotalCount (this w')
      = length (getFilePaths (this w)) * maxItems (config (this w))
    ∧ (append (config (this w)) = false →
       overwrite (config (this w)) = false →
       ∀ h content, outstream (this w) = Some h →
                    disk w !! path h = Some content →
                    pos h = String.length content →
                    disk w' !! path h = Some (content +:+ TERMINATOR)).
Proof.
  intros Hlive Htok. unfold flushOutstream. rewrite Hlive.
  destruct (resetOutstream_total false w Htok) as [w' Hreset].
  pose proof (resetOutstream_config _ _ Hreset) as Hcfg.
  pose proof Hreset as Hflush.
  unfold resetOutstream in Hreset. simpl in Hreset.
  set (w1 := match outstream (this w) with
             | Some h => stream_write h TERMINATOR w
             | None => w
             end) in *.
  assert (files (this w1) = files (this w)
          ∧ destroyed (this w1) = false
          ∧ config (this w1) = config (this w)) as (Hf1 & Hlive1 & Hc1).
  { unfold w1. by destruct (outstream (this w)). }
  destruct (openOutstream_inv _ _ Hreset)
    as (_ & _ & _ & _ & _ & Hcount & Hlive' & _).
  destruct (openOutstream_effect _ _ Hreset)
    as (a & h' & Hs & Hfiles & Hout & Hpath & Heff).
  simpl in Hcount, Hlive', Hfiles.
  exists w', (filePath a), h'.
  unfold getCount, getFilePaths, getTotalCount.
  rewrite Hfiles, Hf1, Hcount, Hcfg, length_app. simpl.
  split_and!; try done; [congruence| |].
  - case_bool_decide; [lia|].
    assert (length (files (this w)) = 0) as -> by lia. lia.
  - intros Happ Hov h content Hh Hdisk Hpos.
    unfold searched in Hs. simpl in Hs. rewrite Hc1, Happ, Hov in Hs.
    simpl in Hs. destruct Hs as (k & _ & Hfree & _).
    assert (disk w1 !! path h = Some (content +:+ TERMINATOR)) as Hclosed.
    { unfold w1. rewrite Hh. unfold stream_write. simpl.
      rewrite lookup_insert_eq, Hdisk. cbn [default from_option id].
      by rewrite landing_at_end by done. }
    destruct Heff as [(-> & _)|(-> & _)]; [|done].
    rewrite lookup_insert_ne; [done|].
    intros Heq. rewrite Heq, Hclosed in Hfree. done.
Qed.

Lemma X13_flush_starts_next_file_witness :
  ∃ w' p h',
    flushOutstream false demoWorld3 = Some w'
    ∧ destroyed (this w') = false
    ∧ getCount (this w') = 0
    ∧ getFilePaths (this w') = getFilePaths (this demoWorld3) ++ [p]
    ∧ outstream (this w') = Some h' ∧ path h' = p
    ∧ getTotalCount (this w')
      = length (getFilePaths (this demoWorld3))
        * maxItems (config (this demoWorld3))
    ∧ (append (config (this demoWorld3)) = false →
       overwrite (config (this demoWorld3)) = false →
       ∀ h content, outstream (this demoWorld3) = Some h →
                    disk demoWorld3 !! path h = Some content →
                    pos h = String.length content →
                    disk w' !! path h = Some (content +:+ TERMINATOR)).
Proof.
  apply (X13_flush_starts_next_file demoWorld3).
  - vm_compute. reflexivity.
  - vm_compute. reflexivity.
Defined.

(** ** The [lazy] flag *)

Lemma findFreeKey_relazy b fuel d : ∀ a,
  findFreeKey fuel d (relazy_engine b a)
  = relazy_engine b <$> findFreeKey fuel d a.
Proof.
  induction fuel as [|fuel IH]; intros a; [done|].
  simpl. change (filePath (relazy_engine b a)) with (filePath a).
  destruct (d !! filePath a); [|done].
  change (incrementKey (relazy_engine b a))
    with (relazy_engine b (incrementKey a)).
  apply IH.
Qed.

Lemma openOutstream_relazy b w :
  openOutstream (relazy b w) = relazy b <$> openOutstream w.
Proof.
  unfold openOutstream.
  change (config (this (relazy b w))) with (with_lazy b (config (this w))).
  change (append (with_lazy b (config (this w))))
    with (append (config (this w))).
  change (overwrite (with_lazy b (config (this w))))
    with (overwrite (config (this w))).
  change (disk (relazy b w)) with (disk w).
  change (this (relazy b w)) with (relazy_engine b (this w)).
  destruct (negb (append (config (this w)))
            && negb (overwrite (config (this w)))).
  - rewrite findFreeKey_relazy.
    destruct (findFreeKey _ _ (this w)) as [a|]; [|done]. simpl.
    change (filePath (relazy_engine b a)) with (filePath a).
    f_equal. rewrite !openOverwrite_eq.
    destruct (overwrite (config (this w))); [done|].
    destruct (disk w !! filePath a) as [content|]; [|done].
    by case_bool_decide.
  - simpl. change (filePath (relazy_engine b (this w)))
      with (filePath (this w)).
    f_equal. rewrite !openOverwrite_eq.
    destruct (overwrite (config (this w))); [done|].
    destruct (disk w !! filePath (this w)) as [content|]; [|done].
    by case_bool_decide.
Qed.

Lemma resetOutstream_relazy b w :
  resetOutstream false (relazy b w) = relazy b <$> resetOutstream false w.
Proof.
  unfold resetOutstream. simpl. rewrite <-openOutstream_relazy.
  by destruct (outstream (this w)).
Qed.

Lemma writeItem_relazy b h t w :
  writeItem h t (relazy b w) = relazy b (writeItem h t w).
Proof. unfold writeItem. simpl. by case_bool_decide. Qed.

Lemma _write_relazy b chunk w :
  is_Some (outstream (this w)) →
  _write chunk (relazy b w)
  = prod_map (relazy b) id <$> _write chunk w.
Proof.
  intros [h Hh]. unfold _write.
  change (config (this (relazy b w))) with (with_lazy b (config (this w))).
  change (outstream (this (relazy b w))) with (outstream (this w)).
  change (destroyed (this (relazy b w))) with (destroyed (this w)).
  change (itemValidationSchema (with_lazy b (config (this w))))
    with (itemValidationSchema (config (this w))).
  change (maxItems (with_lazy b (config (this w))))
    with (maxItems (config (this w))).
  rewrite Hh, !bool_decide_eq_true_2, !andb_false_r by eauto. simpl.
  destruct (itemValidationSchema _ ≫= _) as [e|]; [done|].
  destruct (convert chunk) as [text cb1].
  case_bool_decide.
  - rewrite resetOutstream_relazy.
    destruct (resetOutstream false w) as [w2|]; [|done]. simpl.
    destruct (outstream (this w2)) as [h2|]; [|done].
    destruct text as [t|]; [|done]. by rewrite writeItem_relazy.
  - rewrite Hh. destruct text as [t|]; [|done]. by rewrite writeItem_relazy.
Qed.

Lemma _write_keeps_stream chunk w w' cbs :
  is_Some (outstream (this w)) →
  _write chunk w = Some (w', cbs) →
  is_Some (outstream (this w')).
Proof.
  intros [h Hh] H. unfold _write in H.
  rewrite Hh, bool_decide_eq_true_2, andb_false_r in H by eauto.
  simpl in H.
  destruct (itemValidationSchema _ ≫= _) as [e|].
  { injection H as <- <-. eauto. }
  destruct (convert chunk) as [text cb1].
  case_bool_decide.
  - destruct (resetOutstream false w) as [w2|] eqn:Hreset; [|done].
    simpl in H.
    destruct (resetOutstream_files _ _ Hreset) as (p & h2 & _ & Hh2 & _).
    rewrite Hh2 in H. destruct text as [t|]; injection H as <- <-; [|eauto].
    destruct (writeItem_frame w2 h2 t) as (_ & _ & _ & _ & _ & -> & _). eauto.
  - rewrite Hh in H. destruct text as [t|]; injection H as <- <-; [|eauto].
    destruct (writeItem_frame w h t) as (_ & _ & _ & _ & _ & -> & _). eauto.
Qed.

Lemma writeAll_relazy b cs : ∀ w,
  is_Some (outstream (this w)) →
  writeAll cs (relazy b w) = prod_map (relazy b) id <$> writeAll cs w.
Proof.
  induction cs as [|c cs IH]; intros w Hh; [done|].
  simpl. rewrite _write_relazy by done.
  destruct (_write c w) as [[w1 cbs]|] eqn:Hw; [|done]. simpl.
  rewrite IH by (by eapply _write_keeps_stream).
  by destruct (writeAll cs w1) as [[w2 cbss]|].
Qed.

(** X14. Once an item has been submitted, the [lazy] flag cannot be told
    from the outcome. For every directory, every allowed policy and every
    non-empty sequence of writes, the engine that opens its first file at
    construction and the engine that opens it at the first write make the
    same callbacks and end with the same disk, the same file list and the
    same counts: their states differ in the flag only. *)
Theorem X14_lazy_flag_unobservable (args : Config) (d : gmap string string)
  (c : Chunk) (cs : list Chunk) :
  hasToken (trimKeyPattern (file args)) = true →
  append args && overwrite args = false →
  ∃ wl we wl' we' cbss,
    new_ArrayStream (with_lazy true args) d = Built wl
    ∧ new_ArrayStream (with_lazy false args) d = Built we
    ∧ writeAll (c :: cs) wl = Some (wl', cbss)
    ∧ writeAll (c :: cs) we = Some (we', cbss)
    ∧ we' = relazy false wl'
    ∧ disk we' = disk wl'
    ∧ getFilePaths (this we') = getFilePaths (this wl')
    ∧ getCount (this we') = getCount (this wl')
    ∧ getTotalCount (this we') = getTotalCount (this wl').
Proof.
  intros Htok Hpolicy. unfold new_ArrayStream.
  change (append (with_lazy true args)) with (append args).
  change (append (with_lazy false args)) with (append args).
  change (overwrite (with_lazy true args)) with (overwrite args).
  change (overwrite (with_lazy false args)) with (overwrite args).
  rewrite Hpolicy. cbn [lazy set_keyPattern with_lazy].
  set (wl := {| this := incrementKey _; disk := d; ledger := [] |}).
  match goal with
  | |- context [openOutstream ?w] => change w with (relazy false wl)
  end.
  rewrite openOutstream_relazy.
  destruct (openOutstream_total wl Htok) as [wl1 Hopen]. rewrite Hopen.
  simpl fmap.
  assert (is_Some (outstream (this wl1)) ∧ config (this wl1) = config (this wl))
    as [Hsome Hcfg].
  { destruct (openOutstream_inv _ _ Hopen)
      as (_ & _ & _ & _ & ? & _ & _ & _ & _ & h & _ & ? & _). eauto. }
  destruct (writeAll_total (c :: cs) wl1) as (wl' & cbss & Hrun & _).
  { by rewrite Hcfg. }
  exists wl, (relazy false wl1), wl', (relazy false wl'), cbss.
  split_and!; try done.
  - simpl. rewrite (_write_after_open wl wl1 c) by done. exact Hrun.
  - by rewrite writeAll_relazy, Hrun.
Qed.

Lemma X14_lazy_flag_unobservable_witness :
  ∃ wl we wl' we' cbss,
    new_ArrayStream (with_lazy true demoConfig) twoFiles = Built wl
    ∧ new_ArrayStream (with_lazy false demoConfig) twoFiles = Built we
    ∧ writeAll (num "1" :: [num "2"; num "3"]) wl = Some (wl', cbss)
    ∧ writeAll (num "1" :: [num "2"; num "3"]) we = Some (we', cbss)
    ∧ we' = relazy false wl'
    ∧ disk we' = disk wl'
    ∧ getFilePaths (this we') = getFilePaths (this wl')
    ∧ getCount (this we') = getCount (this wl')
    ∧ getTotalCount (this we') = getTotalCount (this wl').
Proof.
  apply (X14_lazy_flag_unobservable demoConfig twoFiles (num "1")
           [num "2"; num "3"]).
  - vm_compute. reflexivity.
  - reflexivity.
Defined.

(** ** The names in the file list *)

Lemma namesOK_incrementKey a :
  key (incrementKey a) = generateKey (file (config a)) (fileCount (incrementKey a) - 1)
  ∧ fileCount (incrementKey a) = fileCount a + 1.
Proof.
  simpl. split; [|done]. f_equal. lia.
Qed.

Lemma namesOK_iter k a :
  1 ≤ fileCount a →
  key a = generateKey (file (config a)) (fileCount a - 1) →
  key (Nat.iter k incrementKey a)
  = generateKey (file (config a)) (fileCount (Nat.iter k incrementKey a) - 1)
  ∧ fileCount a ≤ fileCount (Nat.iter k incrementKey a).
Proof.
  intros Hpos Hkey. destruct k as [|k]; [by simpl|].
  rewrite iter_incrementKey_fileCount.
  simpl. rewrite iter_incrementKey_config, iter_incrementKey_fileCount.
  split; [f_equal; lia|lia].
Qed.

Lemma increasing_snoc (idxs : list nat) (n : nat) :
  (∀ i j m n, idxs !! i = Some m → idxs !! j = Some n → i < j → m < n) →
  Forall (λ i, i < n) idxs →
  ∀ i j m n', (idxs ++ [n]) !! i = Some m → (idxs ++ [n]) !! j = Some n' →
              i < j → m < n'.
Proof.
  intros Hinc Hlt i j m n' Hi Hj Hij.
  pose proof (lookup_lt_Some _ _ _ Hj) as Hjlen.
  rewrite length_app in Hjlen. simpl in Hjlen.
  rewrite lookup_app_l in Hi by lia.
  destruct (decide (j < length idxs)) as [Hjin|Hjout].
  - rewrite lookup_app_l in Hj by done. by eapply Hinc.
  - assert (j = length idxs) as -> by lia.
    rewrite list_lookup_middle in Hj by done. injection Hj as <-.
    rewrite Forall_forall in Hlt. apply Hlt.
    by eapply list_elem_of_lookup_2.
Qed.

Lemma namesOK_open w w' idxs :
  1 ≤ fileCount (this w) →
  key (this w)
  = generateKey (file (config (this w))) (fileCount (this w) - 1) →
  files (this w) = pathOf (file (config (this w))) <$> idxs →
  (∀ i j m n, idxs !! i = Some m → idxs !! j = Some n → i < j → m < n) →
  Forall (λ i, i < fileCount (this w) - 1) idxs →
  openOutstream w = Some w' →
  namesOK w'.
Proof.
  intros Hpos Hkey Hfiles Hinc Hlt Hopen.
  destruct (openOutstream_inv _ _ Hopen)
    as (a & Hs & Hf & _ & Hcfg & _ & _ & Hfc & Hk & _).
  assert (∃ k, a = Nat.iter k incrementKey (this w)) as [k ->].
  { unfold searched in Hs. destruct (_ && _).
    - destruct Hs as (k & ? & _). by exists k.
    - by exists 0. }
  destruct (namesOK_iter k (this w) Hpos Hkey) as [Hkey' Hge].
  rewrite <-Hfc, <-Hk in Hkey'. rewrite <-Hfc in Hge.
  assert (filePath (Nat.iter k incrementKey (this w))
          = pathOf (file (config (this w))) (fileCount (this w') - 1))
    as Hpath.
  { unfold filePath, pathOf. rewrite iter_incrementKey_config.
    by rewrite <-Hk, Hkey'. }
  split_and!; [lia|by rewrite Hcfg|].
  exists (idxs ++ [fileCount (this w') - 1]).
  rewrite Hcfg, Hf, Hpath, Hfiles, fmap_app. split_and!; [done| |].
  - apply increasing_snoc; [done|].
    eapply Forall_impl; [exact Hlt|]. simpl. intros; lia.
  - apply Forall_app. split.
    + eapply Forall_impl; [exact Hlt|]. simpl. intros; lia.
    + constructor; [lia|done].
Qed.

Lemma namesOK_writeItem w h t : namesOK w → namesOK (writeItem h t w).
Proof.
  unfold namesOK.
  destruct (writeItem_frame w h t) as (-> & _ & -> & _).
  by destruct (writeItem_sep w h t) as (_ & -> & ->).
Qed.

Lemma namesOK_reset w w' :
  namesOK w → resetOutstream false w = Some w' → namesOK w'.
Proof.
  intros (Hpos & Hkey & idxs & Hfiles & Hinc & Hlt) H.
  unfold resetOutstream in H. simpl in H.
  apply (namesOK_open _ _ idxs) in H; [done|..];
    destruct (outstream (this w)); simpl; try done; try lia;
    try (f_equal; lia);
    (eapply Forall_impl; [exact Hlt|]; simpl; intros; lia).
Qed.

Lemma namesOK_write w chunk w' cbs :
  inv w → destroyed (this w) = false →
  namesOK w → _write chunk w = Some (w', cbs) → namesOK w'.
Proof.
  intros Hinv Hlive Hnames H. unfold _write in H.
  destruct (if lazy _ && _ then _ else _) as [w1|] eqn:Hopen; [|done].
  simpl in H.
  assert (namesOK w1) as Hnames1.
  { destruct (lazy _ && negb _) eqn:Hcond; [|by injection Hopen as <-].
    apply andb_true_iff in Hcond as [_ Hnone%negb_true_iff].
    apply bool_decide_eq_false in Hnone.
    assert (outstream (this w) = None) as Hnone'.
    { destruct (outstream (this w)); [|done]. destruct Hnone. eauto. }
    destruct (inv_unopened _ Hinv Hlive Hnone') as (_ & Hf & _).
    destruct Hnames as (Hpos & Hkey & _).
    by apply (namesOK_open w w1 []). }
  destruct (itemValidationSchema _ ≫= _) as [e|].
  { by injection H as <- <-. }
  destruct (convert chunk) as [text cb1].
  case_bool_decide.
  - destruct (resetOutstream false w1) as [w2|] eqn:Hreset; [|done].
    simpl in H. pose proof (namesOK_reset _ _ Hnames1 Hreset) as Hnames2.
    destruct (outstream (this w2)) as [h2|]; [|by injection H as <- <-].
    destruct text as [t|]; injection H as <- <-; [|done].
    by apply namesOK_writeItem.
  - destruct (outstream (this w1)) as [h1|]; [|by injection H as <- <-].
    destruct text as [t|]; injection H as <- <-; [|done].
    by apply namesOK_writeItem.
Qed.

Lemma reachable_namesOK w : reachable w → namesOK w.
Proof.
  induction 1 as [args d w Hmax Hnew|w chunk w' cbs Hr IH Hlive Hwrite
                 |w w' Hr IH Hfinal].
  - unfold new_ArrayStream in Hnew.
    destruct (append args && overwrite args); [done|].
    set (w0 := {| this := incrementKey _; disk := d; ledger := [] |}) in Hnew.
    assert (namesOK w0) as Hnames0.
    { split_and!; [simpl; lia|done|]. exists []. split_and!; done. }
    destruct (lazy _); [by injection Hnew as <-|].
    destruct (openOutstream w0) as [w'|] eqn:Hopen; [|done].
    injection Hnew as <-.
    by apply (namesOK_open w0 w' []).
  - by eapply namesOK_write; [apply reachable_inv| | |].
  - unfold _final, flushOutstream, resetOutstream in Hfinal.
    destruct (destroyed (this w)); [by injection Hfinal as <-|].
    simpl in Hfinal. injection Hfinal as <-.
    by destruct (outstream (this w)).
Qed.

(** X15. The engine never opens the same path twice. In every reachable
    state the current key is the name of index [fileCount - 1], and the
    paths of [getFilePaths] are the paths of a strictly increasing list of
    indices below [fileCount]; with the token in the key pattern they are
    therefore pairwise distinct. *)
Theorem X15_paths_never_reopened (w : World) :
  reachable w →
  key (this w)
  = generateKey (file (config (this w))) (fileCount (this w) - 1)
  ∧ (∃ idxs,
       getFilePaths (this w) = pathOf (file (config (this w))) <$> idxs
       ∧ (∀ i j m n, idxs !! i = Some m → idxs !! j = Some n →
                     i < j → m < n)
       ∧ Forall (λ i, i < fileCount (this w)) idxs)
  ∧ (hasToken (keyPattern (file (config (this w)))) = true →
     NoDup (getFilePaths (this w))).
Proof.
  intros Hr.
  destruct (reachable_namesOK _ Hr) as (_ & Hkey & idxs & Hfiles & Hinc & Hlt).
  split_and!; [done|by exists idxs|].
  intros Htok. unfold getFilePaths. rewrite Hfiles.
  apply NoDup_fmap_2.
  - intros i j Hij. by apply pathOf_inj in Hij.
  - apply NoDup_alt. intros i j x Hi Hj.
    destruct (Nat.lt_trichotomy i j) as [Hlt'|[->|Hgt]]; [|done|].
    + pose proof (Hinc _ _ _ _ Hi Hj Hlt'). lia.
    + pose proof (Hinc _ _ _ _ Hj Hi Hgt). lia.
Qed.

Lemma X15_paths_never_reopened_witness :
  key (this demoWorld3)
  = generateKey (file (config (this demoWorld3)))
      (fileCount (this demoWorld3) - 1)
  ∧ (∃ idxs,
       getFilePaths (this demoWorld3)
       = pathOf (file (config (this demoWorld3))) <$> idxs
       ∧ (∀ i j m n, idxs !! i = Some m → idxs !! j = Some n →
                     i < j → m < n)
       ∧ Forall (λ i, i < fileCount (this demoWorld3)) idxs)
  ∧ (hasToken (keyPattern (file (config (this demoWorld3)))) = true →
     NoDup (getFilePaths (this demoWorld3))).
Proof.
  apply (X15_paths_never_reopened demoWorld3).
  apply (demoRun_reachable demoConfig ∅ [num "1"; num "2"; num "3"]).
  - simpl. lia.
  - vm_compute. reflexivity.
Defined.

(** ** Where the engine writes *)

Lemma confined_open w w' :
  openOutstream w = Some w' →
  ∀ q, q ∉ files (this w') → disk w' !! q = disk w !! q.
Proof.
  intros Hopen q Hq.
  destruct (openOutstream_elsewhere _ _ Hopen) as (p & Hf & _ & _ & Hframe).
  apply Hframe. intros ->. apply Hq. rewrite Hf. set_solver.
Qed.

Lemma confined_stream_write w h data :
  last (files (this w)) = Some (path h) →
  ∀ q, q ∉ files (this w) → disk (stream_write h data w) !! q = disk w !! q.
Proof.
  intros Hlast q Hq. unfold stream_write. simpl.
  apply lookup_insert_ne. intros Heq. apply Hq.
  apply last_Some in Hlast as [l ->]. rewrite Heq. set_solver.
Qed.

Lemma confined_writeItem w h t :
  last (files (this w)) = Some (path h) →
  ∀ q, q ∉ files (this w) → disk (writeItem h t w) !! q = disk w !! q.
Proof.
  intros Hlast q Hq.
  destruct (writeItem_frame w h t) as (_ & _ & _ & _ & _ & _ & ->).
  apply lookup_insert_ne. intros Heq. apply Hq.
  apply last_Some in Hlast as [l ->]. rewrite Heq. set_solver.
Qed.

Lemma confined_reset w w' :
  (∀ h, outstream (this w) = Some h → last (files (this w)) = Some (path h)) →
  resetOutstream false w = Some w' →
  ∀ q, q ∉ files (this w') → disk w' !! q = disk w !! q.
Proof.
  intros Hlast Hreset q Hq.
  destruct (resetOutstream_files _ _ Hreset) as (p & _ & Hf & _).
  unfold resetOutstream in Hreset. simpl in Hreset.
  rewrite (confined_open _ _ Hreset q Hq). simpl.
  destruct (outstream (this w)) as [h|] eqn:Hh; [|done].
  apply confined_stream_write; [by apply Hlast|].
  intros Hin. apply Hq. rewrite Hf. set_solver.
Qed.

Lemma confined_write w chunk w' cbs :
  (∀ h, outstream (this w) = Some h → last (files (this w)) = Some (path h)) →
  _write chunk w = Some (w', cbs) →
  ∀ q, q ∉ files (this w') → disk w' !! q = disk w !! q.
Proof.
  intros Hlast H. unfold _write in H.
  destruct (if lazy _ && _ then _ else _) as [w1|] eqn:Hopen; [|done].
  simpl in H.
  assert ((∀ h, outstream (this w1) = Some h →
                last (files (this w1)) = Some (path h))
          ∧ ∀ q, q ∉ files (this w1) → disk w1 !! q = disk w !! q)
    as [Hlast1 Hdisk1].
  { destruct (lazy _ && _).
    - split; [exact (last_files_open _ _ Hopen)|exact (confined_open _ _ Hopen)].
    - by injection Hopen as <-. }
  destruct (itemValidationSchema _ ≫= _) as [e|].
  { by injection H as <- <-. }
  destruct (convert chunk) as [text cb1].
  case_bool_decide.
  - destruct (resetOutstream false w1) as [w2|] eqn:Hreset; [|done].
    simpl in H.
    destruct (resetOutstream_files _ _ Hreset) as (p & h2 & Hf2 & Hh2 & Hp2).
    assert (∀ q, q ∉ files (this w2) → disk w2 !! q = disk w !! q) as Hdisk2.
    { intros q Hq. rewrite (confined_reset _ _ Hlast1 Hreset q Hq).
      apply Hdisk1. intros Hin. apply Hq. rewrite Hf2. set_solver. }
    rewrite Hh2 in H. destruct text as [t|]; injection H as <- <-; [|done].
    intros q Hq.
    destruct (writeItem_frame w2 h2 t) as (_ & _ & Hfw & _).
    rewrite Hfw in Hq.
    rewrite confined_writeItem; [by apply Hdisk2| |done].
    by rewrite Hf2, last_snoc, Hp2.
  - destruct (outstream (this w1)) as [h1|] eqn:Hh1;
      [|by injection H as <- <-].
    destruct text as [t|]; injection H as <- <-; [|done].
    intros q Hq.
    destruct (writeItem_frame w1 h1 t) as (_ & _ & Hfw & _).
    rewrite Hfw in Hq.
    rewrite confined_writeItem; [by apply Hdisk1|by apply Hlast1|done].
Qed.

(** X16. The engine writes to the files it lists and to no other: for
    every policy, a call of [_write] on a reachable engine leaves every file
    whose path is not returned by [getFilePaths] after the call as it was
    before the call (existing or not). *)
Theorem X16_writes_confined (w : World) (chunk : Chunk) (w' : World)
  (cbs : list Callback) :
  reachable w →
  _write chunk w = Some (w', cbs) →
  ∀ q, q ∉ getFilePaths (this w') → disk w' !! q = disk w !! q.
Proof.
  intros Hr Hwrite. destruct (reachable_handleOK _ Hr) as [_ Hlast].
  exact (confined_write _ _ _ _ Hlast Hwrite).
Qed.

Lemma X16_writes_confined_witness :
  ("out/notes.txt"
     ∉ getFilePaths
         (this (default demoWorld3 (fst <$> _write (num "4") demoWorld3))))
  ∧ disk (default demoWorld3 (fst <$> _write (num "4") demoWorld3))
      !! "out/notes.txt"
    = disk demoWorld3 !! "out/notes.txt".
Proof.
  assert ("out/notes.txt"
            ∉ getFilePaths
                (this (default demoWorld3
                         (fst <$> _write (num "4") demoWorld3)))) as Hq.
  { refine (bool_decide_unpack _ _). vm_compute. exact I. }
  split; [exact Hq|].
  apply (X16_writes_confined demoWorld3 (num "4") _ [CbOk]).
  - apply (demoRun_reachable demoConfig ∅ [num "1"; num "2"; num "3"]).
    + simpl. lia.
    + vm_compute. reflexivity.
  - vm_compute. reflexivity.
  - exact Hq.
Defined.

(** * The total count and what is on the disk *)

Lemma namesOK_NoDup w :
  namesOK w →
  hasToken (keyPattern (file (config (this w)))) = true →
  NoDup (files (this w)).
Proof.
  intros (_ & _ & idxs & -> & Hinc & _) Htok.
  apply NoDup_fmap_2.
  - intros i j Hij. by apply pathOf_inj in Hij.
  - apply NoDup_alt. intros i j x Hi Hj.
    destruct (Nat.lt_trichotomy i j) as [Hlt'|[->|Hgt]]; [|done|].
    + pose proof (Hinc _ _ _ _ Hi Hj Hlt'). lia.
    + pose proof (Hinc _ _ _ _ Hj Hi Hgt). lia.
Qed.

Lemma ledger_length w :
  reachable w → length (ledger w) = length (files (this w)).
Proof.
  intros Hr. destruct (total_is_ledger_sum _ Hr) as [Hlen _].
  unfold tally in Hlen. by rewrite length_fmap in Hlen.
Qed.

Lemma log_item_lookup data (l : list (list string)) i :
  i + 1 < length l → log_item data l !! i = l !! i.
Proof.
  destruct l as [|log l _] using rev_ind; [simpl; lia|].
  rewrite length_app. simpl. intros Hi.
  rewrite log_item_snoc, !lookup_app_l by lia. done.
Qed.

Lemma last_lookup_length {A} (l : list A) i x y :
  length l = S i → l !! i = Some x → last l = Some y → x = y.
Proof.
  intros Hlen Hi Hlast. rewrite last_lookup, Hlen in Hlast.
  simpl in Hlast. congruence.
Qed.

(** A listed file other than the last one is not the file of the stream. *)
Lemma closed_not_current w i p h :
  NoDup (files (this w)) →
  files (this w) !! i = Some p →
  i + 1 < length (files (this w)) →
  last (files (this w)) = Some (path h) →
  path h ≠ p.
Proof.
  intros Hnd Hi Hlt Hlast Heq. subst p.
  rewrite last_lookup in Hlast.
  pose proof (NoDup_lookup _ _ _ _ Hnd Hi Hlast). lia.
Qed.

(** Closing the file of the stream: the closing bracket lands at its end. *)
Lemma close_current w h :
  currentOK w → outstream (this w) = Some h →
  ∃ base log,
    last (ledger w) = Some log
    ∧ disk (stream_write h TERMINATOR w)
      = <[path h := base +:+ Text.join "" log +:+ TERMINATOR]> (disk w).
Proof.
  intros Hcur Hh. destruct (Hcur h Hh) as (base & log & Hlast & Hlook & Hw).
  exists base, log. split; [done|].
  unfold stream_write. cbn [disk on_this set_disk]. rewrite Hlook.
  cbn [default from_option id].
  rewrite landing_at_end by (by intros ?; apply Hw).
  by rewrite append_assoc.
Qed.

Lemma closedOK_final w w' :
  reachable w →
  hasToken (keyPattern (file (config (this w)))) = true →
  closedOK w → _final w = Some w' → closedOK w'.
Proof.
  intros Hr Htok Hclosed Hfinal.
  pose proof (namesOK_NoDup _ (reachable_namesOK _ Hr) Htok) as Hnd.
  destruct (reachable_handleOK _ Hr) as [_ Hlast].
  pose proof (ledger_length _ Hr) as Hlen.
  unfold _final, flushOutstream, resetOutstream in Hfinal.
  destruct (destroyed (this w)) eqn:Hlive; [by injection Hfinal as <-|].
  cbn [negb on_this this outstream set_destroyed] in Hfinal.
  injection Hfinal as <-.
  destruct (outstream (this w)) as [h|] eqn:Hh.
  - destruct (close_current w h (reachable_currentOK _ Hr) Hh)
      as (base & log & Hlog & Hdisk).
    intros i p log' Hi Hl _.
    cbn [this disk ledger files on_this stream_write set_disk set_outstream
         set_destroyed] in Hi, Hl |- *.
    cbn [this disk ledger files on_this stream_write set_disk set_outstream
         set_destroyed] in Hdisk.
    rewrite Hdisk.
    destruct (decide (i + 1 < length (files (this w)))) as [Hlt|Hge].
    + rewrite lookup_insert_ne by (eapply (closed_not_current w i p h); eauto).
      apply (Hclosed i p log'); auto.
    + pose proof (lookup_lt_Some _ _ _ Hi) as Hi'.
      assert (length (files (this w)) = S i) as HSi by lia.
      pose proof (last_lookup_length _ _ _ _ HSi Hi (Hlast h eq_refl)) as ->.
      rewrite <-Hlen in HSi.
      pose proof (last_lookup_length _ _ _ _ HSi Hl Hlog) as ->.
      rewrite lookup_insert_eq. by exists base.
  - destruct (inv_unopened _ (reachable_inv _ Hr) Hlive Hh) as (_ & Hf & _).
    intros i p log' Hi. simpl in Hi. by rewrite Hf in Hi.
Qed.

Lemma openOutstream_ledger w w' :
  openOutstream w = Some w' → ledger w' = ledger w ++ [[]].
Proof.
  unfold openOutstream. intros H.
  destruct (if negb (append (config (this w))) && negb (overwrite (config (this w)))
            then findFreeKey (size (disk w) + 2) (disk w) (this w)
            else Some (this w)) as [a|]; [|done].
  simpl in H. injection H as <-.
  destruct (overwrite (config (this w))); [by rewrite openOverwrite_eq|].
  destruct (disk w !! filePath a) as [content|];
    [|by rewrite openOverwrite_eq].
  case_bool_decide; [by rewrite openOverwrite_eq|done].
Qed.

(** The closed files after a rotation: the files listed before it, the
    last of which has just been closed. *)
Lemma closedOK_rotated w h w' p2 :
  closedOK w → currentOK w →
  NoDup (files (this w)) →
  length (ledger w) = length (files (this w)) →
  outstream (this w) = Some h →
  last (files (this w)) = Some (path h) →
  files (this w') = files (this w) ++ [p2] →
  NoDup (files (this w')) →
  is_Some (outstream (this w')) →
  (∀ i, i < length (ledger w) → ledger w' !! i = ledger w !! i) →
  (∀ q, q ≠ p2 → disk w' !! q = disk (stream_write h TERMINATOR w) !! q) →
  closedOK w'.
Proof.
  intros Hclosed Hcur Hnd Hlen Hh Hlast Hf' Hnd' [h' Hh'] Hledger Hdisk.
  destruct (close_current w h Hcur Hh) as (base & log & Hlog & Hdiskr).
  intros i p log' Hi Hl Hc. rewrite Hf' in Hi, Hc, Hnd'.
  destruct Hc as [Hc|Hc]; [|congruence].
  rewrite length_app in Hc. simpl in Hc.
  rewrite lookup_app_l in Hi by lia.
  rewrite Hledger in Hl by lia.
  assert (p ≠ p2) as Hne.
  { apply NoDup_app in Hnd' as (_ & Hnot & _). intros ->.
    eapply Hnot; [by eapply list_elem_of_lookup_2|]. set_solver. }
  rewrite Hdisk, Hdiskr by done.
  destruct (decide (i + 1 < length (files (this w)))) as [Hlt|Hge].
  - rewrite lookup_insert_ne by (eapply (closed_not_current w i p h); eauto).
    apply (Hclosed i p log'); auto.
  - assert (length (files (this w)) = S i) as HSi by lia.
    pose proof (last_lookup_length _ _ _ _ HSi Hi Hlast) as ->.
    rewrite <-Hlen in HSi.
    pose proof (last_lookup_length _ _ _ _ HSi Hl Hlog) as ->.
    rewrite lookup_insert_eq. by exists base.
Qed.

Lemma closedOK_writeItem w h t :
  closedOK w →
  NoDup (files (this w)) →
  length (ledger w) = length (files (this w)) →
  outstream (this w) = Some h →
  last (files (this w)) = Some (path h) →
  closedOK (writeItem h t w).
Proof.
  intros Hclosed Hnd Hlen Hh Hlast i p log Hi Hl Hc.
  destruct (writeItem_frame w h t) as (_ & _ & Hf & _ & _ & Ho & Hdisk).
  rewrite Hf in Hi, Hc. rewrite Ho in Hc. rewrite writeItem_ledger in Hl.
  destruct Hc as [Hc|Hc]; [|done].
  rewrite log_item_lookup in Hl by lia.
  rewrite Hdisk, lookup_insert_ne
    by (eapply (closed_not_current w i p h); eauto).
  apply (Hclosed i p log); auto.
Qed.

Lemma closedOK_write w chunk w' cbs :
  reachable w → destroyed (this w) = false →
  hasToken (keyPattern (file (config (this w)))) = true →
  closedOK w → _write chunk w = Some (w', cbs) → closedOK w'.
Proof.
  intros Hr Hlive Htok Hclosed Hwrite.
  pose proof (reach_write _ _ _ _ Hr Hlive Hwrite) as Hr'.
  pose proof (reachable_inv _ Hr) as Hinv.
  destruct (_write_live _ _ _ _ Hinv Hlive Hwrite) as (_ & _ & Hcfg').
  pose proof (namesOK_NoDup _ (reachable_namesOK _ Hr) Htok) as Hnd.
  assert (NoDup (files (this w'))) as Hnd'.
  { apply namesOK_NoDup; [by apply reachable_namesOK|by rewrite Hcfg']. }
  destruct (reachable_handleOK _ Hr) as [_ Hlast].
  pose proof (reachable_currentOK _ Hr) as Hcur.
  pose proof (ledger_length _ Hr) as Hlen.
  clear Hr'. unfold _write in Hwrite.
  destruct (outstream (this w)) as [h|] eqn:Hh.
  - rewrite bool_decide_eq_true_2, andb_false_r in Hwrite by eauto.
    simpl in Hwrite.
    destruct (itemValidationSchema _ ≫= _) as [e|];
      [by injection Hwrite as <- <-|].
    destruct (convert chunk) as [text cb1].
    case_bool_decide as Hrot.
    + destruct (resetOutstream false w) as [w2|] eqn:Hreset; [|done].
      simpl in Hwrite.
      unfold resetOutstream in Hreset. rewrite Hh in Hreset.
      cbn [negb] in Hreset.
      destruct (openOutstream_elsewhere _ _ Hreset)
        as (p2 & Hf2 & (h2 & Hh2 & Hp2) & _ & Hframe2).
      pose proof (openOutstream_ledger _ _ Hreset) as Hl2.
      cbn [files ledger disk this on_this] in Hf2, Hl2, Hframe2.
      rewrite Hh2 in Hwrite.
      destruct text as [t|]; injection Hwrite as <- <-.
      * destruct (writeItem_frame w2 h2 t) as (_ & _ & Hf & _ & _ & Ho & Hdisk).
        apply (closedOK_rotated w h _ p2 Hclosed Hcur Hnd Hlen Hh
                 (Hlast h eq_refl)).
        -- by rewrite Hf.
        -- done.
        -- rewrite Ho. eauto.
        -- intros i Hi. rewrite writeItem_ledger, Hl2.
           rewrite log_item_lookup by (rewrite length_app; simpl; lia).
           by rewrite lookup_app_l.
        -- intros q Hq. rewrite Hdisk, Hp2, lookup_insert_ne by done.
           by apply Hframe2.
      * apply (closedOK_rotated w h _ p2 Hclosed Hcur Hnd Hlen Hh
                 (Hlast h eq_refl)).
        -- done.
        -- done.
        -- eauto.
        -- intros i Hi. by rewrite Hl2, lookup_app_l.
        -- done.
    + rewrite Hh in Hwrite.
      destruct text as [t|]; injection Hwrite as <- <-; [|done].
      apply (closedOK_writeItem w h t Hclosed Hnd Hlen Hh (Hlast h eq_refl)).
  - destruct (inv_unopened _ Hinv Hlive Hh) as (_ & Hf & Hcount & Hlazy).
    rewrite Hlazy, bool_decide_eq_false_2 in Hwrite by (by intros [? ?]).
    simpl in Hwrite.
    destruct (openOutstream w) as [w1|] eqn:Hopen; [|done]. simpl in Hwrite.
    destruct (openOutstream_inv _ _ Hopen)
      as (a & _ & Hf1 & _ & Hcfg & Hcount1 & _ & _ & _ & h1 & _ & Hh1 & _).
    assert (length (files (this w')) = 1 ∧ is_Some (outstream (this w')))
      as [Hone Hsome].
    { destruct (itemValidationSchema _ ≫= _) as [e|].
      { injection Hwrite as <- <-. rewrite Hf1, Hf, Hh1. eauto. }
      destruct (convert chunk) as [text cb1].
      rewrite bool_decide_eq_false_2 in Hwrite
        by (rewrite Hcount1, Hcount; pose proof (inv_max _ Hinv); lia).
      rewrite Hh1 in Hwrite.
      destruct text as [t|]; injection Hwrite as <- <-.
      - destruct (writeItem_frame w1 h1 t) as (_ & _ & -> & _ & _ & -> & _).
        rewrite Hf1, Hf. eauto.
      - rewrite Hf1, Hf, Hh1. eauto. }
    intros i p log Hi _ [Hc|Hc].
    + apply lookup_lt_Some in Hi. lia.
    + destruct Hsome as [? ?]. congruence.
Qed.

Lemma reachable_closedOK w :
  reachable w →
  hasToken (keyPattern (file (config (this w)))) = true →
  closedOK w.
Proof.
  induction 1 as [args d w Hmax Hnew|w chunk w' cbs Hr IH Hlive Hwrite
                 |w w' Hr IH Hfinal]; intros Htok.
  - unfold new_ArrayStream in Hnew.
    destruct (append args && overwrite args); [done|].
    destruct (lazy _).
    + injection Hnew as <-. by intros i p log Hi.
    + destruct (openOutstream _) as [w'|] eqn:Hopen; [|done].
      injection Hnew as <-.
      destruct (openOutstream_inv _ _ Hopen)
        as (a & _ & Hf & _ & _ & _ & _ & _ & _ & h & _ & Hh & _).
      intros i p log Hi _ [Hc|Hc]; [|congruence].
      rewrite Hf in Hc. simpl in Hc. lia.
  - destruct (_write_live _ _ _ _ (reachable_inv _ Hr) Hlive Hwrite)
      as (_ & _ & Hcfg).
    rewrite Hcfg in Htok.
    exact (closedOK_write w chunk w' cbs Hr Hlive Htok (IH Htok) Hwrite).
  - destruct (_final_frame _ _ Hfinal) as (_ & _ & _ & Hcfg).
    rewrite Hcfg in Htok.
    exact (closedOK_final w w' Hr Htok (IH Htok) Hfinal).
Qed.

(** ** C8 *)

(** C8. In every reachable state the reported total item count is the sum,
    over the files of [files], of the number of item writes the engine made
    on the stream of each file; every file but the current one has had
    [maxItems] of them, so with more than one file the total is
    [(length files - 1) * maxItems + count], and otherwise it is [count].
    The item writes that are counted are on the disk: the file of the open
    stream holds their data after what it held when it was opened (the
    opening bracket for a file the engine created), and a closed file holds
    them followed by the closing bracket and newline. *)
Theorem C8_total_count_invariant (w : World) (Hreach : reachable w) :
  length (ledger w) = length (getFilePaths (this w))
  ∧ getTotalCount (this w) = sum_list (length <$> ledger w)
  ∧ (∀ i log, ledger w !! i = Some log → i + 1 < length (ledger w) →
              length log = maxItems (config (this w)))
  ∧ (∀ log, last (ledger w) = Some log → length log = getCount (this w))
  ∧ (1 < length (getFilePaths (this w)) →
     getTotalCount (this w)
     = (length (getFilePaths (this w)) - 1) * maxItems (config (this w))
       + getCount (this w))
  ∧ (length (getFilePaths (this w)) ≤ 1 →
     getTotalCount (this w) = getCount (this w))
  ∧ (∀ h, outstream (this w) = Some h →
       ∃ base log,
         last (getFilePaths (this w)) = Some (path h)
         ∧ last (ledger w) = Some log
         ∧ disk w !! path h = Some (base +:+ Text.join "" log)
         ∧ (flags h = flags_w → base = "["))
  ∧ (hasToken (keyPattern (file (config (this w)))) = true →
     ∀ i p log,
       getFilePaths (this w) !! i = Some p → ledger w !! i = Some log →
       i + 1 < length (getFilePaths (this w)) ∨ outstream (this w) = None →
       ∃ base, disk w !! p = Some (base +:+ Text.join "" log +:+ TERMINATOR)).
Proof.
  pose proof (reachable_currentOK _ Hreach) as Hcur.
  destruct (reachable_handleOK _ Hreach) as [_ Hlast].
  pose proof (reachable_closedOK _ Hreach) as Hclosed.
  pose proof (ledger_length _ Hreach) as Hlen.
  apply reachable_inv in Hreach as [_ _ Hledger _ _].
  assert (∀ h, outstream (this w) = Some h →
       ∃ base log,
         last (getFilePaths (this w)) = Some (path h)
         ∧ last (ledger w) = Some log
         ∧ disk w !! path h = Some (base +:+ Text.join "" log)
         ∧ (flags h = flags_w → base = "[")) as Hopen.
  { intros h Hh. destruct (Hcur h Hh) as (base & log & ? & ? & Hw).
    exists base, log. split_and!; [by apply Hlast|done|done|].
    intros Hflags. by destruct (Hw Hflags). }
  unfold getTotalCount, getFilePaths, getCount in *.
  split_and!; [exact Hlen| | | | | |exact Hopen|exact Hclosed].
  all: unfold ledgerOK, tally in Hledger.
  all: destruct Hledger as [(Hl & Hf & Hn & _)|(pre & Hl & Hall & Hlen')].
  - rewrite Hl, Hf, Hn. done.
  - rewrite Hl, Hlen', sum_list_with_app, (sum_list_full _ _ Hall).
    simpl. case_bool_decide; lia.
  - intros i log Hi Hlt. apply fmap_nil_inv in Hl. by rewrite Hl in Hi.
  - intros i log Hi Hlt.
    assert ((length <$> ledger w) !! i = Some (length log)) as Hi'
      by (by rewrite list_lookup_fmap, Hi).
    rewrite Hl, lookup_app_l in Hi'.
    + by eapply Forall_lookup_1 in Hall.
    + apply (f_equal length) in Hl.
      rewrite length_fmap, length_app in Hl. simpl in Hl. lia.
  - intros log Hlog. apply fmap_nil_inv in Hl. by rewrite Hl in Hlog.
  - intros log Hlog.
    assert (last (length <$> ledger w) = Some (length log)) as Hlast'
      by (by rewrite fmap_last, Hlog).
    rewrite Hl, last_snoc in Hlast'. congruence.
  - rewrite Hf, Hn. simpl. lia.
  - intros ?. rewrite bool_decide_eq_true_2 by done. lia.
  - rewrite Hf, Hn. done.
  - intros ?. rewrite bool_decide_eq_false_2 by lia. done.
Qed.

(** C8 at the state after three items with two items per file: two files,
    a total of 3; the first file is closed and holds the two item writes
    that are counted for it. *)
Lemma C8_total_count_invariant_witness :
  getTotalCount (this demoWorld3) = sum_list (length <$> ledger demoWorld3)
  ∧ getTotalCount (this demoWorld3) = 3
  ∧ length (getFilePaths (this demoWorld3)) = 2
  ∧ ledger demoWorld3 = [["1"; ",2"]; ["3"]]
  ∧ ∃ base, disk demoWorld3 !! "out/data_0000.json"
            = Some (base +:+ Text.join "" ["1"; ",2"] +:+ TERMINATOR).
Proof.
  assert (reachable demoWorld3) as Hr.
  { apply (demoRun_reachable demoConfig ∅ [num "1"; num "2"; num "3"]).
    - simpl. lia.
    - vm_compute. reflexivity. }
  destruct (C8_total_count_invariant demoWorld3 Hr)
    as (_ & Htotal & _ & _ & _ & _ & _ & Hclosed).
  split; [exact Htotal|].
  split; [vm_compute; reflexivity|].
  split; [vm_compute; reflexivity|].
  split; [vm_compute; reflexivity|].
  apply (Hclosed eq_refl 0).
  - vm_compute. reflexivity.
  - vm_compute. reflexivity.
  - left. vm_compute. lia.
Defined.
